(** * Job-Scheduler-Microservice: scheduling and execution engine

    A shallow embedding of the Go sources
      - internal/models/job.go and the JobExecution model,
      - the JobExecutor (ExecuteJob / executeJobWithContext),
      - the Scheduler (Start, Stop, AddJob, RemoveJob, reloadJobs,
        createJobFunction),
    followed by the properties of the engine.

    Conventions.
      - A Go [error] is an [option string]: [None] is [nil], [Some m] is a
        non-nil error whose [Error()] text is [m].
      - [uuid.UUID] is represented by its canonical text, so [ID.String()]
        is the identity.
      - [time.Time] is a number of milliseconds; the zero [time.Time] is [0].
        The executor has two clocks, as the Go runtime has: the monotonic
        clock, which timers and the deadline of a context follow, and the
        wall clock, which [time.Now().UTC()] reads and which can be set.
      - Goroutines are interleaved by an explicit list of events; every
        event names the goroutine that moves and carries the answer of the
        outside world (repository result, capability outcome, fresh uuid). *)

From stdpp Require Import base option list gmap strings pretty.
From Stdlib Require Import ZArith Lia.

Set Warnings "-clear-no-such-hyp".

Open Scope string_scope.
Open Scope list_scope.
Open Scope Z_scope.

Abbreviation GoError := (option string).
Abbreviation UUID := string.
Abbreviation Time := Z.

(** ** internal/models *)
Module Models.

Abbreviation JobType := string.

Definition JobTypeEmailNotification : JobType := "email_notification".
Definition JobTypeDataProcessing : JobType := "data_processing".
Definition JobTypeReportGeneration : JobType := "report_generation".
Definition JobTypeHealthCheck : JobType := "health_check".

(** [Config] is an opaque key/value bag for the engine. *)
Record Job := mkJob {
  ID : UUID;
  Name : string;
  Description : string;
  Schedule : string;
  JobType_ : JobType;
  Config : list (string * string);
  IsActive : bool
}.

Definition IsValidJobType (jobType : string) : bool :=
  if decide (jobType = JobTypeEmailNotification) then true
  else if decide (jobType = JobTypeDataProcessing) then true
  else if decide (jobType = JobTypeReportGeneration) then true
  else if decide (jobType = JobTypeHealthCheck) then true
  else false.

Inductive ExecutionStatus :=
| ExecutionStatusPending
| ExecutionStatusRunning
| ExecutionStatusCompleted
| ExecutionStatusFailed
| ExecutionStatusCancelled.

Record JobExecution := mkJobExecution {
  ExecID : UUID;
  JobID : UUID;
  StartedAt : Time;
  CompletedAt : option Time;
  Status : ExecutionStatus;
  ErrorMessage : option string;
  ExecutionDuration : option Z
}.

Definition IsZero (t : Time) : bool := Z.eqb t 0.

(** [now.Sub(je.StartedAt).Milliseconds()], kept only when a start time
    was recorded. *)
Definition durationSince (now : Time) (je : JobExecution) : option Z :=
  if IsZero (StartedAt je) then ExecutionDuration je
  else Some (now - StartedAt je).

Definition MarkAsRunning (now : Time) (je : JobExecution) : JobExecution :=
  {| ExecID := ExecID je; JobID := JobID je;
     StartedAt := now;
     CompletedAt := CompletedAt je;
     Status := ExecutionStatusRunning;
     ErrorMessage := ErrorMessage je;
     ExecutionDuration := ExecutionDuration je |}.

Definition MarkAsCompleted (now : Time) (je : JobExecution) : JobExecution :=
  {| ExecID := ExecID je; JobID := JobID je;
     StartedAt := StartedAt je;
     CompletedAt := Some now;
     Status := ExecutionStatusCompleted;
     ErrorMessage := ErrorMessage je;
     ExecutionDuration := durationSince now je |}.

Definition MarkAsFailed (now : Time) (errorMsg : string) (je : JobExecution)
  : JobExecution :=
  {| ExecID := ExecID je; JobID := JobID je;
     StartedAt := StartedAt je;
     CompletedAt := Some now;
     Status := ExecutionStatusFailed;
     ErrorMessage := Some errorMsg;
     ExecutionDuration := durationSince now je |}.

Definition MarkAsCancelled (now : Time) (je : JobExecution) : JobExecution :=
  {| ExecID := ExecID je; JobID := JobID je;
     StartedAt := StartedAt je;
     CompletedAt := Some now;
     Status := ExecutionStatusCancelled;
     ErrorMessage := ErrorMessage je;
     ExecutionDuration := durationSince now je |}.

Definition IsCompleted (je : JobExecution) : bool :=
  match Status je with
  | ExecutionStatusCompleted | ExecutionStatusFailed
  | ExecutionStatusCancelled => true
  | _ => false
  end.

Definition terminal (st : ExecutionStatus) : bool :=
  match st with
  | ExecutionStatusCompleted | ExecutionStatusFailed
  | ExecutionStatusCancelled => true
  | _ => false
  end.

End Models.
Import Models.

#[global] Instance ExecutionStatus_eq_dec : EqDecision ExecutionStatus.
Proof. solve_decision. Defined.

(** ** The job executor (ExecuteJob, executeJobWithContext) *)
Module Executor.

(** The implementations of [services.JobExecutor] that [NewJobExecutor]
    registers. *)
Inductive Capability :=
| EmailNotificationExecutor
| DataProcessingExecutor
| ReportGenerationExecutor (dir : string)
| HealthCheckExecutor (timeout : Z).

Record Config := mkConfig {
  MaxConcurrentJobs : Z;
  ReportsDirectory : string;
  HealthCheckTimeout : Z
}.

(** The [executors] map literal of [NewJobExecutor]. *)
Definition registry (cfg : Config) : gmap JobType Capability :=
  <[JobTypeHealthCheck := HealthCheckExecutor (HealthCheckTimeout cfg)]>
  (<[JobTypeReportGeneration := ReportGenerationExecutor (ReportsDirectory cfg)]>
  (<[JobTypeDataProcessing := DataProcessingExecutor]>
  (<[JobTypeEmailNotification := EmailNotificationExecutor]> ∅))).

(** What a call of [executor.Execute(job)] does: it returns an error value
    or it panics. [Panicked r] carries what [recover()] returns for the
    panic: [Some v] is a value other than nil (kept as its [%v]
    rendering), [None] is nil, which [recover()] returns for [panic(nil)]
    in a program built for Go before 1.21. *)
Inductive ExecResult :=
| Returned (err : GoError)
| Panicked (r : option string).

(** Completion of the anonymous function around [executor.Execute]:
    either it returns with [executionErr] set, or a panic is still
    unwinding the goroutine. *)
Inductive Completion :=
| Normal (executionErr : GoError)
| Unwinding (r : option string).

Definition callCapability (r : ExecResult) : Completion :=
  match r with
  | Returned e => Normal e
  | Panicked v => Unwinding v
  end.

(** The deferred [if r := recover(); r != nil { executionErr = ... }] of
    that function. [recover()] stops the panic whatever it returns; when
    it returns nil, [executionErr] is left as it was declared. *)
Definition deferredRecover (c : Completion) : Completion :=
  match c with
  | Unwinding (Some v) => Normal (Some ("job execution panicked: " +:+ v))
  | Unwinding None => Normal None
  | Normal e => Normal e
  end.

Definition protectedExecute (r : ExecResult) : Completion :=
  deferredRecover (callCapability r).

Inductive Deferred := DRelease | DUntrack | DCancel.

#[global] Instance Deferred_eq_dec : EqDecision Deferred.
Proof. solve_decision. Defined.

(** Control points of the goroutine that runs [ExecuteJob]. *)
Inductive MainPC :=
| MSelectSemaphore
| MNewExecution
| MCreate
| MTrack
| MSpawn
| MWait
| MTimeoutUpdate
| MReturning (r : GoError)
| MReturned (r : GoError).

(** Control points of the goroutine that runs [executeJobWithContext];
    [WDone] remembers the value that was sent on [errChan]. *)
Inductive WorkerPC :=
| WIdle
| WMarkRunning
| WUpdateRunning
| WLookup
| WUnknownUpdate (err : string)
| WCheckCtx (c : Capability)
| WExecute (c : Capability)
| WMarkFinal (executionErr : GoError)
| WFinalUpdate (executionErr : GoError)
| WSend (r : GoError)
| WDone (r : GoError)
| WCrashed (r : option string).

(** The four places where the record is marked and then saved. *)
Inductive Site := AtRunning | AtUnknownKind | AtFinal | AtTimeout.

(** Observable actions of one call, most recent first. [OMark] carries
    the status and error text of the record after the write. *)
Inductive Obs :=
| ORepoCreate (res : GoError)
| ORepoUpdate (site : Site) (st : ExecutionStatus) (res : GoError)
| OMark (site : Site) (st : ExecutionStatus) (msg : option string)
| OExecute (r : ExecResult)
| OLogWarn (msg : string)
| OLogError (msg : string).

Record Call := mkCall {
  job : Job;
  mpc : MainPC;
  wpc : WorkerPC;
  execution : option JobExecution;   (* the cell behind [execution] *)
  defers : list Deferred;            (* defer stack of ExecuteJob *)
  deadline : option Time;            (* ctx of context.WithTimeout *)
  cancelledAt : option Time;         (* when cancel() ran *)
  errChan : option GoError;          (* buffered channel of capacity 1 *)
  trace : list Obs
}.

Definition set_mpc (p : MainPC) (c : Call) : Call :=
  mkCall (job c) p (wpc c) (execution c) (defers c) (deadline c)
         (cancelledAt c) (errChan c) (trace c).
Definition set_wpc (p : WorkerPC) (c : Call) : Call :=
  mkCall (job c) (mpc c) p (execution c) (defers c) (deadline c)
         (cancelledAt c) (errChan c) (trace c).
Definition set_execution (e : option JobExecution) (c : Call) : Call :=
  mkCall (job c) (mpc c) (wpc c) e (defers c) (deadline c)
         (cancelledAt c) (errChan c) (trace c).
Definition set_defers (d : list Deferred) (c : Call) : Call :=
  mkCall (job c) (mpc c) (wpc c) (execution c) d (deadline c)
         (cancelledAt c) (errChan c) (trace c).
Definition set_deadline (d : option Time) (c : Call) : Call :=
  mkCall (job c) (mpc c) (wpc c) (execution c) (defers c) d
         (cancelledAt c) (errChan c) (trace c).
Definition set_cancelledAt (t : option Time) (c : Call) : Call :=
  mkCall (job c) (mpc c) (wpc c) (execution c) (defers c) (deadline c)
         t (errChan c) (trace c).
Definition set_errChan (v : option GoError) (c : Call) : Call :=
  mkCall (job c) (mpc c) (wpc c) (execution c) (defers c) (deadline c)
         (cancelledAt c) v (trace c).
Definition observe (o : list Obs) (c : Call) : Call :=
  mkCall (job c) (mpc c) (wpc c) (execution c) (defers c) (deadline c)
         (cancelledAt c) (errChan c) (o ++ trace c).

Definition push_defer (d : Deferred) (c : Call) : Call :=
  set_defers (d :: defers c) c.

(** [return r]: the deferred calls run before the caller resumes. *)
Definition returning (r : GoError) (c : Call) : Call :=
  match defers c with
  | [] => set_mpc (MReturned r) c
  | _ => set_mpc (MReturning r) c
  end.

(** A [MarkAs...] method applied to the record. *)
Definition mark (site : Site) (f : JobExecution → JobExecution) (c : Call)
  : Call :=
  match execution c with
  | Some je =>
      observe [OMark site (Status (f je)) (ErrorMessage (f je))]
              (set_execution (Some (f je)) c)
  | None => c
  end.

Definition currentStatus (c : Call) : ExecutionStatus :=
  match execution c with
  | Some je => Status je
  | None => ExecutionStatusPending
  end.

Definition logIfFailed (msg : string) (res : GoError) : list Obs :=
  match res with
  | Some _ => [OLogError msg]
  | None => []
  end.

(** [jobExecutionRepo.Update(execution)] answered by [res]. *)
Definition repoUpdate (site : Site) (msg : string) (res : GoError) (c : Call)
  : Call :=
  observe (logIfFailed msg res ++ [ORepoUpdate site (currentStatus c) res]) c.

(** The executor with the calls of [ExecuteJob] in flight. *)
Record Sys := mkSys {
  maxConcurrentJobs : Z;             (* e.config.Scheduler.MaxConcurrentJobs *)
  capacity : nat;                    (* cap(e.semaphore) *)
  held : nat;                        (* len(e.semaphore) *)
  runningJobs : gmap UUID nat;       (* execution.ID -> the call owning the record *)
  executors : gmap JobType Capability;
  now : Time;                        (* the monotonic clock *)
  wall : Time;                       (* the wall clock, read by time.Now().UTC() *)
  calls : list Call
}.

Definition set_held (h : nat) (s : Sys) : Sys :=
  mkSys (maxConcurrentJobs s) (capacity s) h (runningJobs s) (executors s)
        (now s) (wall s) (calls s).
Definition set_runningJobs (m : gmap UUID nat) (s : Sys) : Sys :=
  mkSys (maxConcurrentJobs s) (capacity s) (held s) m (executors s)
        (now s) (wall s) (calls s).
Definition set_now (t : Time) (s : Sys) : Sys :=
  mkSys (maxConcurrentJobs s) (capacity s) (held s) (runningJobs s)
        (executors s) t (wall s) (calls s).
Definition set_wall (t : Time) (s : Sys) : Sys :=
  mkSys (maxConcurrentJobs s) (capacity s) (held s) (runningJobs s)
        (executors s) (now s) t (calls s).
Definition set_calls (l : list Call) (s : Sys) : Sys :=
  mkSys (maxConcurrentJobs s) (capacity s) (held s) (runningJobs s)
        (executors s) (now s) (wall s) l.

Definition put (i : nat) (c : Call) (s : Sys) : Sys :=
  set_calls (<[i := c]> (calls s)) s.

(** [make(chan struct{}, n)] panics for a negative [n]; [t0] is what
    both clocks show at construction. *)
Definition NewJobExecutor (cfg : Config) (t0 : Time) : option Sys :=
  if decide (MaxConcurrentJobs cfg < 0) then None
  else Some (mkSys (MaxConcurrentJobs cfg) (Z.to_nat (MaxConcurrentJobs cfg))
                   0 ∅ (registry cfg) t0 t0 []).

Definition newCall (j : Job) : Call :=
  mkCall j MSelectSemaphore WIdle None [] None None None [].

(** A trigger callback enters [ExecuteJob(&jobCopy)]. *)
Definition invoke (j : Job) (s : Sys) : Sys :=
  set_calls (calls s ++ [newCall j]) s.

Definition jobTimeout : Z := 10 * 60 * 1000.

Definition ctxDone (t : Time) (c : Call) : bool :=
  match deadline c with
  | Some d => bool_decide (d ≤ t) || bool_decide (is_Some (cancelledAt c))
  | None => false
  end.

(** [ctx.Err()] of a context that is done: the first cause wins. *)
Definition ctxErr (c : Call) : string :=
  match deadline c, cancelledAt c with
  | Some d, Some t => if bool_decide (t < d) then "context canceled"
                      else "context deadline exceeded"
  | _, _ => "context deadline exceeded"
  end.

Definition executionID (c : Call) : UUID :=
  match execution c with
  | Some je => ExecID je
  | None => ""
  end.

Inductive Answer :=
| ANone
| AUuid (id : UUID)
| ARepo (res : GoError)
| AExec (r : ExecResult)
| APickResult
| APickTimeout.

Definition limitReached (s : Sys) : string :=
  "maximum concurrent jobs (" +:+ pretty (maxConcurrentJobs s) +:+ ") reached".

Definition timeoutMessage : string := "Job execution timed out".
Definition timeoutError : string := "job execution timed out".

(** One deferred call of ExecuteJob. *)
Definition runDeferred (d : Deferred) (s : Sys) (c : Call)
  : option (Sys * Call) :=
  match d with
  | DRelease =>
      match held s with
      | O => None                     (* receive on an empty channel blocks *)
      | S h => Some (set_held h s, c)
      end
  | DUntrack =>
      Some (set_runningJobs (delete (executionID c) (runningJobs s)) s, c)
  | DCancel =>
      Some (s, match cancelledAt c with
               | None => set_cancelledAt (Some (now s)) c
               | Some _ => c
               end)
  end.

(** A step of the goroutine running [ExecuteJob] for call [i]: the new
    shared state and the new state of the call. *)
Definition main_step (i : nat) (a : Answer) (s : Sys) (c : Call)
  : option (Sys * Call) :=
  match mpc c, a with
  | MSelectSemaphore, ANone =>
      if decide (held s < capacity s)%nat then
        Some (set_held (S (held s)) s,
              push_defer DRelease (set_mpc MNewExecution c))
      else
        Some (s, returning (Some (limitReached s))
                   (observe [OLogWarn "Job execution skipped - maximum concurrent jobs reached"] c))
  | MNewExecution, AUuid id =>
      let je := mkJobExecution id (ID (job c)) 0 None
                  ExecutionStatusPending None None in
      Some (s, set_mpc MCreate (set_execution (Some je) c))
  | MCreate, ARepo res =>
      let c1 := observe [ORepoCreate res] c in
      match res with
      | Some err =>
          Some (s, returning
                     (Some ("failed to create execution record: " +:+ err))
                     (observe [OLogError "Failed to create job execution record"] c1))
      | None => Some (s, set_mpc MTrack c1)
      end
  | MTrack, ANone =>
      Some (set_runningJobs (<[executionID c := i]> (runningJobs s)) s,
            push_defer DUntrack (set_mpc MSpawn c))
  | MSpawn, ANone =>
      Some (s, push_defer DCancel
                 (set_deadline (Some (now s + jobTimeout))
                    (set_wpc WMarkRunning (set_mpc MWait c))))
  | MWait, APickResult =>
      match errChan c with
      | Some err => Some (s, returning err (set_errChan None c))
      | None => None
      end
  | MWait, APickTimeout =>
      if ctxDone (now s) c then
        Some (s, set_mpc MTimeoutUpdate
                   (mark AtTimeout (MarkAsFailed (wall s) timeoutMessage) c))
      else None
  | MTimeoutUpdate, ARepo res =>
      Some (s, returning (Some timeoutError)
                 (repoUpdate AtTimeout
                    "Failed to update execution record after timeout" res c))
  | MReturning r, ANone =>
      match defers c with
      | [] => Some (s, set_mpc (MReturned r) c)
      | d :: ds =>
          match runDeferred d s c with
          | Some (s', c') => Some (s', returning r (set_defers ds c'))
          | None => None
          end
      end
  | _, _ => None
  end.

(** A step of the goroutine running [executeJobWithContext]. *)
Definition worker_step (a : Answer) (s : Sys) (c : Call) : option Call :=
  match wpc c, a with
  | WMarkRunning, ANone =>
      Some (set_wpc WUpdateRunning (mark AtRunning (MarkAsRunning (wall s)) c))
  | WUpdateRunning, ARepo res =>
      Some (set_wpc WLookup
              (repoUpdate AtRunning
                 "Failed to update execution status to running" res c))
  | WLookup, ANone =>
      match executors s !! JobType_ (job c) with
      | None =>
          let err := "no executor found for job type: " +:+ JobType_ (job c) in
          Some (set_wpc (WUnknownUpdate err)
                  (mark AtUnknownKind (MarkAsFailed (wall s) err) c))
      | Some ex => Some (set_wpc (WCheckCtx ex) c)
      end
  | WUnknownUpdate err, ARepo res =>
      Some (set_wpc (WSend (Some err))
              (repoUpdate AtUnknownKind "Failed to update execution record" res c))
  | WCheckCtx ex, ANone =>
      if ctxDone (now s) c
      then Some (set_wpc (WMarkFinal (Some (ctxErr c))) c)
      else Some (set_wpc (WExecute ex) c)
  | WExecute ex, AExec r =>
      let c1 := observe [OExecute r] c in
      match protectedExecute r with
      | Normal e =>
          Some (set_wpc (WMarkFinal e)
                  (observe (match r with
                            | Panicked (Some _) =>
                                [OLogError "Job execution panicked"]
                            | _ => []
                            end) c1))
      | Unwinding v => Some (set_wpc (WCrashed v) c1)
      end
  | WMarkFinal e, ANone =>
      match e with
      | Some m =>
          Some (set_wpc (WFinalUpdate e)
                  (observe [OLogError "Job execution failed"]
                     (mark AtFinal (MarkAsFailed (wall s) m) c)))
      | None =>
          Some (set_wpc (WFinalUpdate e)
                  (mark AtFinal (MarkAsCompleted (wall s)) c))
      end
  | WFinalUpdate e, ARepo res =>
      let c1 := repoUpdate AtFinal "Failed to update final execution status"
                  res c in
      match res with
      | Some u =>
          Some (set_wpc
                  (WSend (Some ("failed to update execution status: " +:+ u)))
                  c1)
      | None => Some (set_wpc (WSend e) c1)
      end
  | WSend r, ANone =>
      match errChan c with
      | None => Some (set_wpc (WDone r) (set_errChan (Some r) c))
      | Some _ => None                 (* a full channel blocks the sender *)
      end
  | _, _ => None
  end.

Inductive Event :=
| EvInvoke (j : Job)                 (* a trigger callback calls ExecuteJob *)
| EvTick (d : Z)                     (* [d] milliseconds pass *)
| EvMain (i : nat) (a : Answer)
| EvWorker (i : nat) (a : Answer)
| EvSetClock (w : Time).             (* the wall clock is set to [w] *)

Definition step (e : Event) (s : Sys) : option Sys :=
  match e with
  | EvInvoke j => Some (invoke j s)
  | EvTick d =>
      if decide (0 < d)
      then Some (set_wall (wall s + d) (set_now (now s + d) s))
      else None
  | EvSetClock w => Some (set_wall w s)
  | EvMain i a =>
      c ← calls s !! i;
      r ← main_step i a s c;
      Some (put i r.2 r.1)
  | EvWorker i a =>
      c ← calls s !! i;
      c' ← worker_step a s c;
      Some (put i c' s)
  end.

Fixpoint run (evs : list Event) (s : Sys) : option Sys :=
  match evs with
  | [] => Some s
  | e :: evs' =>
      match step e s with
      | Some s' => run evs' s'
      | None => None
      end
  end.

(** States the executor built from [cfg] can be in. *)
Definition reachable (cfg : Config) (s : Sys) : Prop :=
  ∃ t0 s0 evs, 0 < t0 ∧ NewJobExecutor cfg t0 = Some s0 ∧ run evs s0 = Some s.

(** [GetRunningJobsCount] and [GetRunningJobs]. *)
Definition GetRunningJobsCount (s : Sys) : nat := size (runningJobs s).

Definition GetRunningJobs (s : Sys) : list JobExecution :=
  omap (λ p, calls s !! p.2 ≫= execution) (map_to_list (runningJobs s)).

Definition GetMaxConcurrentJobs (s : Sys) : Z := maxConcurrentJobs s.

End Executor.

(** ** The scheduler (Start, Stop, AddJob, RemoveJob, reloadJobs) *)
Module Scheduler.

(** How a call ends: it returns, it blocks for ever on [s.mu], or it
    dereferences a pointer that holds no job. *)
Inductive Result (A : Type) :=
| Ret (a : A)
| Deadlock
| NilDeref.
Arguments Ret {A} a.
Arguments Deadlock {A}.
Arguments NilDeref {A}.

Definition bind {A B} (r : Result A) (k : A → Result B) : Result B :=
  match r with
  | Ret a => k a
  | Deadlock => Deadlock
  | NilDeref => NilDeref
  end.

Abbreviation loc := nat.
Abbreviation EntryID := nat.

(** The closure built by [createJobFunction]: it captures the pointer
    [job], not the value behind it. *)
Inductive JobFunc := Closure (job : loc).

Definition createJobFunction (job : loc) : JobFunc := Closure job.

(** The cron engine (robfig/cron v3) as far as the scheduler uses it:
    [AddFunc] numbers the entries from 1 and refuses a spec that does not
    parse, [Remove] drops the entry with the given id. *)
Record Entry := mkEntry {
  entryID : EntryID;
  entrySpec : string;
  entryFunc : JobFunc
}.

Record Cron := mkCron {
  entries : list Entry;
  nextID : EntryID;
  cronRunning : bool
}.

Definition cronNew : Cron := mkCron [] 0%nat false.

Definition cronRemove (id : EntryID) (c : Cron) : Cron :=
  mkCron (filter (λ e, entryID e ≠ id) (entries c)) (nextID c) (cronRunning c).

Definition cronStart (c : Cron) : Cron := mkCron (entries c) (nextID c) true.
Definition cronStop (c : Cron) : Cron := mkCron (entries c) (nextID c) false.

Definition reloadPeriod : Z := 5 * 60 * 1000.

Record Sched := mkSched {
  cron : Cron;
  scheduledJobs : gmap string EntryID;   (* job_id -> cron entry id *)
  isRunning : bool;
  ctxCancelled : bool;                   (* s.ctx of NewScheduler *)
  muHeld : bool;                         (* s.mu is write-locked *)
  reloaders : list Time;                 (* live reloadJobsPeriodically
                                            goroutines: next tick of each *)
  heap : gmap loc Job;                   (* the values behind *models.Job *)
  nextLoc : loc;
  reloadCount : nat;                     (* reloadJobs calls so far *)
  clock : Time;
  executor : Executor.Sys
}.

Definition set_cron (c : Cron) (s : Sched) : Sched :=
  mkSched c (scheduledJobs s) (isRunning s) (ctxCancelled s) (muHeld s)
          (reloaders s) (heap s) (nextLoc s) (reloadCount s) (clock s)
          (executor s).
Definition set_scheduledJobs (m : gmap string EntryID) (s : Sched) : Sched :=
  mkSched (cron s) m (isRunning s) (ctxCancelled s) (muHeld s)
          (reloaders s) (heap s) (nextLoc s) (reloadCount s) (clock s)
          (executor s).
Definition set_isRunning (b : bool) (s : Sched) : Sched :=
  mkSched (cron s) (scheduledJobs s) b (ctxCancelled s) (muHeld s)
          (reloaders s) (heap s) (nextLoc s) (reloadCount s) (clock s)
          (executor s).
Definition set_ctxCancelled (b : bool) (s : Sched) : Sched :=
  mkSched (cron s) (scheduledJobs s) (isRunning s) b (muHeld s)
          (reloaders s) (heap s) (nextLoc s) (reloadCount s) (clock s)
          (executor s).
Definition set_muHeld (b : bool) (s : Sched) : Sched :=
  mkSched (cron s) (scheduledJobs s) (isRunning s) (ctxCancelled s) b
          (reloaders s) (heap s) (nextLoc s) (reloadCount s) (clock s)
          (executor s).
Definition set_reloaders (l : list Time) (s : Sched) : Sched :=
  mkSched (cron s) (scheduledJobs s) (isRunning s) (ctxCancelled s) (muHeld s)
          l (heap s) (nextLoc s) (reloadCount s) (clock s) (executor s).
Definition set_heap (h : gmap loc Job) (n : loc) (s : Sched) : Sched :=
  mkSched (cron s) (scheduledJobs s) (isRunning s) (ctxCancelled s) (muHeld s)
          (reloaders s) h n (reloadCount s) (clock s) (executor s).
Definition set_reloadCount (n : nat) (s : Sched) : Sched :=
  mkSched (cron s) (scheduledJobs s) (isRunning s) (ctxCancelled s) (muHeld s)
          (reloaders s) (heap s) (nextLoc s) n (clock s) (executor s).
Definition set_clock (t : Time) (s : Sched) : Sched :=
  mkSched (cron s) (scheduledJobs s) (isRunning s) (ctxCancelled s) (muHeld s)
          (reloaders s) (heap s) (nextLoc s) (reloadCount s) t (executor s).
Definition set_executor (e : Executor.Sys) (s : Sched) : Sched :=
  mkSched (cron s) (scheduledJobs s) (isRunning s) (ctxCancelled s) (muHeld s)
          (reloaders s) (heap s) (nextLoc s) (reloadCount s) (clock s) e.

(** The zero value of [models.Job]. *)
Definition zeroJob : Job :=
  mkJob "00000000-0000-0000-0000-000000000000" "" "" "" "" [] false.

(** A new variable holding [j]; its address is returned. *)
Definition alloc (j : Job) (s : Sched) : loc * Sched :=
  (nextLoc s, set_heap (<[nextLoc s := j]> (heap s)) (S (nextLoc s)) s).

(** [*p = j]. *)
Definition assign (p : loc) (j : Job) (s : Sched) : Sched :=
  set_heap (<[p := j]> (heap s)) (nextLoc s) s.

Section Engine.

(** [cron.Parser.Parse] of the standard five-field parser: [None] when
    the spec is accepted, the error otherwise. *)
Variable parseStandard : string → GoError.

(** Whether [for _, job := range jobs] has one variable [job] per
    iteration (Go 1.22 and later) or one for the whole loop. *)
Variable loopVarPerIteration : bool.

Definition cronAddFunc (spec : string) (f : JobFunc) (c : Cron)
  : EntryID * GoError * Cron :=
  match parseStandard spec with
  | Some err => (0%nat, Some err, c)
  | None =>
      let id := S (nextID c) in
      (id, None, mkCron (entries c ++ [mkEntry id spec f]) id (cronRunning c))
  end.

Definition NewScheduler (cfg : Executor.Config) (t0 : Time) : option Sched :=
  ex ← Executor.NewJobExecutor cfg t0;
  Some (mkSched cronNew ∅ false false false [] ∅ 0%nat 0%nat t0 ex).

(** "Remove existing job if it exists". *)
Definition removeExisting (id : string) (s : Sched) : Sched :=
  match scheduledJobs s !! id with
  | Some entryID =>
      set_scheduledJobs (delete id (scheduledJobs s))
        (set_cron (cronRemove entryID (cron s)) s)
  | None => s
  end.

(** The body of [AddJob] between [s.mu.Lock()] and the deferred
    [s.mu.Unlock()]. *)
Definition addJobLocked (p : loc) (s : Sched) : Result (GoError * Sched) :=
  match heap s !! p with
  | None => NilDeref
  | Some job =>
      if negb (IsActive job) then Ret (None, s)
      else
        let s1 := removeExisting (ID job) s in
        let jobFunc := createJobFunction p in
        match cronAddFunc (Schedule job) jobFunc (cron s1) with
        | (_, Some err, _) =>
            Ret (Some ("failed to add job to scheduler: " +:+ err), s1)
        | (entryID, None, c') =>
            Ret (None, set_scheduledJobs (<[ID job := entryID]> (scheduledJobs s1))
                         (set_cron c' s1))
        end
  end.

Definition AddJob (p : loc) (s : Sched) : Result (GoError * Sched) :=
  if muHeld s then Deadlock else addJobLocked p s.

Definition RemoveJob (jobID : string) (s : Sched) : Result Sched :=
  if muHeld s then Deadlock else Ret (removeExisting jobID s).

Definition GetScheduledJobsCount (s : Sched) : nat := size (scheduledJobs s).
Definition IsRunning (s : Sched) : bool := isRunning s.

(** The variable [job] of one iteration of a range loop. *)
Definition loopVar (shared : loc) (j : Job) (s : Sched) : loc * Sched :=
  if loopVarPerIteration then alloc j s else (shared, assign shared j s).

(** [for _, job := range jobs { s.AddJob(&job) ... continue }]. *)
Fixpoint loadLoop (shared : loc) (jobs : list Job) (s : Sched) : Result Sched :=
  match jobs with
  | [] => Ret s
  | j :: rest =>
      let '(p, s1) := loopVar shared j s in
      bind (AddJob p s1) (λ r, loadLoop shared rest r.2)
  end.

(** [loadActiveJobs], given the answer of [GetActiveJobs]. *)
Definition loadActiveJobs (answer : list Job + string) (s : Sched)
  : Result (GoError * Sched) :=
  match answer with
  | inr err => Ret (Some ("failed to get active jobs: " +:+ err), s)
  | inl jobs =>
      let '(shared, s1) :=
        if loopVarPerIteration then (nextLoc s, s)
        else alloc zeroJob s in
      bind (loadLoop shared jobs s1) (λ s2, Ret (None, s2))
  end.

Definition Start (answer : list Job + string) (s : Sched)
  : Result (GoError * Sched) :=
  if muHeld s then Deadlock
  else
    let s0 := set_muHeld true s in
    if isRunning s0 then Ret (Some "scheduler is already running", s)
    else
      bind (loadActiveJobs answer s0) (λ r,
        match r with
        | (Some err, s1) =>
            Ret (Some ("failed to load active jobs: " +:+ err),
                 set_muHeld false s1)
        | (None, s1) =>
            Ret (None,
                 set_muHeld false
                   (set_reloaders (reloaders s1 ++ [clock s1 + reloadPeriod])
                      (set_isRunning true
                         (set_cron (cronStart (cron s1)) s1))))
        end).

(** [Stop]. [s.wg.Wait()] returns once every reloader has taken the
    [ctx.Done()] case of its select; a reloader whose tick is due and
    that takes the tick instead ([tickFirst]) calls [reloadJobs], which
    waits for [s.mu] while [Stop] holds it. *)
Definition Stop (tickFirst : bool) (s : Sched) : Result (GoError * Sched) :=
  if muHeld s then Deadlock
  else if negb (isRunning s) then Ret (None, s)
  else
    let s1 := set_cron (cronStop (cron s)) (set_ctxCancelled true s) in
    if tickFirst && bool_decide (Exists (λ t, t ≤ clock s) (reloaders s))
    then Deadlock
    else Ret (None, set_isRunning false (set_reloaders [] s1)).

(** Second loop of [reloadJobs]: "Add or update jobs". *)
Fixpoint reloadLoop (shared : loc) (jobs : list Job) (s : Sched) : Sched :=
  match jobs with
  | [] => s
  | j :: rest =>
      let '(p, s1) := loopVar shared j s in
      if IsActive j then
        let s2 := removeExisting (ID j) s1 in
        match cronAddFunc (Schedule j) (createJobFunction p) (cron s2) with
        | (_, Some _, _) => reloadLoop shared rest s2
        | (entryID, None, c') =>
            reloadLoop shared rest
              (set_scheduledJobs (<[ID j := entryID]> (scheduledJobs s2))
                 (set_cron c' s2))
        end
      else reloadLoop shared rest s1
  end.

(** First loops of [reloadJobs]: the identifiers of the fetched jobs
    (the pointers stored in [currentJobs] are never read), and the
    removal of every scheduled identifier that is not among them. *)
Definition removeStale (jobs : list Job) (s : Sched) : Sched :=
  let current : gset string := list_to_set (ID <$> jobs) in
  let stale := filter (λ kv, kv.1 ∉ current) (scheduledJobs s) in
  set_scheduledJobs (filter (λ kv, kv.1 ∈ current) (scheduledJobs s))
    (set_cron (mkCron (filter (λ e, entryID e ∉ (map_to_list stale).*2)
                              (entries (cron s)))
                      (nextID (cron s)) (cronRunning (cron s))) s).

Definition reloadJobs (answer : list Job + string) (s : Sched)
  : Result (GoError * Sched) :=
  let s := set_reloadCount (S (reloadCount s)) s in
  match answer with
  | inr err => Ret (Some ("failed to get active jobs: " +:+ err), s)
  | inl jobs =>
      if muHeld s then Deadlock
      else
        let s1 := removeStale jobs s in
        let '(shared, s2) :=
          if loopVarPerIteration then (nextLoc s1, s1)
          else alloc zeroJob s1 in
        Ret (None, reloadLoop shared jobs s2)
  end.

(** One pass of the [select] of reloader [k] in
    [reloadJobsPeriodically]: it takes [ctx.Done()] and exits, or takes
    a tick that is due and reloads. [None]: the chosen case is not
    ready. *)
Definition reloaderSelect (k : nat) (takeTick : bool)
    (answer : list Job + string) (s : Sched) : option (Result Sched) :=
  match reloaders s !! k with
  | None => None
  | Some tick =>
      if takeTick then
        if bool_decide (tick ≤ clock s) then
          Some (bind (reloadJobs answer s) (λ r,
                  Ret (set_reloaders (<[k := tick + reloadPeriod]> (reloaders r.2)) r.2)))
        else None
      else
        if ctxCancelled s then
          Some (Ret (set_reloaders (delete k (reloaders s)) s))
        else None
  end.

(** The cron engine fires entry [id]: the callback copies [*job] and
    calls [ExecuteJob(&jobCopy)]. The result is the copy. *)
Definition fire (id : EntryID) (s : Sched) : option (Result (Job * Sched)) :=
  if cronRunning (cron s) then
    match filter (λ e, entryID e = id) (entries (cron s)) with
    | e :: _ =>
        Some (match entryFunc e with
              | Closure p =>
                  match heap s !! p with
                  | None => NilDeref
                  | Some jobCopy =>
                      Ret (jobCopy,
                           set_executor (Executor.invoke jobCopy (executor s)) s)
                  end
              end)
    | [] => None
    end
  else None.

End Engine.

End Scheduler.

(** * The executor: what a call has done, and its invariants *)
Import Executor.

(** A property of single calls that every step of a call preserves holds
    of every call of every state reached. *)
Definition all_calls (I : Call → Prop) (s : Sys) : Prop :=
  ∀ i c, calls s !! i = Some c → I c.

(** The observations selected by [f], most recent first. *)
Fixpoint pick {A} (f : Obs → option A) (tr : list Obs) : list A :=
  match tr with
  | [] => []
  | o :: tr' =>
      match f o with
      | Some a => a :: pick f tr'
      | None => pick f tr'
      end
  end.

Definition creates (c : Call) : list GoError :=
  pick (λ o, match o with ORepoCreate r => Some r | _ => None end) (trace c).

Definition execs (c : Call) : list ExecResult :=
  pick (λ o, match o with OExecute r => Some r | _ => None end) (trace c).

(** Status writes, most recent first. *)
Definition marks (c : Call) : list (Site * ExecutionStatus * option string) :=
  pick (λ o, match o with OMark site st m => Some (site, st, m) | _ => None end)
       (trace c).

Definition lastMark (c : Call) : option (ExecutionStatus * option string) :=
  head (pick (λ o, match o with OMark _ st m => Some (st, m) | _ => None end)
             (trace c)).

(** Writes by executeJobWithContext and writes by the timeout branch. *)
Definition workerMarks (c : Call)
  : list (Site * ExecutionStatus * option string) :=
  pick (λ o, match o with
             | OMark AtTimeout _ _ => None
             | OMark site st m => Some (site, st, m)
             | _ => None
             end) (trace c).

Definition timeoutMarks (c : Call) : list (ExecutionStatus * option string) :=
  pick (λ o, match o with OMark AtTimeout st m => Some (st, m) | _ => None end)
       (trace c).

Definition runningUpdates (c : Call) : list GoError :=
  pick (λ o, match o with ORepoUpdate AtRunning _ res => Some res | _ => None end)
       (trace c).

Definition finalUpdates (c : Call) : list GoError :=
  pick (λ o, match o with ORepoUpdate AtFinal _ res => Some res | _ => None end)
       (trace c).

Definition finalStatus (e : GoError) : ExecutionStatus :=
  match e with
  | Some _ => ExecutionStatusFailed
  | None => ExecutionStatusCompleted
  end.

(** The value executeJobWithContext returns after the final update. *)
Definition finalResult (res e : GoError) : GoError :=
  match res with
  | Some u => Some ("failed to update execution status: " +:+ u)
  | None => e
  end.

(** [executionErr] is what the guarded call of the capability left, or
    [ctx.Err()] when the capability was not called. *)
Definition guarded (c : Call) (e : GoError) : Prop :=
  match execs c with
  | [] => is_Some e
  | [x] => protectedExecute x = Normal e
  | _ => False
  end.

Definition runningOnly (c : Call) : Prop :=
  ∃ m0, workerMarks c = [(AtRunning, ExecutionStatusRunning, m0)].

Definition finalMarked (c : Call) (e : GoError) : Prop :=
  ∃ m1 m0,
    workerMarks c = [(AtFinal, finalStatus e, m1);
                     (AtRunning, ExecutionStatusRunning, m0)]
    ∧ ∀ m, e = Some m → m1 = Some m.

Definition unknownMarked (c : Call) (err : string) : Prop :=
  ∃ m0,
    workerMarks c = [(AtUnknownKind, ExecutionStatusFailed, Some err);
                     (AtRunning, ExecutionStatusRunning, m0)].

(** executeJobWithContext has returned [r]. *)
Definition sent (c : Call) (r : GoError) : Prop :=
  (∃ err, unknownMarked c err ∧ execs c = [] ∧ finalUpdates c = []
          ∧ r = Some err)
  ∨ (∃ e res, finalMarked c e ∧ guarded c e ∧ finalUpdates c = [res]
              ∧ r = finalResult res e).

Definition worker_ok (c : Call) : Prop :=
  match wpc c with
  | WIdle | WMarkRunning =>
      workerMarks c = [] ∧ execs c = [] ∧ finalUpdates c = []
  | WUpdateRunning | WLookup | WCheckCtx _ | WExecute _ =>
      runningOnly c ∧ execs c = [] ∧ finalUpdates c = []
  | WUnknownUpdate err =>
      unknownMarked c err ∧ execs c = [] ∧ finalUpdates c = []
  | WMarkFinal e => runningOnly c ∧ guarded c e ∧ finalUpdates c = []
  | WFinalUpdate e => finalMarked c e ∧ guarded c e ∧ finalUpdates c = []
  | WSend r | WDone r => sent c r
  | WCrashed _ => False
  end.

Definition fullDefers : list Deferred := [DCancel; DUntrack; DRelease].

Definition defers_ok (c : Call) : Prop :=
  defers c = [] ∨ defers c = [DRelease] ∨ defers c = [DUntrack; DRelease]
  ∨ defers c = fullDefers.

Definition timeoutMark : ExecutionStatus * option string :=
  (ExecutionStatusFailed, Some timeoutMessage).

(** The four ways ExecuteJob returns [r]: rejected at the semaphore, create
    failed, result received from the worker, deadline passed. *)
Definition rejected (r : GoError) (c : Call) : Prop :=
  execution c = None ∧ wpc c = WIdle ∧ is_Some r ∧ defers c = []
  ∧ trace c = [OLogWarn "Job execution skipped - maximum concurrent jobs reached"].

Definition createFailed (r : GoError) (c : Call) : Prop :=
  ∃ e, r = Some ("failed to create execution record: " +:+ e)
       ∧ trace c = [OLogError "Failed to create job execution record";
                    ORepoCreate (Some e)]
       ∧ wpc c = WIdle ∧ is_Some (execution c)
       ∧ (defers c = [] ∨ defers c = [DRelease]).

Definition received (r : GoError) (c : Call) : Prop :=
  creates c = [None] ∧ timeoutMarks c = [] ∧ wpc c = WDone r
  ∧ errChan c = None ∧ is_Some (execution c).

Definition timedOut (r : GoError) (c : Call) : Prop :=
  creates c = [None] ∧ timeoutMarks c = [timeoutMark] ∧ r = Some timeoutError
  ∧ wpc c ≠ WIdle ∧ is_Some (execution c).

Definition exited (r : GoError) (c : Call) : Prop :=
  rejected r c ∨ createFailed r c ∨ received r c ∨ timedOut r c.

Definition main_ok (c : Call) : Prop :=
  match mpc c with
  | MSelectSemaphore =>
      defers c = [] ∧ execution c = None ∧ trace c = [] ∧ wpc c = WIdle
  | MNewExecution =>
      defers c = [DRelease] ∧ execution c = None ∧ trace c = [] ∧ wpc c = WIdle
  | MCreate =>
      defers c = [DRelease] ∧ is_Some (execution c) ∧ trace c = []
      ∧ wpc c = WIdle
  | MTrack =>
      defers c = [DRelease] ∧ is_Some (execution c)
      ∧ trace c = [ORepoCreate None] ∧ wpc c = WIdle
  | MSpawn =>
      defers c = [DUntrack; DRelease] ∧ is_Some (execution c)
      ∧ trace c = [ORepoCreate None] ∧ wpc c = WIdle
  | MWait =>
      defers c = fullDefers ∧ is_Some (execution c) ∧ creates c = [None]
      ∧ timeoutMarks c = [] ∧ wpc c ≠ WIdle
      ∧ ∀ r, wpc c = WDone r → errChan c = Some r
  | MTimeoutUpdate =>
      defers c = fullDefers ∧ is_Some (execution c) ∧ creates c = [None]
      ∧ timeoutMarks c = [timeoutMark] ∧ wpc c ≠ WIdle
  | MReturning r => defers c ≠ [] ∧ defers_ok c ∧ exited r c
  | MReturned r => defers c = [] ∧ exited r c
  end.

Definition chan_ok (c : Call) : Prop :=
  ∀ r, errChan c = Some r → wpc c = WDone r.

(** The record shows the most recent write. *)
Definition status_ok (c : Call) : Prop :=
  ∀ je, execution c = Some je →
        (Status je, ErrorMessage je)
        = default (ExecutionStatusPending, None) (lastMark c).

Record call_ok (c : Call) : Prop := mkCallOk {
  ok_main : main_ok c;
  ok_worker : worker_ok c;
  ok_chan : chan_ok c;
  ok_status : status_ok c
}.

Ltac step_split H :=
  repeat match type of H with
         | context [match ?x with _ => _ end] => destruct x eqn:?
         end; simplify_eq/=.

Ltac unfold_queries :=
  unfold timeoutMark, exited, rejected, createFailed, received, timedOut, defers_ok, 
    sent, guarded, runningOnly, finalMarked, unknownMarked,
    creates, execs, marks, lastMark, workerMarks, timeoutMarks,
    finalUpdates, runningUpdates in *.

Ltac unfold_setters :=
  unfold returning, mark, repoUpdate, observe, push_defer, set_mpc, set_wpc,
    set_execution, set_defers, set_deadline, set_cancelledAt, set_errChan,
    currentStatus, logIfFailed in *.

Ltac open_some :=
  repeat match goal with
         | H : is_Some _ |- _ => destruct H as [? ?]
         end; simplify_eq/=.

Ltac finish_ok :=
  unfold_setters; simpl;
  split; unfold main_ok, worker_ok, chan_ok, status_ok in *;
  unfold_queries; simpl in *; try done; try (by naive_solver);
  try (by (split_and?; first [done | by eauto | congruence])).

Ltac break_hyps :=
  repeat match goal with
         | H : _ ∧ _ |- _ => destruct H
         | H : ∃ _, _ |- _ => destruct H
         | H : _ ∨ _ |- _ => destruct H
         | H : is_Some _ |- _ => destruct H
         | H : False |- _ => destruct H
         | H : match ?l with [] => _ | _ :: _ => _ end |- _ =>
             destruct l as [|? [|? ?]] eqn:?
         end; simplify_eq/=.

Ltac use_picks :=
  repeat match goal with
         | H : pick _ _ = _ |- _ => rewrite H
         end.

Ltac solve_atom :=
  first [ done | congruence | by eauto
        | by (intros; simplify_eq/=; eauto)
        | by (let Hch := fresh in intros ? Hch;
              match goal with HC : context [WDone] |- _ => apply HC in Hch end;
              simplify_eq/=) ].

Ltac solve_conj :=
  simpl; use_picks; simpl;
  repeat (first [ split | eexists ]); solve_atom.

Ltac close_ok :=
  first [ solve [solve_conj]
        | left; solve [solve_conj]
        | right; solve [solve_conj] ].






(** Fields no step writes. *)
Definition static (s : Sys) : gmap JobType Capability * nat * Z :=
  (executors s, capacity s, maxConcurrentJobs s).

(** The call went through the "no executor found" branch. *)
Definition tookUnknownKindBranch (c : Call) : Prop :=
  ∃ st m, OMark AtUnknownKind st m ∈ trace c.

Definition kind_ok (c : Call) : Prop :=
  (tookUnknownKindBranch c ∨ ∃ err, wpc c = WUnknownUpdate err) →
  IsValidJobType (JobType_ (job c)) = false.

(** The call holds a permit / has an entry in the Run Tracker to remove. *)
Definition holding (c : Call) : bool := bool_decide (DRelease ∈ defers c).
Definition tracked (c : Call) : bool := bool_decide (DUntrack ∈ defers c).

Fixpoint countIf (P : Call → bool) (l : list Call) : nat :=
  match l with
  | [] => 0
  | c :: l' => ((if P c then 1 else 0) + countIf P l')%nat
  end.

(** The shared state agrees with the calls in flight. *)
Record sys_ok (s : Sys) : Prop := mkSysOk {
  ok_calls : all_calls call_ok s;
  ok_held : held s = countIf holding (calls s);
  ok_cap : (held s ≤ capacity s)%nat;
  ok_tracker :
    ∀ id p, runningJobs s !! id = Some p →
            ∃ c, calls s !! p = Some c ∧ tracked c = true ∧ executionID c = id
}.

(** ** Sample runs *)

(** The state reached from a fresh executor by a list of events. *)
Definition runFrom (cfg : Config) (t0 : Time) (evs : list Event) : option Sys :=
  NewJobExecutor cfg t0 ≫= run evs.

Definition sampleConfig : Config := mkConfig 1 "./reports" 30000.

Definition healthJob : Job :=
  mkJob "0b9d6a52-7c1e-4a55-9a3e-3f2f6d1c8a01" "nightly-health" ""
        "0 9 * * *" JobTypeHealthCheck [] true.

Definition legacyJob : Job :=
  mkJob "0b9d6a52-7c1e-4a55-9a3e-3f2f6d1c8a02" "legacy-export" ""
        "*/5 * * * *" "csv_export" [] true.

(** Call [i] passes the semaphore, creates its record and starts its worker. *)
Definition admitEvents (i : nat) (id : UUID) (create : GoError) : list Event :=
  [EvMain i ANone; EvMain i (AUuid id); EvMain i (ARepo create);
   EvMain i ANone; EvMain i ANone].

(** The worker of call [i] up to the call of the capability. *)
Definition workerStartEvents (i : nat) (update : GoError) : list Event :=
  [EvWorker i ANone; EvWorker i (ARepo update); EvWorker i ANone;
   EvWorker i ANone].

(** The capability answers [r]; the worker marks, saves and sends. *)
Definition workerFinishEvents (i : nat) (r : ExecResult) (update : GoError)
  : list Event :=
  [EvWorker i (AExec r); EvWorker i ANone; EvWorker i (ARepo update);
   EvWorker i ANone].

(** ExecuteJob takes the worker's result and runs its deferred calls. *)
Definition receiveEvents (i : nat) : list Event :=
  [EvMain i APickResult; EvMain i ANone; EvMain i ANone; EvMain i ANone].

(** ExecuteJob takes the deadline instead. *)
Definition timeoutEvents (i : nat) (update : GoError) : list Event :=
  [EvMain i APickTimeout; EvMain i (ARepo update);
   EvMain i ANone; EvMain i ANone; EvMain i ANone].

(** Two firings at capacity 1: the first is admitted, the second arrives
    while the permit is held. *)
Definition burstEvents : list Event :=
  [EvInvoke healthJob; EvInvoke healthJob] ++ admitEvents 0 "e-0001" None.

(** A job of an undeclared kind reaches the lookup of its capability. *)
Definition unknownKindEvents : list Event :=
  [EvInvoke legacyJob] ++ admitEvents 0 "e-0001" None
  ++ [EvWorker 0 ANone; EvWorker 0 (ARepo None); EvWorker 0 ANone].


(** The capability panics with nil, and recover() returns nil: the run of
    a job whose Execute calls [panic(nil)], built for Go before 1.21. *)
Definition nilPanicEvents : list Event :=
  [EvInvoke healthJob] ++ admitEvents 0 "e-0001" None
  ++ workerStartEvents 0 None
  ++ workerFinishEvents 0 (Panicked None) None
  ++ receiveEvents 0.


(** The job succeeds; the store refuses the update to running and the
    final update. *)
Definition updatesFailEvents : list Event :=
  [EvInvoke healthJob] ++ admitEvents 0 "e-0001" None
  ++ workerStartEvents 0 (Some "connection refused")
  ++ workerFinishEvents 0 (Returned None) (Some "connection refused")
  ++ receiveEvents 0.

(** The capability is still running when the deadline passes; it succeeds
    afterwards. *)
Definition lateSuccessEvents : list Event :=
  [EvInvoke healthJob] ++ admitEvents 0 "e-0001" None
  ++ workerStartEvents 0 None
  ++ [EvTick jobTimeout] ++ timeoutEvents 0 None.

Definition lateSuccessEvents' : list Event :=
  lateSuccessEvents ++ workerFinishEvents 0 (Returned None) None.

(** The state and the calls a sample run ends in. *)
Definition stateAfter (cfg : Config) (t0 : Time) (evs : list Event) : Sys :=
  default (mkSys 0 0 0 ∅ ∅ 0 0 []) (runFrom cfg t0 evs).

Definition callAfter (cfg : Config) (t0 : Time) (evs : list Event) (i : nat)
  : Call :=
  default (newCall healthJob) (calls (stateAfter cfg t0 evs) !! i).

(** ** Driving one call to its end *)

(** Answers of the outside world. *)
Record Oracle := mkOracle {
  freshID : UUID;
  createAnswer : GoError;
  updateAnswer : Site → GoError;
  executeAnswer : ExecResult
}.




(** A call that has returned and whose worker is not running takes no
    further step. *)
Definition finished (c : Call) : Prop :=
  (∃ r, mpc c = MReturned r) ∧ (wpc c = WIdle ∨ ∃ r, wpc c = WDone r).


(** A store that accepts every write, and one whose updates all fail. *)
Definition healthyStore : Oracle :=
  mkOracle "e-0009" None (λ _, None) (Returned None).



(** * The scheduler: the Trigger Table, its operations and its invariants *)
Import Scheduler.

(** The cron entries registered for job identifier [id]: those the
    scheduled-jobs map points to under [id]. *)
Definition registrations (id : string) (s : Sched) : list Entry :=
  filter (λ e, scheduledJobs s !! id = Some (entryID e)) (entries (cron s)).

Definition entryIDs (s : Sched) : list EntryID := entryID <$> entries (cron s).

(** The scheduled-jobs map and the entries of the cron engine describe
    the same registrations: entry ids are distinct and not beyond the
    engine's counter, every key points to a live entry, every entry is
    pointed to, and no two keys share an entry. *)
Record table_ok (s : Sched) : Prop := mkTableOk {
  ok_nodup : NoDup (entryIDs s);
  ok_fresh : ∀ eid, eid ∈ entryIDs s → (eid ≤ nextID (cron s))%nat;
  ok_live : ∀ id eid, scheduledJobs s !! id = Some eid → eid ∈ entryIDs s;
  ok_owned : ∀ eid, eid ∈ entryIDs s → ∃ id, scheduledJobs s !! id = Some eid;
  ok_inj : ∀ id1 id2 eid,
      scheduledJobs s !! id1 = Some eid → scheduledJobs s !! id2 = Some eid →
      id1 = id2
}.

(** The pointer captured by the callback of entry [e]. *)
Definition captured (e : Entry) : loc :=
  match entryFunc e with Closure p => p end.

(** Every callback captured the address of a job variable. *)
Definition closures_ok (s : Sched) : Prop :=
  ∀ e, e ∈ entries (cron s) → is_Some (heap s !! captured e).

(** What the scheduler's callers and goroutines do. *)
Inductive Op :=
| OpNewJob (j : Job)                    (* a caller makes a job variable *)
| OpWrite (p : loc) (j : Job)           (* a caller writes [*p = j] *)
| OpAddJob (p : loc)
| OpRemoveJob (id : string)
| OpStart (answer : list Job + string)
| OpStop (tickFirst : bool)
| OpTick (d : Z)                        (* time passes *)
| OpReloader (k : nat) (takeTick : bool) (answer : list Job + string)
| OpFire (id : EntryID).

Definition returned {A} (r : Result A) : option A :=
  match r with
  | Ret a => Some a
  | _ => None
  end.

Section Operations.

Variable parseStandard : string → GoError.
Variable loopVarPerIteration : bool.

(** The state after [op] has returned; [None] when [op] never returns or
    is not enabled. *)
Definition apply (op : Op) (s : Sched) : option Sched :=
  match op with
  | OpNewJob j => Some (alloc j s).2
  | OpWrite p j =>
      match heap s !! p with
      | Some _ => Some (assign p j s)
      | None => None
      end
  | OpAddJob p => snd <$> returned (AddJob parseStandard p s)
  | OpRemoveJob id => returned (RemoveJob id s)
  | OpStart answer =>
      snd <$> returned (Start parseStandard loopVarPerIteration answer s)
  | OpStop tickFirst => snd <$> returned (Stop tickFirst s)
  | OpTick d => if decide (0 ≤ d) then Some (set_clock (clock s + d) s) else None
  | OpReloader k takeTick answer =>
      reloaderSelect parseStandard loopVarPerIteration k takeTick answer s
        ≫= returned
  | OpFire id => snd <$> (fire id s ≫= returned)
  end.

Fixpoint applyAll (ops : list Op) (s : Sched) : option Sched :=
  match ops with
  | [] => Some s
  | op :: ops' => apply op s ≫= applyAll ops'
  end.

Definition scheduled (cfg : Executor.Config) (s : Sched) : Prop :=
  ∃ t0 s0 ops, NewScheduler cfg t0 = Some s0 ∧ applyAll ops s0 = Some s.

End Operations.

(** A parser for sample runs: it accepts a spec of five fields separated
    by single blanks and answers the engine's field-count error otherwise
    (the engine checks the ranges of the fields as well). *)
Fixpoint countBlanks (spec : string) : nat :=
  match spec with
  | EmptyString => 0
  | String a rest =>
      ((if Ascii.eqb a Ascii.Space then 1 else 0) + countBlanks rest)%nat
  end.

Definition fiveFields (spec : string) : GoError :=
  if decide (countBlanks spec = 4%nat) then None
  else Some ("expected exactly 5 fields, found "
             +:+ pretty (S (countBlanks spec)) +:+ ": [" +:+ spec +:+ "]").

Definition sampleScheduler : Sched :=
  default (mkSched cronNew ∅ false false false [] ∅ 0%nat 0%nat 0
             (Executor.mkSys 0 0 0 ∅ ∅ 0 0 []))
          (NewScheduler sampleConfig 1000).

Definition stateAfterOps (perIteration : bool) (ops : list Op) : Sched :=
  default sampleScheduler (applyAll fiveFields perIteration ops sampleScheduler).

Definition reportJob : Job :=
  mkJob "0b9d6a52-7c1e-4a55-9a3e-3f2f6d1c8a03" "weekly-report" ""
        "0 6 * * 1" "report_generation" [] true.

(** [healthJob] with a rule that does not parse. *)
Definition brokenHealthJob : Job :=
  mkJob (ID healthJob) (Name healthJob) "" "every day" "health_check" [] true.

(** The state after [cron.AddFunc(spec, createJobFunction(p))] accepted the
    spec and the new entry was stored under [id]. *)
Definition registered (id spec : string) (p : loc) (s : Sched) : Sched :=
  let eid := S (nextID (cron s)) in
  set_scheduledJobs (<[id := eid]> (scheduledJobs s))
    (set_cron (mkCron (entries (cron s) ++ [mkEntry eid spec (createJobFunction p)])
                      eid (cronRunning (cron s))) s).

(** The fields that say whether the scheduler runs, who holds its lock and
    what time it is. *)
Definition same_lifecycle (s s' : Sched) : Prop :=
  muHeld s' = muHeld s ∧ isRunning s' = isRunning s
  ∧ ctxCancelled s' = ctxCancelled s ∧ reloaders s' = reloaders s
  ∧ reloadCount s' = reloadCount s ∧ clock s' = clock s
  ∧ cronRunning (cron s') = cronRunning (cron s).


(** What holds of the scheduler between calls of its methods. *)
Record sched_ok (s : Sched) : Prop := mkSchedOk {
  ok_table : table_ok s;
  ok_closures : closures_ok s;
  ok_unlocked : muHeld s = false;
  ok_cron : cronRunning (cron s) = isRunning s;
  ok_stopped : isRunning s = false → reloaders s = [];
  ok_reloader : isRunning s = true → (length (reloaders s) ≤ 1)%nat;
  ok_alive :
    isRunning s = true → ctxCancelled s = false → length (reloaders s) = 1%nat
}.

(** The heap of [s'] has every variable of [s]. *)
Definition heap_grows (s s' : Sched) : Prop :=
  ∀ p, is_Some (heap s !! p) → is_Some (heap s' !! p).


(** Sample states: a job variable at address 0 holding [healthJob], before
    and after it is added; the same after [Start] found no job to load. *)
Definition oneJobOps : list Op := [OpNewJob healthJob].
Definition addedOps : list Op := [OpNewJob healthJob; OpAddJob 0%nat].
Definition runningOps : list Op :=
  [OpNewJob healthJob; OpStart (inl []); OpAddJob 0%nat].

(** [healthJob] is scheduled; a second variable, at address 1, holds
    [brokenHealthJob], which has the same identifier. *)
Definition rescheduleOps : list Op :=
  [OpNewJob healthJob; OpAddJob 0%nat; OpNewJob brokenHealthJob].

(** The scheduler was started with nothing to load and five minutes have
    passed; it was started and stopped; it was stopped and started again. *)
Definition tickDueOps : list Op := [OpStart (inl []); OpTick reloadPeriod].
Definition stoppedOps : list Op := [OpStart (inl []); OpStop false].

(** The scheduler runs and a variable at address 0 holds [healthJob]. *)
Definition startedOps : list Op := [OpNewJob healthJob; OpStart (inl [])].

(** The scheduler runs with an empty table. *)
Definition emptyRunningOps : list Op := [OpStart (inl [])].


(** The scheduler was started with nothing to load; five minutes later its
    reload goroutine fetched [healthJob] and [reportJob]. *)
Definition reloadedOps : list Op :=
  [OpStart (inl []); OpTick reloadPeriod;
   OpReloader 0 true (inl [healthJob; reportJob])].

(** The scheduler was started, stopped and started again. *)
Definition restartedOps : list Op :=
  [OpStart (inl []); OpStop false; OpStart (inl [])].

(** The job a firing of entry [id] passes to ExecuteJob. *)
Definition firedJob (id : EntryID) (s : Sched) : option Job :=
  fst <$> (fire id s ≫= returned).

(** * The executor: further properties of a call *)

(** ExecuteJob has returned in call [c]. *)
Definition hasReturned (c : Call) : bool :=
  match mpc c with
  | MReturned _ => true
  | _ => false
  end.

(** The text of the "no executor found" failure of job [j]. *)
Definition noExecutorFound (j : Job) : string :=
  "no executor found for job type: " +:+ JobType_ j.

(** The job succeeds and every write to the store is accepted. *)
Definition successEvents : list Event :=
  [EvInvoke healthJob] ++ admitEvents 0 "e-0001" None
  ++ workerStartEvents 0 None
  ++ workerFinishEvents 0 (Returned None) None
  ++ receiveEvents 0.

(** A job of an undeclared kind runs to its end. *)
Definition unknownKindRunEvents : list Event :=
  unknownKindEvents
  ++ [EvWorker 0 (ARepo None); EvWorker 0 ANone] ++ receiveEvents 0.

Definition zeroCapacity : Config := mkConfig 0 "./reports" 30000.

(** Two firings with no permit to give. *)
Definition zeroCapacityEvents : list Event :=
  [EvInvoke healthJob; EvInvoke legacyJob; EvMain 0 ANone].

(** The worker is past a lookup that found a capability. *)
Definition pastLookup (c : Call) : Prop :=
  (∃ ex, wpc c = WCheckCtx ex ∨ wpc c = WExecute ex)
  ∨ (∃ e, wpc c = WMarkFinal e ∨ wpc c = WFinalUpdate e)
  ∨ (∃ st m, OMark AtFinal st m ∈ trace c).

(** Which branch the lookup took, and what the other branch wrote. *)
Record lookup_ok (c : Call) : Prop := mkLookupOk {
  ok_known : pastLookup c → IsValidJobType (JobType_ (job c)) = true;
  ok_text_pc :
    ∀ err, wpc c = WUnknownUpdate err → err = noExecutorFound (job c);
  ok_text_mark :
    ∀ st m, OMark AtUnknownKind st m ∈ trace c →
            m = Some (noExecutorFound (job c))
}.

(** The call has not got past the semaphore: it has not started, or it was
    rejected with the "maximum concurrent jobs (0) reached" error. *)
Definition neverAdmitted (c : Call) : Prop :=
  c = newCall (job c)
  ∨ (mpc c = MReturned (Some "maximum concurrent jobs (0) reached")
     ∧ execution c = None ∧ wpc c = WIdle ∧ defers c = []
     ∧ trace c = [OLogWarn "Job execution skipped - maximum concurrent jobs reached"]).

(** The context of the call is cancelled only by the deferred [cancel()],
    which runs while ExecuteJob returns. *)
Definition cancel_ok (c : Call) : Prop :=
  cancelledAt c = None ∨ ∃ r, mpc c = MReturning r ∨ mpc c = MReturned r.

(** Call [c] in a state with clock [t], for a worker started at or after
    [t0]: the deadline is at least [jobTimeout] after [t0], and the timeout
    branch has been taken only with the deadline behind. *)
Definition deadline_ok (t0 t : Time) (c : Call) : Prop :=
  t0 ≤ t
  ∧ (mpc c = MSpawn
     ∨ ∃ d, deadline c = Some d ∧ t0 + jobTimeout ≤ d
            ∧ (timeoutMarks c ≠ [] → d ≤ t)).

(** The deadline passes while the capability runs (without the return of
    ExecuteJob). *)
Definition deadlinePassesEvents : list Event :=
  [EvInvoke healthJob] ++ admitEvents 0 "e-0001" None
  ++ workerStartEvents 0 None
  ++ [EvTick jobTimeout; EvMain 0 APickTimeout].

(** The first four steps of a call: it stands before [go func()]. *)
Definition beforeSpawnEvents : list Event :=
  [EvInvoke healthJob; EvMain 0 ANone; EvMain 0 (AUuid "e-0001");
   EvMain 0 (ARepo None); EvMain 0 ANone].

(** The rest of [deadlinePassesEvents]. *)
Definition afterSpawnEvents : list Event :=
  [EvMain 0 ANone] ++ workerStartEvents 0 None
  ++ [EvTick jobTimeout; EvMain 0 APickTimeout].

(** The timestamps of the record of call [c], as long as the timeout
    branch has not written to it: nothing before the worker's first write,
    no completion time after it, and after the worker's second write a
    completion time and, unless the start time is the zero time, the time
    between the two as the duration. *)
Definition times_ok (c : Call) : Prop :=
  timeoutMarks c = [] →
  ∀ je, execution c = Some je →
    match workerMarks c with
    | [] =>
        StartedAt je = 0 ∧ CompletedAt je = None ∧ ExecutionDuration je = None
    | [_] => CompletedAt je = None ∧ ExecutionDuration je = None
    | _ =>
        ∃ tc, CompletedAt je = Some tc
              ∧ ExecutionDuration je
                = if IsZero (StartedAt je) then None
                  else Some (tc - StartedAt je)
    end.

(** The same timestamps against the wall clock [t], for a run in which
    the wall clock only moved with the time that passed. *)
Definition order_ok (t : Time) (c : Call) : Prop :=
  timeoutMarks c = [] →
  ∀ je, execution c = Some je →
    match workerMarks c with
    | [] => True
    | [_] => 0 < StartedAt je ≤ t
    | _ => ∃ tc, CompletedAt je = Some tc ∧ 0 < StartedAt je ≤ tc ∧ tc ≤ t
    end.

(** No event of the run sets the wall clock. *)
Definition steady (evs : list Event) : bool :=
  forallb (λ e, match e with EvSetClock _ => false | _ => true end) evs.

(** The job succeeds; between the write of running and the write of
    completed the wall clock is set back by 600 ms. *)
Definition clockSetBackEvents : list Event :=
  [EvInvoke healthJob] ++ admitEvents 0 "e-0001" None
  ++ workerStartEvents 0 None
  ++ [EvSetClock 400]
  ++ workerFinishEvents 0 (Returned None) None
  ++ receiveEvents 0.

(** A record as ExecuteJob makes it, before any write. *)
Definition freshExecution : JobExecution :=
  mkJobExecution "e-0001" (ID healthJob) 0 None ExecutionStatusPending None
                 None.

(** * The job service and the HTTP handlers *)

(** [models.GetDefaultConfig]; a value is kept as the text of its JSON
    form. *)
Definition GetDefaultConfig (jobType : JobType) : list (string * string) :=
  if decide (jobType = JobTypeEmailNotification) then
    [("recipient", "user@example.com");
     ("subject", "Scheduled Notification");
     ("body", "This is a scheduled email notification.")]
  else if decide (jobType = JobTypeDataProcessing) then
    [("processing_time_seconds", "5");
     ("data_size", "1MB");
     ("operation", "transform")]
  else if decide (jobType = JobTypeReportGeneration) then
    [("report_type", "daily_summary");
     ("format", "txt");
     ("include_charts", "false")]
  else if decide (jobType = JobTypeHealthCheck) then
    [("url", "https://httpbin.org/status/200");
     ("timeout_seconds", "30");
     ("expected_status", "200")]
  else [].

Module Services.

(** [models.CreateJobRequest]: [crConfig] is [None] for a nil map,
    [crIsActive] is [None] for a nil pointer. *)
Record CreateJobRequest := mkCreateJobRequest {
  crName : string;
  crDescription : string;
  crSchedule : string;
  crJobType : JobType;
  crConfig : option (list (string * string));
  crIsActive : option bool
}.

(** [models.UpdateJobRequest]: every field is a pointer. *)
Record UpdateJobRequest := mkUpdateJobRequest {
  upName : option string;
  upDescription : option string;
  upSchedule : option string;
  upJobType : option JobType;
  upConfig : option (list (string * string));
  upIsActive : option bool
}.

Record JobListResponse := mkJobListResponse {
  Jobs : list Job;
  TotalCount : Z;
  Page : Z;
  Limit : Z;
  TotalPages : Z
}.

(** Go's [int] has [bits] bits, 32 or 64 with the platform; the result of
    an operation that leaves the range wraps around. *)
Definition inInt (bits z : Z) : Prop := - 2 ^ (bits - 1) ≤ z < 2 ^ (bits - 1).

Definition wrapInt (bits z : Z) : Z :=
  (z + 2 ^ (bits - 1)) `mod` 2 ^ bits - 2 ^ (bits - 1).

(** [offset := (page - 1) * limit] of [jobRepository.GetAll]. *)
Definition repoOffset (bits page limit : Z) : Z :=
  wrapInt bits (wrapInt bits (page - 1) * limit).

Section Service.

(** The [JobRepository] behind the service, with its state [R]. *)
Context {R : Type}.
Variable repoCreate : Job → R → GoError * R.
Variable repoGetByID : UUID → R → (Job + string) * R.
Variable repoGetAll : Z → Z → R → (list Job * Z + string) * R.
Variable repoUpdate : Job → R → GoError * R.

(** [s.parser.Parse], the parser of five fields made by [NewJobService]. *)
Variable parse : string → GoError.

(** [int(math.Ceil(float64(totalCount) / float64(limit)))]. *)
Variable ceilRatio : Z → Z → Z.

Definition ValidateCronSchedule (schedule : string) : GoError :=
  match parse schedule with
  | Some err =>
      Some ("invalid cron expression '" +:+ schedule +:+ "': " +:+ err)
  | None => None
  end.

(** [CreateJob]; [newID] is what [uuid.New()] answers. *)
Definition CreateJob (req : CreateJobRequest) (newID : UUID) (st : R)
  : option Job * GoError * R :=
  if negb (IsValidJobType (crJobType req)) then
    (None, Some ("invalid job type: " +:+ crJobType req), st)
  else
    match ValidateCronSchedule (crSchedule req) with
    | Some err => (None, Some ("invalid cron schedule: " +:+ err), st)
    | None =>
        let isActive := match crIsActive req with
                        | Some b => b
                        | None => true
                        end in
        let config := match crConfig req with
                      | Some c => c
                      | None => GetDefaultConfig (crJobType req)
                      end in
        let job := mkJob newID (crName req) (crDescription req)
                         (crSchedule req) (crJobType req) config isActive in
        match repoCreate job st with
        | (Some err, st') => (None, Some ("failed to create job: " +:+ err), st')
        | (None, st') => (Some job, None, st')
        end
    end.

(** [GetAllJobs]. Its arguments are Go ints; it compares them and passes
    them on, and no operation of its own can leave the range of an int.
    The offset the repository makes of them is [repoOffset]. *)
Definition GetAllJobs (page limit : Z) (st : R)
  : option JobListResponse * GoError * R :=
  let page := if decide (page < 1) then 1 else page in
  let limit := if decide (limit < 1 ∨ limit > 100) then 10 else limit in
  match repoGetAll page limit st with
  | (inr err, st') => (None, Some ("failed to get jobs: " +:+ err), st')
  | (inl (jobs, totalCount), st') =>
      (Some (mkJobListResponse jobs totalCount page limit
               (ceilRatio totalCount limit)), None, st')
  end.

(** [UpdateJob]: the fields given by the request are written to the job
    fetched, one after the other; a schedule or a kind that is refused ends
    the call before the job is saved. *)
Definition UpdateJob (id : UUID) (req : UpdateJobRequest) (st : R)
  : option Job * GoError * R :=
  match repoGetByID id st with
  | (inr err, st1) =>
      (None, Some ("failed to get job for update: " +:+ err), st1)
  | (inl job, st1) =>
      let job1 := match upName req with
                  | Some n => mkJob (ID job) n (Description job) (Schedule job)
                                    (JobType_ job) (Models.Config job) (IsActive job)
                  | None => job
                  end in
      let job2 := match upDescription req with
                  | Some d => mkJob (ID job1) (Name job1) d (Schedule job1)
                                    (JobType_ job1) (Models.Config job1) (IsActive job1)
                  | None => job1
                  end in
      match
        match upSchedule req with
        | Some sch =>
            match ValidateCronSchedule sch with
            | Some err => inr ("invalid cron schedule: " +:+ err)
            | None => inl (mkJob (ID job2) (Name job2) (Description job2) sch
                                 (JobType_ job2) (Models.Config job2) (IsActive job2))
            end
        | None => inl job2
        end
      with
      | inr err => (None, Some err, st1)
      | inl job3 =>
          match
            match upJobType req with
            | Some jt =>
                if negb (IsValidJobType jt)
                then inr ("invalid job type: " +:+ jt)
                else inl (mkJob (ID job3) (Name job3) (Description job3)
                                (Schedule job3) jt (Models.Config job3) (IsActive job3))
            | None => inl job3
            end
          with
          | inr err => (None, Some err, st1)
          | inl job4 =>
              let job5 := match upConfig req with
                          | Some c => mkJob (ID job4) (Name job4)
                                            (Description job4) (Schedule job4)
                                            (JobType_ job4) c (IsActive job4)
                          | None => job4
                          end in
              let job6 := match upIsActive req with
                          | Some b => mkJob (ID job5) (Name job5)
                                            (Description job5) (Schedule job5)
                                            (JobType_ job5) (Models.Config job5) b
                          | None => job5
                          end in
              match repoUpdate job6 st1 with
              | (Some err, st2) =>
                  (None, Some ("failed to update job: " +:+ err), st2)
              | (None, st2) => (Some job6, None, st2)
              end
          end
      end
  end.

End Service.

Section Handlers.

(** [strconv.Atoi]. *)
Variable atoi : string → option Z.

(** The page and the limit [JobHandler.GetJobs] reads from the query
    parameters [page] and [limit] ([c.Query] answers the empty string for a
    parameter that is absent). *)
Definition queryPage (pageStr : string) : Z :=
  if decide (pageStr = "") then 1
  else match atoi pageStr with
       | Some p => if decide (p > 0) then p else 1
       | None => 1
       end.

Definition queryLimit (limitStr : string) : Z :=
  if decide (limitStr = "") then 10
  else match atoi limitStr with
       | Some l => if decide (l > 0 ∧ l ≤ 100) then l else 10
       | None => 10
       end.

End Handlers.

(** [HealthHandler.checkSchedulerHealth] and [HealthCheck]: the status of
    the scheduler, the figures reported with it, and the HTTP status of the
    answer, given what [db.HealthCheck()] returned. *)
Definition checkSchedulerHealth (s : Scheduler.Sched) : string * bool * nat :=
  (if Scheduler.IsRunning s then "healthy" else "unhealthy",
   Scheduler.IsRunning s, Scheduler.GetScheduledJobsCount s).

Definition checkDatabaseHealth (dbErr : GoError) : string :=
  match dbErr with
  | Some _ => "unhealthy"
  | None => "healthy"
  end.

Definition HealthCheck (dbErr : GoError) (s : Scheduler.Sched) : Z * string :=
  if bool_decide (checkDatabaseHealth dbErr ≠ "healthy"
                  ∨ (checkSchedulerHealth s).1.1 ≠ "healthy")
  then (503, "unhealthy")
  else (200, "healthy").

End Services.

(** A request for sample runs, and a repository that keeps a list. *)
Definition sampleRequest : Services.CreateJobRequest :=
  Services.mkCreateJobRequest "nightly-health" "" "0 9 * * *"
    JobTypeHealthCheck None None.

Definition listCreate (j : Job) (st : list Job) : GoError * list Job :=
  (None, st ++ [j]).

Definition listGetByID (id : UUID) (st : list Job) : (Job + string) * list Job :=
  (match filter (λ j, ID j = id) st with
   | j :: _ => inl j
   | [] => inr ("job with ID " +:+ id +:+ " not found")
   end, st).

Definition listUpdate (j : Job) (st : list Job) : GoError * list Job :=
  (None, (λ x, if decide (ID x = ID j) then j else x) <$> st).

(** A request that renames a job and stops it. *)
Definition renameRequest : Services.UpdateJobRequest :=
  Services.mkUpdateJobRequest (Some "health-at-nine") None None None None
    (Some false).

(** A job variable at address 0 holds the job [CreateJob] makes of
    [sampleRequest] with the id of [healthJob]. *)
Definition createdJob : Job :=
  mkJob (ID healthJob) "nightly-health" "" "0 9 * * *" JobTypeHealthCheck
        (GetDefaultConfig JobTypeHealthCheck) true.

Definition createdOps : list Op := [OpNewJob createdJob].

(** A repository of two rows that answers every page with both. *)
Definition listGetAll (page limit : Z) (st : list Job)
  : (list Job * Z + string) * list Job :=
  (inl (st, Z.of_nat (length st)), st).

(** A page whose offset no longer fits 64 bits when the limit is 2. *)
Definition farPage : Z := 2 ^ 62 + 1.

(** Exact division rounded up, for sample runs. *)
Definition ceilDiv (a b : Z) : Z := (a + b - 1) / b.

(** A reader of decimal numerals for sample runs: digits only. *)
Fixpoint digitsValue (acc : Z) (s : string) : option Z :=
  match s with
  | EmptyString => Some acc
  | String a rest =>
      let n := Z.of_nat (Ascii.nat_of_ascii a) in
      if decide (48 ≤ n ≤ 57) then digitsValue (10 * acc + (n - 48)) rest
      else None
  end.

(** * The configuration read from the environment *)
Module AppConfig.

Record DatabaseConfig := mkDatabaseConfig {
  DBHost : string;
  DBPort : Z;
  DBUser : string;
  DBPassword : string;
  DBName : string;
  DBSSLMode : string
}.

Record ServerConfig := mkServerConfig {
  ServerHost : string;
  ServerPort : Z
}.

Record AppSettings := mkAppSettings {
  Environment : string;
  LogLevel : string
}.

Record SchedulerConfig := mkSchedulerConfig {
  Enabled : bool;
  MaxConcurrentJobs : Z
}.

Record HealthCheckConfig := mkHealthCheckConfig {
  URL : string;
  Timeout : Z
}.

Record ReportsConfig := mkReportsConfig {
  Directory : string
}.

Record Config := mkConfig {
  Database : DatabaseConfig;
  Server : ServerConfig;
  App : AppSettings;
  Scheduler : SchedulerConfig;
  HealthCheck : HealthCheckConfig;
  Reports : ReportsConfig
}.

(** The part of the configuration the executor reads. *)
Definition executorConfig (c : Config) : Executor.Config :=
  Executor.mkConfig (MaxConcurrentJobs (Scheduler c)) (Directory (Reports c))
                    (Timeout (HealthCheck c)).

Definition GetServerAddress (c : Config) : string :=
  ServerHost (Server c) +:+ ":" +:+ pretty (ServerPort (Server c)).

Definition GetDatabaseDSN (c : Config) : string :=
  "host=" +:+ DBHost (Database c)
  +:+ " port=" +:+ pretty (DBPort (Database c))
  +:+ " user=" +:+ DBUser (Database c)
  +:+ " password=" +:+ DBPassword (Database c)
  +:+ " dbname=" +:+ DBName (Database c)
  +:+ " sslmode=" +:+ DBSSLMode (Database c).

Section Env.

(** [os.Getenv] once [godotenv.Load] has run: the empty string for a
    variable that is not set. *)
Variable getenv : string → string.

(** [strconv.Atoi], [strconv.ParseBool] and [time.ParseDuration] (in
    milliseconds). *)
Variable atoi : string → option Z.
Variable parseBool : string → option bool.
Variable parseDuration : string → Z + string.

Definition getEnv (key defaultValue : string) : string :=
  if decide (getenv key ≠ "") then getenv key else defaultValue.

Definition getEnvAsInt (key : string) (defaultValue : Z) : Z :=
  if decide (getenv key ≠ "") then
    match atoi (getenv key) with
    | Some intValue => intValue
    | None => defaultValue
    end
  else defaultValue.

Definition getEnvAsBool (key : string) (defaultValue : bool) : bool :=
  if decide (getenv key ≠ "") then
    match parseBool (getenv key) with
    | Some boolValue => boolValue
    | None => defaultValue
    end
  else defaultValue.

Definition Load : Config + string :=
  let database :=
    mkDatabaseConfig (getEnv "DB_HOST" "localhost")
                     (getEnvAsInt "DB_PORT" 5432)
                     (getEnv "DB_USER" "postgres")
                     (getEnv "DB_PASSWORD" "postgres")
                     (getEnv "DB_NAME" "my_aibo_app")
                     (getEnv "DB_SSLMODE" "disable") in
  let server :=
    mkServerConfig (getEnv "SERVER_HOST" "0.0.0.0")
                   (getEnvAsInt "SERVER_PORT" 8080) in
  let app :=
    mkAppSettings (getEnv "APP_ENV" "development")
                  (getEnv "LOG_LEVEL" "info") in
  let scheduler :=
    mkSchedulerConfig (getEnvAsBool "SCHEDULER_ENABLED" true)
                      (getEnvAsInt "MAX_CONCURRENT_JOBS" 10) in
  match parseDuration (getEnv "HEALTH_CHECK_TIMEOUT" "30s") with
  | inr err => inr ("invalid HEALTH_CHECK_TIMEOUT: " +:+ err)
  | inl healthCheckTimeout =>
      inl (mkConfig database server app scheduler
             (mkHealthCheckConfig
                (getEnv "HEALTH_CHECK_URL" "https://httpbin.org/status/200")
                healthCheckTimeout)
             (mkReportsConfig (getEnv "REPORTS_DIR" "./reports")))
  end.

End Env.

End AppConfig.

(** An environment for sample runs: no variable is set but the capacity,
    which is negative; the readers know the values used here. *)
Definition sampleEnv (key : string) : string :=
  if decide (key = "MAX_CONCURRENT_JOBS") then "-2" else "".

Definition sampleAtoi (s : string) : option Z :=
  if decide (s = "-2") then Some (-2) else digitsValue 0 s.

Definition sampleParseBool (s : string) : option bool :=
  if decide (s = "true") then Some true
  else if decide (s = "false") then Some false
  else None.

Definition sampleParseDuration (s : string) : Z + string :=
  if decide (s = "30s") then inl 30000
  else inr ("time: invalid duration " +:+ s).
(** * Properties of the executor *)

Lemma run_app evs1 evs2 s :
  run (evs1 ++ evs2) s = run evs1 s ≫= run evs2.
Proof.
  revert s; induction evs1 as [|e evs1 IH]; intros s; simpl; [done|].
  destruct (step e s); simpl; auto.
Qed.

Lemma run_invariant (Inv : Sys → Prop) :
  (∀ e s s', Inv s → step e s = Some s' → Inv s') →
  ∀ evs s s', Inv s → run evs s = Some s' → Inv s'.
Proof.
  intros Hstep evs; induction evs as [|e evs IH]; intros s s' Hs; simpl.
  - by intros [= <-].
  - destruct (step e s) as [s1|] eqn:He; [|done]. eauto.
Qed.

Lemma reachable_invariant cfg (Inv : Sys → Prop) :
  (∀ t0 s0, 0 < t0 → NewJobExecutor cfg t0 = Some s0 → Inv s0) →
  (∀ e s s', Inv s → step e s = Some s' → Inv s') →
  ∀ s, reachable cfg s → Inv s.
Proof.
  intros Hinit Hstep s (t0 & s0 & evs & Ht & H0 & Hrun).
  eapply run_invariant; eauto.
Qed.

Lemma reachable_run cfg s evs s' :
  reachable cfg s → run evs s = Some s' → reachable cfg s'.
Proof.
  intros (t0 & s0 & evs0 & Ht & H0 & Hrun) H.
  exists t0, s0, (evs0 ++ evs). split_and!; [done..|].
  by rewrite run_app, Hrun.
Qed.

(** What a step does to the list of calls. *)
Lemma step_calls e s s' j c' :
  step e s = Some s' → calls s' !! j = Some c' →
  calls s !! j = Some c'
  ∨ (∃ jb, e = EvInvoke jb ∧ c' = newCall jb ∧ j = length (calls s))
  ∨ (∃ a c s1, e = EvMain j a ∧ calls s !! j = Some c
               ∧ main_step j a s c = Some (s1, c'))
  ∨ (∃ a c, e = EvWorker j a ∧ calls s !! j = Some c
            ∧ worker_step a s c = Some c').
Proof.
  destruct e as [jb|d|i a|i a|w]; simpl.
  - intros [= <-]; simpl. intros H.
    destruct (decide (j < length (calls s))%nat) as [Hlt|Hge].
    + left. by rewrite lookup_app_l in H.
    + right; left. exists jb.
      rewrite lookup_app_r in H by lia.
      destruct (j - length (calls s))%nat as [|n] eqn:E; simpl in H; [|done].
      split_and!; [done|congruence|lia].
  - case_decide; [|done]. intros [= <-]; simpl. auto.
  - destruct (calls s !! i) as [c|] eqn:Hc; simpl; [|done].
    destruct (main_step i a s c) as [[s1 c1]|] eqn:Hm; simpl; [|done].
    intros [= <-]; simpl.
    assert (calls s1 = calls s) as Hcs.
    { clear -Hm. unfold main_step in Hm.
      repeat (case_match; simplify_eq/=); try done.
      unfold runDeferred in *. repeat (case_match; simplify_eq/=); done. }
    rewrite Hcs. destruct (decide (i = j)) as [->|Hne].
    + rewrite list_lookup_insert_eq by (by eapply lookup_lt_Some).
      intros [= <-]. right; right; left. by exists a, c, s1.
    + rewrite list_lookup_insert_ne by done. auto.
  - destruct (calls s !! i) as [c|] eqn:Hc; simpl; [|done].
    destruct (worker_step a s c) as [c1|] eqn:Hw; simpl; [|done].
    intros [= <-]; simpl. destruct (decide (i = j)) as [->|Hne].
    + rewrite list_lookup_insert_eq by (by eapply lookup_lt_Some).
      intros [= <-]. right; right; right. by exists a, c.
    + rewrite list_lookup_insert_ne by done. auto.
  - intros [= <-]; simpl. auto.
Qed.

Lemma all_calls_step (G : Sys → Prop) (I : Call → Prop) :
  (∀ jb, I (newCall jb)) →
  (∀ i a s c s1 c', G s → I c → main_step i a s c = Some (s1, c') → I c') →
  (∀ a s c c', G s → I c → worker_step a s c = Some c' → I c') →
  ∀ e s s', G s → all_calls I s → step e s = Some s' → all_calls I s'.
Proof.
  intros Hnew Hmain Hwork e s s' HG HI Hstep j c' Hj.
  destruct (step_calls _ _ _ _ _ Hstep Hj)
    as [?|[(jb & _ & -> & _)|[(a & c & s1 & _ & Hc & Hm)|(a & c & _ & Hc & Hw)]]];
    eauto.
Qed.


Lemma call_ok_new jb : call_ok (newCall jb).
Proof. by split. Qed.

Lemma call_ok_main i a s c s1 c' :
  call_ok c → main_step i a s c = Some (s1, c') → call_ok c'.
Proof.
  intros [HM HW HC HS] Hstep. destruct c as [jb mp wp ex df dl ca ch tr].
  unfold main_step in Hstep; simpl in Hstep.
  unfold main_ok in HM; simpl in HM.
  destruct mp, a as [|id|[u|]|x| |]; try discriminate.
  11:{ destruct HM as (Hne & Hd & Hex). unfold defers_ok in Hd; simpl in Hd.
      destruct Hd as [-> | [-> | [-> | ->]]]; [done|..]; unfold runDeferred in Hstep; simpl in Hstep.
      - destruct (held s); simplify_eq/=. finish_ok.
      - simplify_eq/=. finish_ok.
      - destruct ca; simplify_eq/=; finish_ok. }
  all: step_split Hstep; destruct_and?; open_some.
  all: finish_ok.
Qed.

Lemma active_has_execution c :
  main_ok c → wpc c ≠ WIdle → is_Some (execution c).
Proof.
  unfold main_ok, exited, rejected, createFailed, received, timedOut.
  intros HM Hw. destruct (mpc c); naive_solver.
Qed.

(** Steps of the worker leave what [main_ok] looks at alone. *)
Lemma main_ok_frame c c' :
  mpc c' = mpc c → defers c' = defers c →
  is_Some (execution c') →
  creates c' = creates c → timeoutMarks c' = timeoutMarks c →
  errChan c = None →
  wpc c ≠ WIdle → wpc c' ≠ WIdle → (∀ r, wpc c ≠ WDone r) →
  (∀ r, wpc c' = WDone r → errChan c' = Some r) →
  main_ok c → main_ok c'.
Proof.
  unfold main_ok, exited, rejected, createFailed, received, timedOut, defers_ok.
  intros -> -> ? -> -> ? ? ? ? ?. destruct (mpc c); naive_solver.
Qed.

Lemma call_ok_worker a s c c' :
  call_ok c → worker_step a s c = Some c' → call_ok c'.
Proof.
  intros [HM HW HC HS] Hstep.
  assert (wpc c ≠ WIdle ∧ ∀ r, wpc c ≠ WDone r) as [Hidle Hdone].
  { unfold worker_step in Hstep. destruct (wpc c); done. }
  destruct (active_has_execution c HM Hidle) as [je Hje].
  assert (errChan c = None) as Hch.
  { destruct (errChan c) as [r|] eqn:E; [|done]. by destruct (Hdone r); apply HC. }
  assert (main_ok c') as HM'.
  { eapply main_ok_frame; [..|exact HM]; try done.
    all: destruct c as [jb mp wp ex df dl ca ch tr]; simpl in *; subst.
    all: unfold worker_step, protectedExecute, deferredRecover, callCapability in Hstep;
      simpl in Hstep.
    all: destruct wp, a as [|id|[u|]|[xe|[xv|]]| |]; try discriminate.
    all: step_split Hstep; unfold_setters; unfold_queries; simpl; try done; eauto.
    all: by intros; simplify_eq/=. }
  clear HM.
  destruct c as [jb mp wp ex df dl ca ch tr]; simpl in *; subst.
  unfold worker_step, protectedExecute, deferredRecover, callCapability in Hstep;
    simpl in Hstep.
  unfold worker_ok in HW; simpl in HW.
  unfold chan_ok in HC; unfold status_ok in HS; simpl in HC, HS.
  destruct wp, a as [|id|[u|]|[xe|[xv|]]| |]; try discriminate.
  all: unfold_queries; simpl in *; break_hyps.
  all: step_split Hstep; break_hyps.
  all: unfold_setters; simpl in *.
  all: split; [done|..]; unfold worker_ok, chan_ok, status_ok; unfold_queries; simpl.
  all: close_ok.
Qed.

Lemma reachable_call_ok cfg s i c :
  reachable cfg s → calls s !! i = Some c → call_ok c.
Proof.
  intros Hs. revert i c. change (all_calls call_ok s).
  revert s Hs. apply reachable_invariant.
  - intros t0 s0 _. unfold NewJobExecutor. case_decide; [done|].
    intros [= <-] i c; simpl. by rewrite lookup_nil.
  - intros e s s' HI Hstep.
    eapply (all_calls_step (λ _, True)); eauto using call_ok_new, call_ok_main, call_ok_worker.
Qed.

(** The registry and the lookup of a capability *)

Lemma registry_lookup cfg jt :
  IsValidJobType jt = true ↔ is_Some (registry cfg !! jt).
Proof.
  unfold IsValidJobType, registry.
  repeat case_decide; subst; simplify_map_eq; split; try done; eauto.
Qed.

Lemma main_step_static i a s c s1 c' :
  main_step i a s c = Some (s1, c') →
  static s1 = static s ∧ calls s1 = calls s ∧ now s1 = now s.
Proof.
  unfold main_step, runDeferred. intros H.
  repeat (case_match; simplify_eq/=); done.
Qed.

Lemma step_static e s s' : step e s = Some s' → static s' = static s.
Proof.
  destruct e as [jb|d|i a|i a|w]; simpl.
  - by intros [= <-].
  - case_decide; [|done]. by intros [= <-].
  - destruct (calls s !! i) as [c|]; simpl; [|done].
    destruct (main_step i a s c) as [[s1 c1]|] eqn:Hm; simpl; [|done].
    intros [= <-]. by apply main_step_static in Hm as (? & _).
  - destruct (calls s !! i) as [c|]; simpl; [|done].
    destruct (worker_step a s c); simpl; [|done]. by intros [= <-].
  - by intros [= <-].
Qed.

Lemma reachable_static cfg s :
  reachable cfg s →
  static s = (registry cfg, Z.to_nat (MaxConcurrentJobs cfg), MaxConcurrentJobs cfg)
  ∧ 0 ≤ MaxConcurrentJobs cfg.
Proof.
  revert s. apply reachable_invariant.
  - intros t0 s0 _. unfold NewJobExecutor. case_decide; [done|].
    intros [= <-]. split; [done|lia].
  - intros e s s' [HI ?] Hstep. by rewrite (step_static _ _ _ Hstep).
Qed.

Lemma kind_ok_main i a s c s1 c' :
  kind_ok c → main_step i a s c = Some (s1, c') → kind_ok c'.
Proof.
  unfold kind_ok, tookUnknownKindBranch, main_step, runDeferred.
  intros HI Hstep. destruct c as [jb mp wp ex df dl ca ch tr]; simpl in *.
  unfold_setters; simpl in *.
  repeat (case_match; simplify_eq/=); intros Hx; apply HI; clear HI.
  all: destruct Hx as [(st & m & Hx)|Hx]; [left; exists st, m|naive_solver].
  all: rewrite ?elem_of_cons in Hx; naive_solver.
Qed.

Lemma kind_ok_worker cfg a s c c' :
  executors s = registry cfg →
  kind_ok c → worker_step a s c = Some c' → kind_ok c'.
Proof.
  unfold kind_ok, tookUnknownKindBranch, worker_step.
  intros HG HI Hstep. destruct c as [jb mp wp ex df dl ca ch tr]; simpl in *.
  unfold_setters; simpl in *.
  destruct wp; try done.
  3:{ destruct a; try done. rewrite HG in Hstep.
      destruct (registry cfg !! JobType_ jb) as [e|] eqn:E.
      - simplify_eq/=. intros [Hx|(? & ?)]; [|done]. apply HI. by left.
      - assert (IsValidJobType (JobType_ jb) = false) as V.
        { destruct (IsValidJobType (JobType_ jb)) eqn:V; [|done].
          apply (registry_lookup cfg) in V as [? ?]. congruence. }
        unfold_setters. by destruct ex; simplify_eq/=. }
  all: repeat (case_match; simplify_eq/=); intros Hx; apply HI; clear HI.
  all: destruct Hx as [(st & m & Hx)|(? & Hx)]; [left; exists st, m|try done].
  all: rewrite ?elem_of_cons in Hx; try naive_solver.
Qed.

(** C10: the registry built by NewJobExecutor holds a capability for each of
    the four declared job kinds and for nothing else, so for a job whose kind
    satisfies IsValidJobType the lookup in executeJobWithContext finds a
    capability and the "no executor found for job type" branch is never
    taken; a call that took this branch carries a kind outside the
    enumeration. *)
Theorem unknown_kind_branch_only_for_undeclared_kind cfg s i c :
  reachable cfg s → calls s !! i = Some c →
  (∀ jt, IsValidJobType jt = true ↔ is_Some (executors s !! jt))
  ∧ (IsValidJobType (JobType_ (job c)) = true →
     ¬ tookUnknownKindBranch c
     ∧ (∀ err, wpc c ≠ WUnknownUpdate err)
     ∧ (wpc c = WLookup →
        ∃ ex, worker_step ANone s c = Some (set_wpc (WCheckCtx ex) c)))
  ∧ (tookUnknownKindBranch c → IsValidJobType (JobType_ (job c)) = false).
Proof.
  intros Hs Hc.
  assert (kind_ok c) as Hk.
  { revert i c Hc. change (all_calls kind_ok s).
    cut (executors s = registry cfg ∧ all_calls kind_ok s); [by intros []|].
    revert s Hs.
    apply (reachable_invariant cfg (λ s, executors s = registry cfg ∧ all_calls kind_ok s)).
    - intros t0 s0 _. unfold NewJobExecutor. case_decide; [done|].
      intros [= <-]; split; [done|]. intros i c; simpl. by rewrite lookup_nil.
    - intros e s s' [HG HI] Hstep. split.
      + apply step_static in Hstep as [= -> _ _]. done.
      + eapply (all_calls_step (λ s, executors s = registry cfg)); eauto.
        * intros jb [(? & ? & H)|(? & H)]; [by apply elem_of_nil in H|done].
        * intros. eapply kind_ok_main; eauto.
        * intros. eapply kind_ok_worker; eauto. }
  destruct (reachable_static _ _ Hs) as [[= Hex _ _] _].
  split_and!.
  - intros jt. rewrite Hex. apply registry_lookup.
  - intros Hv. split_and!.
    + intros Ht. rewrite Hk in Hv; [done|by left].
    + intros err Hw. rewrite Hk in Hv; [done|right; eauto].
    + intros Hw. apply (registry_lookup cfg) in Hv as [ex Hl].
      exists ex. unfold worker_step. by rewrite Hw, Hex, Hl.
  - intros Ht. apply Hk. by left.
Qed.
Lemma countIf_app P l1 l2 :
  countIf P (l1 ++ l2) = (countIf P l1 + countIf P l2)%nat.
Proof. induction l1 as [|c l1 IH]; simpl; [done|]. rewrite IH. lia. Qed.

Lemma countIf_insert P l i c c' :
  l !! i = Some c →
  (countIf P (<[i := c']> l) + (if P c then 1 else 0)
   = countIf P l + (if P c' then 1 else 0))%nat.
Proof.
  revert i; induction l as [|x l IH]; intros [|i]; simpl; try done.
  - intros [= ->]. lia.
  - intros H. specialize (IH _ H). lia.
Qed.

Lemma countIf_le P Q l :
  (∀ c, c ∈ l → P c = true → Q c = true) → (countIf P l ≤ countIf Q l)%nat.
Proof.
  induction l as [|x l IH]; simpl; [done|]. intros H.
  assert (countIf P l ≤ countIf Q l)%nat.
  { apply IH. intros c Hc. apply H. by right. }
  destruct (P x) eqn:E; [rewrite (H x) by (done || by left)|destruct (Q x)]; lia.
Qed.

(** A tracker whose entries point at distinct marked calls is no larger
    than the number of marked calls. *)
Lemma tracker_size (m : gmap UUID nat) (l : list Call) :
  (∀ id p, m !! id = Some p →
           ∃ c, l !! p = Some c ∧ tracked c = true ∧ executionID c = id) →
  (size m ≤ countIf tracked l)%nat.
Proof.
  revert m. induction l as [|c l IH] using rev_ind; intros m H.
  - destruct (map_to_list m) as [|[id p] ?] eqn:E.
    + apply map_to_list_empty_iff in E. subst. by rewrite map_size_empty.
    + assert (m !! id = Some p) as Hm.
      { apply elem_of_map_to_list. rewrite E. by left. }
      apply H in Hm as (? & Hl & _). by rewrite lookup_nil in Hl.
  - rewrite countIf_app; simpl.
    assert (∀ m' : gmap UUID nat,
              (∀ id p, m' !! id = Some p → m !! id = Some p ∧ p ≠ length l) →
              (size m' ≤ countIf tracked l)%nat) as Hsub.
    { intros m' Hm'. apply IH. intros id p Hip.
      destruct (Hm' _ _ Hip) as [Hm Hne].
      destruct (H _ _ Hm) as (c0 & Hl & Ht & Hid).
      assert (p < length l)%nat.
      { apply lookup_lt_Some in Hl. rewrite length_app in Hl. simpl in Hl. lia. }
      rewrite lookup_app_l in Hl by done. eauto. }
    assert (∀ id, m !! id = Some (length l) →
                  id = executionID c ∧ tracked c = true) as Hlast.
    { intros id Hid. destruct (H _ _ Hid) as (c0 & Hl & Ht & Hc0).
      rewrite lookup_app_r, Nat.sub_diag in Hl by lia. by simplify_eq/=. }
    destruct (decide (m !! executionID c = Some (length l))) as [Hc|Hc].
    + destruct (Hlast _ Hc) as [_ ->].
      specialize (Hsub (delete (executionID c) m)).
      rewrite map_size_delete, Hc in Hsub.
      assert (size m ≠ 0)%nat.
      { intros Hz. apply map_size_empty_iff in Hz. by rewrite Hz in Hc. }
      cut (pred (size m) ≤ countIf tracked l)%nat; [lia|].
      apply Hsub. intros id p Hip.
      apply lookup_delete_Some in Hip as [Hne Hip]. split; [done|].
      intros ->. by destruct (Hlast _ Hip).
    + cut (size m ≤ countIf tracked l)%nat; [lia|].
      apply Hsub. intros id p Hip. split; [done|].
      intros ->. destruct (Hlast _ Hip) as [-> _]. done.
Qed.
(** ** The permit pool and the Run Tracker *)

(** What a step of ExecuteJob does to the semaphore, the tracker and the
    defer stack of the call. *)
Lemma main_step_effect i a s c s1 c' :
  call_ok c → main_step i a s c = Some (s1, c') →
  ((held s < capacity s)%nat ∧ held s1 = S (held s)
   ∧ runningJobs s1 = runningJobs s
   ∧ defers c = [] ∧ defers c' = [DRelease])
  ∨ (held s1 = held s
     ∧ runningJobs s1 = <[executionID c' := i]> (runningJobs s)
     ∧ defers c = [DRelease] ∧ defers c' = [DUntrack; DRelease])
  ∨ (held s = S (held s1) ∧ runningJobs s1 = runningJobs s
     ∧ defers c = [DRelease] ∧ defers c' = [])
  ∨ (held s1 = held s
     ∧ runningJobs s1 = delete (executionID c) (runningJobs s)
     ∧ defers c = [DUntrack; DRelease] ∧ defers c' = [DRelease])
  ∨ (held s1 = held s ∧ runningJobs s1 = runningJobs s
     ∧ holding c' = holding c ∧ tracked c' = tracked c
     ∧ (tracked c = true → executionID c' = executionID c)).
Proof.
  intros [HM _ _ _] Hstep. destruct c as [jb mp wp ex df dl ca ch tr].
  unfold main_step in Hstep; simpl in Hstep.
  unfold main_ok in HM; simpl in HM.
  destruct mp, a as [|id|[u|]|x| |]; try discriminate.
  11:{ destruct HM as (Hne & Hd & Hex). unfold defers_ok in Hd; simpl in Hd.
       destruct Hd as [-> | [-> | [-> | ->]]]; [done|..];
         unfold runDeferred in Hstep; simpl in Hstep.
       - destruct (held s) eqn:Hh; simplify_eq/=. right; right; left. done.
       - simplify_eq/=. right; right; right; left. done.
       - destruct ca; simplify_eq/=; right; right; right; right; done. }
  all: step_split Hstep; destruct_and?; open_some.
  all: unfold_setters; simpl.
  all: try (right; right; right; right; done).
  - left. done.
  - right; left. done.
Qed.

Lemma worker_step_effect a s c c' :
  worker_step a s c = Some c' →
  defers c' = defers c ∧ executionID c' = executionID c.
Proof.
  intros Hstep. destruct c as [jb mp wp ex df dl ca ch tr].
  unfold worker_step in Hstep; simpl in Hstep.
  destruct wp, a as [|id|[u|]|x| |]; try discriminate.
  all: step_split Hstep; unfold_setters; simpl; try done.
  all: by destruct ex.
Qed.
Lemma sys_ok_init cfg t0 s0 : NewJobExecutor cfg t0 = Some s0 → sys_ok s0.
Proof.
  unfold NewJobExecutor. case_decide; [done|]. intros [= <-].
  split; simpl; [|done|lia|].
  - intros i c; simpl. by rewrite lookup_nil.
  - intros id p. by rewrite lookup_empty.
Qed.

Lemma holding_defers c d : defers c = d → holding c = bool_decide (DRelease ∈ d).
Proof. by intros <-. Qed.

Lemma tracked_defers c d : defers c = d → tracked c = bool_decide (DUntrack ∈ d).
Proof. by intros <-. Qed.

Lemma sys_ok_step e s s' : sys_ok s → step e s = Some s' → sys_ok s'.
Proof.
  intros [Hcalls Hheld Hcap Htr] Hstep.
  assert (all_calls call_ok s') as Hcalls'.
  { eapply (all_calls_step (λ _, True)); eauto using call_ok_new, call_ok_main, call_ok_worker. }
  split; [done|..]; clear Hcalls'.
  all: destruct e as [jb|d|i a|i a|w]; simpl in Hstep.
  all: try (case_decide; [|done]).
  all: try (destruct (calls s !! i) as [c|] eqn:Hc; simpl in Hstep; [|done]).
  all: try (destruct (main_step i a s c) as [[s1 c1]|] eqn:Hm; simpl in Hstep; [|done]).
  all: try (destruct (worker_step a s c) as [c1|] eqn:Hw; simpl in Hstep; [|done]).
  all: injection Hstep as <-; simpl; try done.
  - (* held, invoke *)
    rewrite countIf_app, <- Hheld.
    change (countIf holding [newCall jb]) with 0%nat. lia.
  - (* held, main *)
    destruct (main_step_static _ _ _ _ _ _ Hm) as (_ & -> & _).
    pose proof (countIf_insert holding _ _ _ c1 Hc) as Hcnt.
    destruct (main_step_effect _ _ _ _ _ _ (Hcalls _ _ Hc) Hm)
      as [(_ & -> & _ & Hd & Hd')|[(-> & _ & Hd & Hd')|[(Hh & _ & Hd & Hd')
         |[(-> & _ & Hd & Hd')|(-> & _ & Hh & _)]]]].
    all: try rewrite (holding_defers _ _ Hd), (holding_defers _ _ Hd') in Hcnt.
    all: try rewrite Hh in Hcnt; simpl in Hcnt; try lia.
    all: destruct (holding c); lia.
  - (* held, worker *)
    pose proof (countIf_insert holding _ _ _ c1 Hc) as Hcnt.
    destruct (worker_step_effect _ _ _ _ Hw) as [Hd _].
    assert (holding c1 = holding c) as Hh by (unfold holding; by rewrite Hd).
    rewrite Hh in Hcnt. destruct (holding c); lia.
  - (* capacity, main *)
    destruct (main_step_static _ _ _ _ _ _ Hm) as ([= _ -> _] & _ & _).
    destruct (main_step_effect _ _ _ _ _ _ (Hcalls _ _ Hc) Hm)
      as [(? & -> & _)|[(-> & _)|[(Hh & _)|[(-> & _)|(-> & _)]]]]; lia.
  - (* tracker, invoke *)
    intros id p Hp. destruct (Htr _ _ Hp) as (c & Hl & ?).
    exists c. split; [|done]. rewrite lookup_app_l; [done|by eapply lookup_lt_Some].
  - (* tracker, main *)
    destruct (main_step_static _ _ _ _ _ _ Hm) as (_ & -> & _).
    assert (i < length (calls s))%nat as Hi by (by eapply lookup_lt_Some).
    assert (∀ id p, runningJobs s !! id = Some p →
              (p = i → tracked c1 = true ∧ executionID c1 = id) →
              ∃ c0, <[i:=c1]> (calls s) !! p = Some c0 ∧ tracked c0 = true
                    ∧ executionID c0 = id) as Hkeep.
    { intros id p Hp Hpi. destruct (decide (p = i)) as [->|Hne].
      - exists c1. rewrite list_lookup_insert_eq by done. by destruct Hpi.
      - rewrite list_lookup_insert_ne by done. eauto. }
    assert (∀ id, runningJobs s !! id = Some i →
                  tracked c = true ∧ executionID c = id) as Hown.
    { intros id Hp. destruct (Htr _ _ Hp) as (c0 & Hl & ? & ?). by simplify_eq. }
    destruct (main_step_effect _ _ _ _ _ _ (Hcalls _ _ Hc) Hm)
      as [(_ & _ & -> & Hd & Hd')|[(_ & -> & Hd & Hd')|[(_ & -> & Hd & Hd')
         |[(_ & -> & Hd & Hd')|(_ & -> & _ & Ht & Hid)]]]]; intros id p.
    + intros Hp. apply Hkeep; [done|]. intros ->.
      destruct (Hown _ Hp) as [Ht _]. by rewrite (tracked_defers _ _ Hd) in Ht.
    + intros Hp. apply lookup_insert_Some in Hp as [[<- <-]|[Hne Hp]].
      * exists c1. rewrite list_lookup_insert_eq by done.
        by rewrite (tracked_defers _ _ Hd').
      * apply Hkeep; [done|]. intros ->.
        destruct (Hown _ Hp) as [Ht _]. by rewrite (tracked_defers _ _ Hd) in Ht.
    + intros Hp. apply Hkeep; [done|]. intros ->.
      destruct (Hown _ Hp) as [Ht _]. by rewrite (tracked_defers _ _ Hd) in Ht.
    + intros Hp. apply lookup_delete_Some in Hp as [Hne Hp].
      apply Hkeep; [done|]. intros ->. by destruct (Hown _ Hp) as [_ <-].
    + intros Hp. apply Hkeep; [done|]. intros ->.
      destruct (Hown _ Hp) as [Htc <-]. rewrite Ht. split; [done|by apply Hid].
  - (* tracker, worker *)
    intros id p Hp. destruct (Htr _ _ Hp) as (c0 & Hl & Ht & Hid).
    destruct (worker_step_effect _ _ _ _ Hw) as [Hd He].
    destruct (decide (p = i)) as [->|Hne].
    + exists c1. rewrite list_lookup_insert_eq by (by eapply lookup_lt_Some).
      simplify_eq. unfold tracked in *. by rewrite Hd, He.
    + rewrite list_lookup_insert_ne by done. eauto.
Qed.

Lemma reachable_sys_ok cfg s : reachable cfg s → sys_ok s.
Proof.
  revert s. apply reachable_invariant; eauto using sys_ok_init, sys_ok_step.
Qed.
Lemma reachable_runFrom cfg t0 evs s :
  0 < t0 → runFrom cfg t0 evs = Some s → reachable cfg s.
Proof.
  unfold runFrom. intros Ht H.
  destruct (NewJobExecutor cfg t0) as [s0|] eqn:E; [|done].
  by exists t0, s0, evs.
Qed.

Lemma stateAfter_reachable cfg t0 evs :
  0 < t0 → is_Some (runFrom cfg t0 evs) → reachable cfg (stateAfter cfg t0 evs).
Proof.
  intros Ht [s Hs]. unfold stateAfter. rewrite Hs. by eapply reachable_runFrom.
Qed.

Lemma callAfter_lookup cfg t0 evs i :
  is_Some (calls (stateAfter cfg t0 evs) !! i) →
  calls (stateAfter cfg t0 evs) !! i = Some (callAfter cfg t0 evs i).
Proof. intros [c Hc]. unfold callAfter. by rewrite Hc. Qed.

Lemma defers_shape c : main_ok c → defers_ok c.
Proof.
  unfold main_ok, defers_ok, fullDefers. destruct (mpc c); naive_solver.
Qed.

(** C2: for every capacity N and every interleaving of calls of ExecuteJob,
    the Run Tracker never holds more than N entries: it holds no more entries
    than permits are held, no more permits are held than the semaphore has
    room for, and the call that owns an entry still has both the removal of
    the entry and the release of its permit to run, the removal first. *)
Theorem running_jobs_never_exceed_capacity cfg s :
  reachable cfg s →
  (GetRunningJobsCount s ≤ held s)%nat
  ∧ (held s ≤ capacity s)%nat
  ∧ Z.of_nat (capacity s) = MaxConcurrentJobs cfg
  ∧ held s = countIf holding (calls s)
  ∧ ∀ id p, runningJobs s !! id = Some p →
            ∃ c, calls s !! p = Some c ∧ executionID c = id
                 ∧ (defers c = [DUntrack; DRelease] ∨ defers c = fullDefers).
Proof.
  intros Hs. destruct (reachable_sys_ok _ _ Hs) as [Hcalls Hheld Hcap Htr].
  destruct (reachable_static _ _ Hs) as [[= _ Hc _] Hn].
  assert (∀ c, c ∈ calls s → tracked c = true →
               defers c = [DUntrack; DRelease] ∨ defers c = fullDefers) as Hshape.
  { intros c [i Hi]%list_elem_of_lookup Ht.
    destruct (defers_shape c (ok_main _ (Hcalls _ _ Hi))) as [H|[H|[H|H]]];
      rewrite (tracked_defers _ _ H) in Ht; try done; auto. }
  split_and!; [|done|rewrite Hc; lia|done|].
  - unfold GetRunningJobsCount. etrans; [by apply tracker_size|].
    rewrite Hheld. apply countIf_le. intros c Hin Ht.
    destruct (Hshape c Hin Ht) as [H|H]; by rewrite (holding_defers _ _ H).
  - intros id p Hp. destruct (Htr _ _ Hp) as (c & Hl & Ht & Hid).
    exists c. split_and!; [done..|].
    apply Hshape; [|done]. apply list_elem_of_lookup; eauto.
Qed.

Lemma running_jobs_never_exceed_capacity_witness :
  GetRunningJobsCount (stateAfter sampleConfig 1000 burstEvents) = 1%nat
  ∧ capacity (stateAfter sampleConfig 1000 burstEvents) = 1%nat
  ∧ (GetRunningJobsCount (stateAfter sampleConfig 1000 burstEvents)
     ≤ held (stateAfter sampleConfig 1000 burstEvents))%nat.
Proof.
  split; [reflexivity|]. split; [reflexivity|].
  refine (proj1 (running_jobs_never_exceed_capacity sampleConfig _ _)).
  apply stateAfter_reachable; [lia|vm_compute; eauto].
Defined.
Lemma unknown_kind_branch_only_for_undeclared_kind_witness :
  tookUnknownKindBranch (callAfter sampleConfig 1000 unknownKindEvents 0)
  ∧ IsValidJobType (JobType_ (job (callAfter sampleConfig 1000 unknownKindEvents 0)))
    = false.
Proof.
  assert (tookUnknownKindBranch (callAfter sampleConfig 1000 unknownKindEvents 0))
    as Ht by (eexists _, _; vm_compute; left).
  split; [exact Ht|].
  refine (proj2 (proj2 (unknown_kind_branch_only_for_undeclared_kind
                          sampleConfig
                          (stateAfter sampleConfig 1000 unknownKindEvents) 0%nat
                          (callAfter sampleConfig 1000 unknownKindEvents 0)
                          _ _)) Ht).
  - apply stateAfter_reachable; [lia|vm_compute; eauto].
  - apply callAfter_lookup. vm_compute; eauto.
Defined.

(** ** Rejection at the semaphore *)

Lemma step_length e s s' :
  step e s = Some s' → (length (calls s) ≤ length (calls s'))%nat.
Proof.
  destruct e as [jb|d|i a|i a|w]; simpl.
  - intros [= <-]; simpl. rewrite length_app. lia.
  - case_decide; [|done]. by intros [= <-].
  - destruct (calls s !! i) as [c|]; simpl; [|done].
    destruct (main_step i a s c) as [[s1 c1]|] eqn:Hm; simpl; [|done].
    intros [= <-]; simpl. rewrite length_insert.
    by destruct (main_step_static _ _ _ _ _ _ Hm) as (_ & -> & _).
  - destruct (calls s !! i) as [c|]; simpl; [|done].
    destruct (worker_step a s c); simpl; [|done].
    intros [= <-]; simpl. by rewrite length_insert.
  - intros [= <-]; simpl. lia.
Qed.

Lemma finished_step e s s' i c :
  finished c → calls s !! i = Some c → step e s = Some s' →
  calls s' !! i = Some c.
Proof.
  intros [[r Hm] Hw] Hc Hstep.
  assert (i < length (calls s'))%nat as Hi.
  { apply lookup_lt_Some in Hc. apply step_length in Hstep. lia. }
  apply lookup_lt_is_Some in Hi as [c' Hc'].
  destruct (step_calls _ _ _ _ _ Hstep Hc')
    as [?|[(jb & _ & _ & ->)|[(a & c0 & s1 & _ & Hc0 & Hs)|(a & c0 & _ & Hc0 & Hs)]]].
  - congruence.
  - apply lookup_lt_Some in Hc. lia.
  - simplify_eq. unfold main_step in Hs. by rewrite Hm in Hs.
  - simplify_eq. unfold worker_step in Hs.
    destruct Hw as [Hw|[r' Hw]]; by rewrite Hw in Hs.
Qed.

Lemma finished_run evs s s' i c :
  finished c → calls s !! i = Some c → run evs s = Some s' →
  calls s' !! i = Some c.
Proof.
  intros Hf. revert s. induction evs as [|e evs IH]; intros s Hc; simpl.
  - by intros [= <-].
  - destruct (step e s) as [s1|] eqn:He; [|done].
    apply IH. by eapply finished_step.
Qed.

(** C3: a call of ExecuteJob made while all N permits are held returns the
    "maximum concurrent jobs (N) reached" error in its first step, without
    waiting; it has no Execution Record, the execution store's create is not
    invoked, the Run Tracker and the semaphore are left as they were, and
    nothing is ever added for that call afterwards. *)
Theorem full_semaphore_rejects_without_record cfg s i c :
  reachable cfg s → calls s !! i = Some c →
  mpc c = MSelectSemaphore → held s = capacity s →
  ∃ c', step (EvMain i ANone) s = Some (put i c' s)
        ∧ mpc c' = MReturned
                     (Some ("maximum concurrent jobs ("
                            +:+ pretty (MaxConcurrentJobs cfg) +:+ ") reached"))
        ∧ execution c' = None ∧ creates c' = [] ∧ wpc c' = WIdle
        ∧ runningJobs (put i c' s) = runningJobs s
        ∧ held (put i c' s) = held s
        ∧ ∀ evs s2, run evs (put i c' s) = Some s2 →
                    calls s2 !! i = Some c' ∧ ∀ id, runningJobs s2 !! id ≠ Some i.
Proof.
  intros Hs Hc Hm Hfull.
  destruct (reachable_static _ _ Hs) as [[= _ _ Hmax] _].
  pose proof (reachable_call_ok _ _ _ _ Hs Hc) as [HM _ _ _].
  unfold main_ok in HM. rewrite Hm in HM. destruct HM as (Hd & He & Ht & Hw).
  set (c' := returning (Some (limitReached s))
               (observe [OLogWarn "Job execution skipped - maximum concurrent jobs reached"] c)).
  assert (step (EvMain i ANone) s = Some (put i c' s)) as Hstep.
  { simpl. rewrite Hc; simpl. unfold main_step. rewrite Hm.
    case_decide; [lia|done]. }
  assert (mpc c' = MReturned (Some (limitReached s)) ∧ execution c' = None
          ∧ trace c' = [OLogWarn "Job execution skipped - maximum concurrent jobs reached"]
          ∧ wpc c' = WIdle ∧ defers c' = []) as (Hm' & He' & Ht' & Hw' & Hd').
  { unfold c', returning. simpl. rewrite Hd. simpl. by rewrite Ht. }
  exists c'. split_and!; try done.
  - rewrite Hm'. unfold limitReached. by rewrite Hmax.
  - unfold creates. by rewrite Ht'.
  - intros evs s2 Hrun.
    assert (calls (put i c' s) !! i = Some c') as Hc'.
    { simpl. rewrite list_lookup_insert_eq; [done|by eapply lookup_lt_Some]. }
    assert (calls s2 !! i = Some c') as Hc2.
    { eapply finished_run; [|exact Hc'|exact Hrun]. split; eauto. }
    split; [done|]. intros id Hid.
    assert (reachable cfg s2) as Hs2.
    { eapply reachable_run; [|exact Hrun].
      eapply (reachable_run _ _ [EvMain i ANone]); [exact Hs|].
      cbn [run]. by rewrite Hstep. }
    destruct (reachable_sys_ok _ _ Hs2) as [_ _ _ Htr].
    destruct (Htr _ _ Hid) as (c0 & Hl & Htk & _).
    simplify_eq. by rewrite (tracked_defers _ _ Hd') in Htk.
Qed.

Lemma full_semaphore_rejects_without_record_witness :
  held (stateAfter sampleConfig 1000 burstEvents)
  = capacity (stateAfter sampleConfig 1000 burstEvents)
  ∧ mpc (callAfter sampleConfig 1000 burstEvents 1) = MSelectSemaphore
  ∧ ∃ c', step (EvMain 1 ANone) (stateAfter sampleConfig 1000 burstEvents)
          = Some (put 1 c' (stateAfter sampleConfig 1000 burstEvents))
          ∧ mpc c' = MReturned (Some "maximum concurrent jobs (1) reached")
          ∧ execution c' = None ∧ creates c' = [].
Proof.
  split; [reflexivity|]. split; [reflexivity|].
  destruct (full_semaphore_rejects_without_record sampleConfig
              (stateAfter sampleConfig 1000 burstEvents) 1
              (callAfter sampleConfig 1000 burstEvents 1))
    as (c' & H1 & H2 & H3 & H4 & _).
  - apply stateAfter_reachable; [lia|vm_compute; eauto].
  - apply callAfter_lookup. vm_compute; eauto.
  - reflexivity.
  - reflexivity.
  - exists c'. split_and!; [exact H1|exact H2|exact H3|exact H4].
Defined.
(** ** Every call returns *)










(** ** A capability that panics *)




Lemma timeoutMessage_nonempty : timeoutMessage ≠ "".
Proof. done. Qed.









(** ** Failures of the execution store *)

Lemma marks_without_timeout c :
  timeoutMarks c = [] → marks c = workerMarks c.
Proof.
  unfold timeoutMarks, marks, workerMarks.
  induction (trace c) as [|o tr IH]; simpl; [done|].
  destruct o as [| | [] st m | | |]; simpl; try done.
  all: intros H; by rewrite IH.
Qed.

Lemma lastMark_marks c :
  lastMark c = (λ x, (x.1.2, x.2)) <$> head (marks c).
Proof.
  unfold lastMark, marks. induction (trace c) as [|o tr IH]; simpl; [done|].
  by destruct o.
Qed.

(** How a call that has returned got there. *)
Lemma returned_exit c r :
  call_ok c → mpc c = MReturned r → exited r c.
Proof. intros [HM _ _ _] Hr. unfold main_ok in HM. rewrite Hr in HM. apply HM. Qed.









(** ** Terminal states of an Execution Record *)

Lemma timeoutMarks_marks c st m :
  (st, m) ∈ timeoutMarks c → (AtTimeout, st, m) ∈ marks c.
Proof.
  unfold timeoutMarks, marks.
  induction (trace c) as [|o tr IH]; simpl; [by intros ?%elem_of_nil|].
  destruct o as [| | [] st' m' | | |]; simpl; auto.
  1-3: intros H; right; auto.
  intros [?|?]%elem_of_cons; [simplify_eq; left|right; auto].
Qed.

Lemma sent_marks c r :
  sent c r →
  ∃ site st m m0,
    workerMarks c = [(site, st, m); (AtRunning, ExecutionStatusRunning, m0)]
    ∧ terminal st = true.
Proof.
  intros [(err & (m0 & Hm) & _)|(e & res & (m1 & m0 & Hm & _) & _)].
  - by exists AtUnknownKind, ExecutionStatusFailed, (Some err), m0.
  - exists AtFinal, (finalStatus e), m1, m0. split; [done|]. by destruct e.
Qed.

(** C6, as the code has it. A record whose create succeeded has had a terminal
    status written to it by the time ExecuteJob returns. When the deadline did
    not pass, that is the only terminal write: it follows the write of
    running, the record shows it, and the call takes no further step, so
    nothing is written afterwards. When the deadline passed, the write is the
    timeout branch's failed; the worker is not stopped and its own writes may
    still follow. *)
Theorem one_terminal_write_unless_timed_out cfg s i c r :
  reachable cfg s → calls s !! i = Some c →
  mpc c = MReturned r → creates c = [None] →
  (∃ site st m, (site, st, m) ∈ marks c ∧ terminal st = true)
  ∧ (timeoutMarks c = [] →
     (∃ site st m m0 je,
        marks c = [(site, st, m); (AtRunning, ExecutionStatusRunning, m0)]
        ∧ terminal st = true
        ∧ execution c = Some je ∧ Status je = st ∧ IsCompleted je = true)
     ∧ finished c
     ∧ ∀ evs s', run evs s = Some s' → calls s' !! i = Some c)
  ∧ (timeoutMarks c ≠ [] →
     timeoutMarks c = [timeoutMark] ∧ r = Some timeoutError).
Proof.
  intros Hs Hc Hr Hcr. pose proof (reachable_call_ok _ _ _ _ Hs Hc) as Hok.
  pose proof (returned_exit _ _ Hok Hr) as Hex.
  destruct Hok as [HM HW HC HS].
  assert (received r c ∨ timedOut r c) as Hcase.
  { destruct Hex as [(_ & _ & _ & _ & Htr)|[(e & _ & Htr & _)|[?|?]]]; auto.
    - unfold creates in Hcr. by rewrite Htr in Hcr.
    - unfold creates in Hcr. by rewrite Htr in Hcr. }
  assert (timeoutMarks c = [] →
          ∃ site st m m0 je,
            marks c = [(site, st, m); (AtRunning, ExecutionStatusRunning, m0)]
            ∧ terminal st = true
            ∧ execution c = Some je ∧ Status je = st ∧ IsCompleted je = true
            ∧ ∃ r', wpc c = WDone r') as Hone.
  { intros Ht. destruct Hcase as [(_ & _ & Hw & _ & [je Hje])|(_ & Ht' & _)];
      [|by rewrite Ht in Ht'].
    unfold worker_ok in HW. rewrite Hw in HW.
    destruct (sent_marks _ _ HW) as (site & st & m & m0 & Hm & Hterm).
    exists site, st, m, m0, je. rewrite (marks_without_timeout _ Ht).
    specialize (HS _ Hje).
    rewrite lastMark_marks, (marks_without_timeout _ Ht), Hm in HS.
    simpl in HS. assert (Status je = st) as Hst by by simplify_eq.
    split_and!; try done; [|by eexists].
    unfold IsCompleted. rewrite Hst. by destruct st. }
  split_and!.
  - destruct Hcase as [(_ & Ht & _)|(_ & Ht & _)].
    + destruct (Hone Ht) as (site & st & m & m0 & je & Hm & Hterm & _).
      exists site, st, m. split; [|done]. rewrite Hm. by left.
    + exists AtTimeout, ExecutionStatusFailed, (Some timeoutMessage).
      split; [|done]. apply timeoutMarks_marks. rewrite Ht. by left.
  - intros Ht.
    destruct (Hone Ht) as (site & st & m & m0 & je & Hm & Hterm & Hje & Hst & Hic & Hw).
    assert (finished c) as Hf by (split; [by eexists|by right]).
    split_and!; [by exists site, st, m, m0, je|done|].
    intros evs s' Hrun. by eapply finished_run.
  - intros Ht. destruct Hcase as [(_ & Ht' & _)|(_ & Ht' & -> & _)]; done.
Qed.

Lemma one_terminal_write_unless_timed_out_witness :
  (∃ site st m m0 je,
     marks (callAfter sampleConfig 1000 updatesFailEvents 0)
     = [(site, st, m); (AtRunning, ExecutionStatusRunning, m0)]
     ∧ terminal st = true
     ∧ execution (callAfter sampleConfig 1000 updatesFailEvents 0) = Some je
     ∧ Status je = st ∧ IsCompleted je = true)
  ∧ finished (callAfter sampleConfig 1000 updatesFailEvents 0).
Proof.
  destruct (one_terminal_write_unless_timed_out sampleConfig
              (stateAfter sampleConfig 1000 updatesFailEvents) 0
              (callAfter sampleConfig 1000 updatesFailEvents 0)
              (Some "failed to update execution status: connection refused"))
    as (_ & H & _).
  - apply stateAfter_reachable; [lia|vm_compute; eauto].
  - apply callAfter_lookup. vm_compute; eauto.
  - reflexivity.
  - reflexivity.
  - destruct H as (H1 & H2 & _); [reflexivity|]. by split.
Defined.

(** C6 as stated fails when the deadline passes while the capability is
    running. ExecuteJob marks the record failed and returns; the worker then
    marks the same record completed. The record has had two terminal writes,
    and a failed record has become completed. *)
Lemma failed_record_becomes_completed :
  mpc (callAfter sampleConfig 1000 lateSuccessEvents 0)
  = MReturned (Some timeoutError)
  ∧ currentStatus (callAfter sampleConfig 1000 lateSuccessEvents 0)
    = ExecutionStatusFailed
  ∧ runFrom sampleConfig 1000 lateSuccessEvents'
    = run (workerFinishEvents 0 (Returned None) None)
          (stateAfter sampleConfig 1000 lateSuccessEvents)
  ∧ currentStatus (callAfter sampleConfig 1000 lateSuccessEvents' 0)
    = ExecutionStatusCompleted
  ∧ (λ x, x.1.2) <$> marks (callAfter sampleConfig 1000 lateSuccessEvents' 0)
    = [ExecutionStatusCompleted; ExecutionStatusFailed; ExecutionStatusRunning].
Proof. split_and!; by vm_compute. Qed.
(** * The Trigger Table *)

Lemma entryIDs_filter (P : EntryID → Prop) `{∀ x, Decision (P x)}
    (l : list Entry) eid :
  eid ∈ entryID <$> filter (λ e, P (entryID e)) l ↔ P eid ∧ eid ∈ entryID <$> l.
Proof.
  rewrite !list_elem_of_fmap. split.
  - intros (e & -> & [? ?]%list_elem_of_filter). eauto.
  - intros (? & e & -> & ?). exists e. by rewrite list_elem_of_filter.
Qed.

Lemma entryIDs_filter_NoDup (P : Entry → Prop) `{∀ x, Decision (P x)}
    (l : list Entry) :
  NoDup (entryID <$> l) → NoDup (entryID <$> filter P l).
Proof.
  intros Hnd. eapply sublist_NoDup; [exact Hnd|].
  apply fmap_sublist, sublist_filter.
Qed.

Lemma removeExisting_map id s :
  scheduledJobs (removeExisting id s) = delete id (scheduledJobs s).
Proof.
  unfold removeExisting. destruct (scheduledJobs s !! id) eqn:H; simpl; [done|].
  by rewrite delete_id.
Qed.

Lemma removeExisting_entries id s :
  entries (cron (removeExisting id s))
  = filter (λ e, scheduledJobs s !! id ≠ Some (entryID e)) (entries (cron s)).
Proof.
  unfold removeExisting. destruct (scheduledJobs s !! id) as [eid|] eqn:H; simpl.
  - apply list_filter_iff. intros e. naive_solver.
  - symmetry. induction (entries (cron s)) as [|e l IH]; [done|].
    rewrite filter_cons_True; [by f_equal|done].
Qed.

Lemma removeExisting_frame id s :
  nextID (cron (removeExisting id s)) = nextID (cron s)
  ∧ cronRunning (cron (removeExisting id s)) = cronRunning (cron s)
  ∧ heap (removeExisting id s) = heap s
  ∧ nextLoc (removeExisting id s) = nextLoc s
  ∧ isRunning (removeExisting id s) = isRunning s
  ∧ ctxCancelled (removeExisting id s) = ctxCancelled s
  ∧ muHeld (removeExisting id s) = muHeld s
  ∧ reloaders (removeExisting id s) = reloaders s
  ∧ reloadCount (removeExisting id s) = reloadCount s
  ∧ clock (removeExisting id s) = clock s.
Proof. unfold removeExisting. by destruct (scheduledJobs s !! id). Qed.

Lemma removeExisting_table_ok id s : table_ok s → table_ok (removeExisting id s).
Proof.
  intros [Hnd Hfr Hlive Hown Hinj].
  pose proof (removeExisting_frame id s) as (Hn & _).
  split; unfold entryIDs in *;
    rewrite ?removeExisting_map, ?removeExisting_entries, ?Hn.
  - by apply entryIDs_filter_NoDup.
  - intros eid [e [-> [_ He]%list_elem_of_filter]]%list_elem_of_fmap.
    apply Hfr, list_elem_of_fmap. eauto.
  - intros k eid [Hk Hl]%lookup_delete_Some.
    pose proof (Hlive _ _ Hl) as [e [Heq He]]%list_elem_of_fmap. subst eid.
    apply list_elem_of_fmap. exists e. split; [done|].
    apply list_elem_of_filter. split; [|done].
    intros Hid. apply Hk. eauto.
  - intros eid [e [-> [Hne He]%list_elem_of_filter]]%list_elem_of_fmap.
    destruct (Hown (entryID e)) as [k Hk]; [apply list_elem_of_fmap; eauto|].
    exists k. apply lookup_delete_Some. split; [|done]. by intros ->.
  - intros k1 k2 eid [_ H1]%lookup_delete_Some [_ H2]%lookup_delete_Some. eauto.
Qed.

Lemma registered_table_ok id spec p s :
  table_ok s → scheduledJobs s !! id = None → table_ok (registered id spec p s).
Proof.
  intros [Hnd Hfr Hlive Hown Hinj] Hid.
  assert (S (nextID (cron s)) ∉ entryIDs s) as Hnew.
  { intros ?%Hfr. lia. }
  split; unfold entryIDs, registered in *; simpl; rewrite ?fmap_app; simpl.
  - apply NoDup_app. split_and!; [done| |apply NoDup_singleton].
    intros eid Hin ->%list_elem_of_singleton. done.
  - intros eid [?%Hfr| ->%list_elem_of_singleton]%elem_of_app; lia.
  - intros k eid [[-> <-]|[_ Hk]]%lookup_insert_Some; apply elem_of_app.
    + right. by apply list_elem_of_singleton.
    + left. eauto.
  - intros eid [Hin| ->%list_elem_of_singleton]%elem_of_app.
    + destruct (Hown _ Hin) as [k Hk]. exists k.
      rewrite lookup_insert_ne; [done|]. by intros ->; simplify_eq.
    + exists id. by rewrite lookup_insert_eq.
  - intros k1 k2 eid [[-> <-]|[? H1]]%lookup_insert_Some
                      [[-> ?]|[? H2]]%lookup_insert_Some; try done.
    + subst. by apply Hlive in H2.
    + subst. by apply Hlive in H1.
    + eauto.
Qed.

Lemma addJobLocked_unfold parse p s j :
  heap s !! p = Some j →
  addJobLocked parse p s
  = if IsActive j then
      match parse (Schedule j) with
      | Some err =>
          Ret (Some ("failed to add job to scheduler: " +:+ err),
               removeExisting (ID j) s)
      | None =>
          Ret (None, registered (ID j) (Schedule j) p (removeExisting (ID j) s))
      end
    else Ret (None, s).
Proof.
  intros Hp. unfold addJobLocked, cronAddFunc, registered. rewrite Hp.
  destruct (IsActive j); simpl; [|done]. by destruct (parse (Schedule j)).
Qed.

(** The size of the map is the number of entries of the engine. *)
Lemma table_size s :
  table_ok s → GetScheduledJobsCount s = length (entries (cron s)).
Proof.
  intros [Hnd Hfr Hlive Hown Hinj]. unfold GetScheduledJobsCount, entryIDs in *.
  rewrite <-(length_fmap entryID), <-length_map_to_list.
  rewrite <-(length_fmap snd (map_to_list _)).
  apply Permutation_length, NoDup_Permutation; [|done|].
  - apply NoDup_fmap_2_strong; [|apply NoDup_map_to_list].
    intros [k1 e1] [k2 e2] H1%elem_of_map_to_list H2%elem_of_map_to_list ?.
    simplify_eq/=. f_equal. eauto.
  - intros eid. rewrite list_elem_of_fmap. split.
    + intros ([k e] & -> & H%elem_of_map_to_list). eauto.
    + intros [k Hk]%Hown. exists (k, eid). by rewrite elem_of_map_to_list.
Qed.

Lemma filter_same_id_le_1 (Q : Entry → Prop) `{∀ e, Decision (Q e)}
    (l : list Entry) :
  NoDup (entryID <$> l) →
  (∀ e1 e2, Q e1 → Q e2 → entryID e1 = entryID e2) →
  (length (filter Q l) ≤ 1)%nat.
Proof.
  intros Hnd HQ. induction l as [|e l IH]; [simpl; lia|].
  rewrite fmap_cons in Hnd. apply NoDup_cons in Hnd as [Hnotin Hnd].
  destruct (decide (Q e)) as [He|He].
  - rewrite filter_cons_True by done.
    destruct (filter Q l) as [|e' r] eqn:E; simpl; [lia|].
    assert (e' ∈ filter Q l) as [He' Hin]%list_elem_of_filter
      by (rewrite E; left).
    destruct Hnotin. rewrite (HQ e e') by done. by apply list_elem_of_fmap_2.
  - rewrite filter_cons_False by done. auto.
Qed.

Lemma registrations_le_1 id s :
  table_ok s → (length (registrations id s) ≤ 1)%nat.
Proof.
  intros [Hnd _ _ _ _]. apply filter_same_id_le_1; [done|].
  intros e1 e2 H1 H2. congruence.
Qed.

Lemma filter_none {A} (P : A → Prop) `{∀ x, Decision (P x)} (l : list A) :
  (∀ x, x ∈ l → ¬ P x) → filter P l = [].
Proof.
  induction l as [|x l IH]; [done|]. intros Hl.
  rewrite filter_cons_False by (apply Hl; left).
  apply IH. intros y Hy. apply Hl. by right.
Qed.

Lemma registrations_removeExisting id s :
  table_ok s →
  registrations id (removeExisting id s) = []
  ∧ ∀ id', id' ≠ id →
           registrations id' (removeExisting id s) = registrations id' s.
Proof.
  intros [_ _ _ _ Hinj]. unfold registrations.
  rewrite removeExisting_map, removeExisting_entries. split.
  - apply filter_none. intros e _. by rewrite lookup_delete_eq.
  - intros id' Hne. rewrite list_filter_filter. apply list_filter_iff.
    intros e. rewrite lookup_delete_ne by done. split; [by intros [? _]|].
    intros He. split; [done|]. intros He'. destruct Hne. eauto.
Qed.

Lemma registrations_registered id spec p s :
  table_ok s → scheduledJobs s !! id = None →
  registrations id (registered id spec p s)
  = [mkEntry (S (nextID (cron s))) spec (createJobFunction p)]
  ∧ ∀ id', id' ≠ id →
           registrations id' (registered id spec p s) = registrations id' s.
Proof.
  intros [_ Hfr Hlive _ _] Hid.
  assert (∀ e, e ∈ entries (cron s) → entryID e ≠ S (nextID (cron s))) as Hold.
  { intros e He Heq.
    assert (entryID e ∈ entryIDs s) as ?%Hfr by by apply list_elem_of_fmap_2.
    lia. }
  unfold registrations, registered; simpl. split.
  - rewrite filter_app, lookup_insert_eq.
    rewrite filter_none; [|intros e He [= Heq]; by eapply Hold].
    by rewrite filter_cons_True, filter_nil by done.
  - intros id' Hne. rewrite filter_app, lookup_insert_ne by done.
    rewrite (filter_none _ [_]), app_nil_r; [done|].
    intros e ->%list_elem_of_singleton Hl; simpl in Hl.
    apply Hlive, Hfr in Hl. lia.
Qed.

(** ** AddJob *)

Lemma addJobLocked_parses parse p s j :
  table_ok s → heap s !! p = Some j → IsActive j = true →
  parse (Schedule j) = None →
  ∃ s', addJobLocked parse p s = Ret (None, s')
        ∧ scheduledJobs s' !! ID j = Some (S (nextID (cron s)))
        ∧ registrations (ID j) s'
          = [mkEntry (S (nextID (cron s))) (Schedule j) (createJobFunction p)]
        ∧ (∀ id, id ≠ ID j →
                 scheduledJobs s' !! id = scheduledJobs s !! id
                 ∧ registrations id s' = registrations id s)
        ∧ GetScheduledJobsCount s' = length (entries (cron s'))
        ∧ table_ok s'.
Proof.
  intros Hok Hp Hact Hparse.
  rewrite (addJobLocked_unfold _ _ _ _ Hp), Hact, Hparse.
  eexists. split; [done|].
  pose proof (removeExisting_table_ok (ID j) s Hok) as Hok1.
  pose proof (removeExisting_frame (ID j) s) as (Hn & _).
  assert (scheduledJobs (removeExisting (ID j) s) !! ID j = None) as Hnone
    by by rewrite removeExisting_map, lookup_delete_eq.
  pose proof (registered_table_ok (ID j) (Schedule j) p _ Hok1 Hnone) as Hok2.
  destruct (registrations_registered (ID j) (Schedule j) p _ Hok1 Hnone)
    as [Hreg Hother].
  destruct (registrations_removeExisting (ID j) s Hok) as [_ Hother1].
  rewrite Hn in Hreg. split_and!; try done.
  - unfold registered; simpl. by rewrite lookup_insert_eq, Hn.
  - intros id Hne. split.
    + unfold registered; simpl.
      by rewrite lookup_insert_ne, removeExisting_map, lookup_delete_ne.
    + by rewrite Hother, Hother1.
  - by apply table_size.
Qed.

Lemma addJobLocked_parse_error parse p s j err :
  table_ok s → heap s !! p = Some j → IsActive j = true →
  parse (Schedule j) = Some err →
  ∃ s', addJobLocked parse p s
        = Ret (Some ("failed to add job to scheduler: " +:+ err), s')
        ∧ scheduledJobs s' !! ID j = None
        ∧ registrations (ID j) s' = []
        ∧ (∀ id, id ≠ ID j →
                 scheduledJobs s' !! id = scheduledJobs s !! id
                 ∧ registrations id s' = registrations id s)
        ∧ GetScheduledJobsCount s' = length (entries (cron s'))
        ∧ table_ok s'.
Proof.
  intros Hok Hp Hact Hparse.
  rewrite (addJobLocked_unfold _ _ _ _ Hp), Hact, Hparse.
  eexists. split; [done|].
  pose proof (removeExisting_table_ok (ID j) s Hok) as Hok1.
  destruct (registrations_removeExisting (ID j) s Hok) as [Hnil Hother].
  split_and!; try done.
  - by rewrite removeExisting_map, lookup_delete_eq.
  - intros id Hne. split; [|by apply Hother].
    by rewrite removeExisting_map, lookup_delete_ne.
  - by apply table_size.
Qed.

Lemma removeExisting_closures_ok id s :
  closures_ok s → closures_ok (removeExisting id s).
Proof.
  intros Hcl e. pose proof (removeExisting_frame id s) as (_ & _ & -> & _).
  rewrite removeExisting_entries. intros [_ He]%list_elem_of_filter. auto.
Qed.

Lemma registered_closures_ok id spec p s :
  closures_ok s → is_Some (heap s !! p) → closures_ok (registered id spec p s).
Proof.
  intros Hcl Hp e. unfold registered; simpl.
  intros [He| ->%list_elem_of_singleton]%elem_of_app; [by apply Hcl|done].
Qed.

Lemma addJobLocked_returns parse p s j :
  heap s !! p = Some j →
  ∃ r s', addJobLocked parse p s = Ret (r, s')
          ∧ heap s' = heap s ∧ nextLoc s' = nextLoc s
          ∧ same_lifecycle s s'
          ∧ (table_ok s → table_ok s')
          ∧ (closures_ok s → closures_ok s').
Proof.
  intros Hp. rewrite (addJobLocked_unfold _ _ _ _ Hp). unfold same_lifecycle.
  pose proof (removeExisting_frame (ID j) s) as (? & ? & ? & ? & ? & ? & ? & ? & ? & ?).
  destruct (IsActive j); [|by eauto 15].
  destruct (parse (Schedule j)) eqn:Hparse.
  - do 2 eexists. split; [done|]. split_and!; try congruence.
    + apply removeExisting_table_ok.
    + apply removeExisting_closures_ok.
  - do 2 eexists. split; [done|]. unfold registered; simpl.
    split_and!; try congruence.
    + intros Hok. apply (registered_table_ok (ID j) (Schedule j) p).
      * by apply removeExisting_table_ok.
      * by rewrite removeExisting_map, lookup_delete_eq.
    + intros Hcl. apply (registered_closures_ok (ID j) (Schedule j) p).
      * by apply removeExisting_closures_ok.
      * by rewrite H1, Hp.
Qed.

(** ** Reloading *)

Lemma loopVar_spec lv shared j s :
  ∃ p s1, loopVar lv shared j s = (p, s1)
          ∧ heap s1 !! p = Some j
          ∧ cron s1 = cron s ∧ scheduledJobs s1 = scheduledJobs s
          ∧ same_lifecycle s s1 ∧ heap_grows s s1
          ∧ p = (if lv then nextLoc s else shared).
Proof.
  unfold loopVar, alloc, assign, same_lifecycle, heap_grows.
  destruct lv; do 2 eexists; (split; [done|]); simpl;
    (split_and!; try done; [by rewrite lookup_insert_eq|]).
  - intros p Hp. destruct (decide (p = nextLoc s)) as [->|];
      [by rewrite lookup_insert_eq|by rewrite lookup_insert_ne].
  - intros p Hp. destruct (decide (p = shared)) as [->|];
      [by rewrite lookup_insert_eq|by rewrite lookup_insert_ne].
Qed.

Lemma table_ok_eq s s' :
  cron s' = cron s → scheduledJobs s' = scheduledJobs s →
  table_ok s → table_ok s'.
Proof.
  intros Hc Hm [? ? ? ? ?]. split; unfold entryIDs in *; rewrite ?Hc, ?Hm; done.
Qed.

Lemma closures_ok_grows s s' :
  cron s' = cron s → heap_grows s s' → closures_ok s → closures_ok s'.
Proof. intros Hc Hh Hcl e. rewrite Hc. intros He. by apply Hh, Hcl. Qed.

Lemma same_lifecycle_trans s1 s2 s3 :
  same_lifecycle s1 s2 → same_lifecycle s2 s3 → same_lifecycle s1 s3.
Proof. unfold same_lifecycle. intros. destruct_and?. split_and!; congruence. Qed.

Lemma heap_grows_trans s1 s2 s3 :
  heap_grows s1 s2 → heap_grows s2 s3 → heap_grows s1 s3.
Proof. unfold heap_grows. auto. Qed.

(** One round of the second loop of [reloadJobs] is the locked body of
    [AddJob] on the loop variable, its error dropped. *)
Lemma reloadLoop_cons parse lv shared j rest s :
  ∃ p s1 r s2,
    loopVar lv shared j s = (p, s1)
    ∧ addJobLocked parse p s1 = Ret (r, s2)
    ∧ reloadLoop parse lv shared (j :: rest) s
      = reloadLoop parse lv shared rest s2.
Proof.
  destruct (loopVar_spec lv shared j s) as (p & s1 & Hlv & Hp & _).
  exists p, s1. simpl. rewrite Hlv, (addJobLocked_unfold _ _ _ _ Hp).
  unfold cronAddFunc, registered.
  destruct (IsActive j); [|by eauto].
  destruct (parse (Schedule j)); by eauto.
Qed.

Lemma reloadLoop_ok parse lv shared jobs s :
  let s' := reloadLoop parse lv shared jobs s in
  same_lifecycle s s' ∧ heap_grows s s'
  ∧ (table_ok s → table_ok s') ∧ (closures_ok s → closures_ok s').
Proof.
  revert s. induction jobs as [|j rest IH]; intros s.
  - simpl. unfold same_lifecycle, heap_grows. by split_and!.
  - destruct (loopVar_spec lv shared j s)
      as (p & s1 & Hlv & Hp & Hc & Hm & Hlife & Hgrow & _).
    destruct (reloadLoop_cons parse lv shared j rest s)
      as (p0 & s0 & r & s2 & Hlv0 & Hadd & Heq).
    cbv zeta. rewrite Heq. rewrite Hlv in Hlv0. injection Hlv0 as <- <-.
    destruct (addJobLocked_returns parse p s1 j Hp)
      as (r' & s2' & Hadd' & Hheap & _ & Hlife2 & Htab & Hcl).
    rewrite Hadd in Hadd'. injection Hadd' as <- <-.
    destruct (IH s2) as (Hlife3 & Hgrow3 & Htab3 & Hcl3).
    split_and!.
    + eauto using same_lifecycle_trans.
    + eapply heap_grows_trans; [exact Hgrow|].
      eapply heap_grows_trans; [|exact Hgrow3].
      intros q. by rewrite Hheap.
    + intros Hok. apply Htab3, Htab. by eapply table_ok_eq.
    + intros Hok. apply Hcl3, Hcl. by eapply closures_ok_grows.
Qed.

Lemma removeStale_spec jobs s :
  let s' := removeStale jobs s in
  heap s' = heap s ∧ nextLoc s' = nextLoc s ∧ same_lifecycle s s'
  ∧ (∀ id, scheduledJobs s' !! id
           = if decide (id ∈ ID <$> jobs) then scheduledJobs s !! id else None)
  ∧ (table_ok s → table_ok s') ∧ (closures_ok s → closures_ok s').
Proof.
  cbv zeta. unfold removeStale, same_lifecycle; simpl.
  set (current := list_to_set (ID <$> jobs) : gset string).
  assert (∀ id eid,
    filter (λ kv : string * EntryID, kv.1 ∈ current) (scheduledJobs s) !! id
      = Some eid ↔ scheduledJobs s !! id = Some eid ∧ id ∈ ID <$> jobs) as Hkeep.
  { intros id eid. rewrite map_lookup_filter_Some. simpl.
    unfold current. by rewrite elem_of_list_to_set. }
  assert (∀ eid,
    eid ∈ (map_to_list (filter (λ kv : string * EntryID, kv.1 ∉ current)
                               (scheduledJobs s))).*2
    ↔ ∃ id, scheduledJobs s !! id = Some eid ∧ id ∉ ID <$> jobs) as Hstale.
  { intros eid. rewrite list_elem_of_fmap. split.
    - intros ([id e] & -> & [H1 H2]%elem_of_map_to_list%map_lookup_filter_Some).
      exists id. split; [done|]. simpl in H2. unfold current in H2.
      by rewrite elem_of_list_to_set in H2.
    - intros (id & H1 & H2). exists (id, eid). split; [done|].
      apply elem_of_map_to_list, map_lookup_filter_Some. split; [done|].
      simpl. unfold current. by rewrite elem_of_list_to_set. }
  split_and!; try done.
  - intros id. case_decide as Hin.
    + destruct (scheduledJobs s !! id) as [eid|] eqn:Hid.
      * by apply Hkeep.
      * apply eq_None_not_Some. intros [eid [? _]%Hkeep]. congruence.
    + apply eq_None_not_Some. intros [eid [_ ?]%Hkeep]. done.
  - intros [Hnd Hfr Hlive Hown Hinj]. split; unfold entryIDs in *; simpl.
    + by apply entryIDs_filter_NoDup.
    + intros eid [e [-> [_ He]%list_elem_of_filter]]%list_elem_of_fmap.
      apply Hfr. by apply list_elem_of_fmap_2.
    + intros id eid [Hid Hin]%Hkeep.
      pose proof (Hlive _ _ Hid) as [e [-> He]]%list_elem_of_fmap.
      apply list_elem_of_fmap. exists e. split; [done|].
      apply list_elem_of_filter. split; [|done].
      intros (id' & Hid' & Hnin)%Hstale.
      by rewrite (Hinj _ _ _ Hid' Hid) in Hnin.
    + intros eid [e [-> [Hns He]%list_elem_of_filter]]%list_elem_of_fmap.
      destruct (Hown (entryID e)) as [id Hid]; [by apply list_elem_of_fmap_2|].
      exists id. apply Hkeep. split; [done|].
      destruct (decide (id ∈ ID <$> jobs)) as [|Hnin]; [done|].
      destruct Hns. apply Hstale. eauto.
    + intros id1 id2 eid [H1 _]%Hkeep [H2 _]%Hkeep. eauto.
  - intros Hcl e; simpl. intros [_ He]%list_elem_of_filter. by apply Hcl.
Qed.

Lemma alloc_spec j s :
  cron (alloc j s).2 = cron s ∧ scheduledJobs (alloc j s).2 = scheduledJobs s
  ∧ same_lifecycle s (alloc j s).2 ∧ heap_grows s (alloc j s).2
  ∧ heap (alloc j s).2 !! (alloc j s).1 = Some j.
Proof.
  unfold alloc, same_lifecycle, heap_grows; simpl. split_and!; try done.
  - intros p Hp. destruct (decide (p = nextLoc s)) as [->|];
      [by rewrite lookup_insert_eq|by rewrite lookup_insert_ne].
  - by rewrite lookup_insert_eq.
Qed.

(** [reloadJobs] returns unless the lock is held; it changes the table and
    the heap only. *)
Lemma reloadJobs_returns parse lv answer s :
  muHeld s = false →
  ∃ r s', reloadJobs parse lv answer s = Ret (r, s')
          ∧ reloadCount s' = S (reloadCount s)
          ∧ muHeld s' = false ∧ isRunning s' = isRunning s
          ∧ ctxCancelled s' = ctxCancelled s ∧ reloaders s' = reloaders s
          ∧ clock s' = clock s
          ∧ cronRunning (cron s') = cronRunning (cron s)
          ∧ (table_ok s → table_ok s') ∧ (closures_ok s → closures_ok s').
Proof.
  intros Hmu. unfold reloadJobs. cbv zeta.
  set (s0 := set_reloadCount (S (reloadCount s)) s).
  assert (muHeld s0 = muHeld s ∧ isRunning s0 = isRunning s
          ∧ ctxCancelled s0 = ctxCancelled s ∧ reloaders s0 = reloaders s
          ∧ clock s0 = clock s ∧ cronRunning (cron s0) = cronRunning (cron s)
          ∧ reloadCount s0 = S (reloadCount s)
          ∧ (table_ok s → table_ok s0) ∧ (closures_ok s → closures_ok s0))
    as (Hm0 & ? & ? & ? & ? & ? & ? & Ht0 & Hc0).
  { split_and!; try done. by intros [? ? ? ? ?]. }
  clearbody s0.
  destruct answer as [jobs|err]; [|by eauto 15].
  rewrite Hm0, Hmu.
  destruct (removeStale_spec jobs s0) as (Hh & Hn & Hl1 & _ & Ht1 & Hc1).
  set (s1 := removeStale jobs s0) in *. clearbody s1.
  destruct lv.
  - destruct (reloadLoop_ok parse true (nextLoc s1) jobs s1)
      as (Hl2 & Hg2 & Ht2 & Hc2).
    do 2 eexists. split; [done|].
    unfold same_lifecycle in *. destruct_and?.
    split_and!; try congruence; auto.
  - pose proof (alloc_spec zeroJob s1) as (Hc & Hm & Hl3 & Hg3 & _).
    destruct (alloc zeroJob s1) as [shared s2] eqn:Ha. cbn [fst snd] in *.
    destruct (reloadLoop_ok parse false shared jobs s2)
      as (Hl2 & Hg2 & Ht2 & Hc2).
    do 2 eexists. split; [done|].
    unfold same_lifecycle in *. destruct_and?.
    split_and!; try congruence.
    + intros Hok. apply Ht2. eapply table_ok_eq; [done..|]. auto.
    + intros Hcl. apply Hc2. eapply closures_ok_grows; [done..|]. auto.
Qed.

(** ** Start and Stop *)

Lemma unlock_relock s : muHeld s = false → set_muHeld false (set_muHeld true s) = s.
Proof. destruct s; simpl. by intros ->. Qed.

(** The state after [Start] found no job to load. *)
Lemma Start_cases parse lv answer s :
  muHeld s = false →
  Start parse lv answer s
  = if isRunning s then Ret (Some "scheduler is already running", s)
    else match answer with
         | inr err =>
             Ret (Some ("failed to load active jobs: "
                        +:+ ("failed to get active jobs: " +:+ err)), s)
         | inl [] =>
             let s1 := if lv then s else (alloc zeroJob s).2 in
             Ret (None,
                  set_reloaders (reloaders s ++ [clock s + reloadPeriod])
                    (set_isRunning true (set_cron (cronStart (cron s)) s1)))
         | inl (_ :: _) => Deadlock
         end.
Proof.
  intros Hmu. unfold Start. rewrite Hmu. simpl.
  destruct (isRunning s) eqn:Hrun; [done|].
  destruct answer as [[|j jobs]|err]; simpl.
  - unfold loadActiveJobs. destruct lv; simpl.
    + f_equal. f_equal. destruct s; simpl in *. by subst.
    + f_equal. f_equal. destruct s; simpl in *. by subst.
  - unfold loadActiveJobs.
    destruct lv; simpl; unfold loopVar, AddJob; simpl; done.
  - by rewrite unlock_relock.
Qed.

Lemma Stop_cases tickFirst s :
  muHeld s = false →
  Stop tickFirst s
  = if isRunning s then
      if tickFirst && bool_decide (Exists (λ t, t ≤ clock s) (reloaders s))
      then Deadlock
      else Ret (None,
                set_isRunning false
                  (set_reloaders []
                     (set_cron (cronStop (cron s)) (set_ctxCancelled true s))))
    else Ret (None, s).
Proof. intros Hmu. unfold Stop. rewrite Hmu. by destruct (isRunning s). Qed.

(** ** Every state the scheduler reaches *)

Lemma sched_ok_frame s s' :
  cron s' = cron s → scheduledJobs s' = scheduledJobs s → heap_grows s s' →
  same_lifecycle s s' → sched_ok s → sched_ok s'.
Proof.
  intros Hc Hm Hg (? & ? & ? & ? & ? & ? & ?) [Ht Hcl Hmu Hcr Hst Hre Hal].
  split.
  - by eapply table_ok_eq.
  - by eapply closures_ok_grows.
  - congruence.
  - congruence.
  - intros. rewrite H2. apply Hst. congruence.
  - intros. rewrite H2. apply Hre. congruence.
  - intros. rewrite H2. apply Hal; congruence.
Qed.

Lemma sched_ok_table s s' :
  same_lifecycle s s' → table_ok s' → closures_ok s' → sched_ok s → sched_ok s'.
Proof.
  intros (? & ? & ? & ? & ? & ? & ?) Ht' Hcl' [Ht Hcl Hmu Hcr Hst Hre Hal].
  split; try done; try congruence.
  - intros. rewrite H2. apply Hst. congruence.
  - intros. rewrite H2. apply Hre. congruence.
  - intros. rewrite H2. apply Hal; congruence.
Qed.

Lemma sched_ok_new cfg t0 s0 : NewScheduler cfg t0 = Some s0 → sched_ok s0.
Proof.
  unfold NewScheduler. destruct (NewJobExecutor cfg t0); simpl; [|done].
  intros [= <-]. split; try done; simpl; try lia.
  - split; unfold entryIDs; simpl; try done.
    + constructor.
    + by intros ? ?%elem_of_nil.
    + by intros ? ?%elem_of_nil.
  - by intros e ?%elem_of_nil.
Qed.

Lemma sched_ok_apply parse lv op s s' :
  sched_ok s → apply parse lv op s = Some s' → sched_ok s'.
Proof.
  intros Hok. pose proof Hok as [Ht Hcl Hmu Hcr Hst Hre Hal].
  destruct op as [j|p j|p|id|answer|tickFirst|d|k takeTick answer|id]; simpl.
  - intros [= <-]. destruct (alloc_spec j s) as (? & ? & ? & ? & _).
    by eapply sched_ok_frame.
  - destruct (heap s !! p) eqn:Hp; [|done]. intros [= <-].
    apply (sched_ok_frame s); try done.
    intros q Hq. unfold assign; simpl.
    destruct (decide (q = p)) as [->|];
      [by rewrite lookup_insert_eq|by rewrite lookup_insert_ne].
  - unfold AddJob. rewrite Hmu.
    destruct (heap s !! p) as [j|] eqn:Hp;
      [|unfold addJobLocked; rewrite Hp; simpl; done].
    destruct (addJobLocked_returns parse p s j Hp)
      as (r & s1 & -> & _ & _ & Hl & Ht1 & Hc1); simpl.
    intros [= <-]. eapply sched_ok_table; eauto.
  - unfold RemoveJob. rewrite Hmu; simpl. intros [= <-].
    pose proof (removeExisting_frame id s) as (? & ? & ? & ? & ? & ? & ? & ? & ? & ?).
    apply (sched_ok_table s);
      [unfold same_lifecycle; split_and!; congruence
      |by apply removeExisting_table_ok
      |by apply removeExisting_closures_ok
      |done].
  - rewrite (Start_cases _ _ _ _ Hmu).
    destruct (isRunning s) eqn:Hrun; simpl; [by intros [= <-]|].
    destruct answer as [[|j jobs]|err]; simpl; [|done|by intros [= <-]].
    intros [= <-]. assert (reloaders s = []) as Hnil by auto.
    destruct lv.
    + split; simpl; rewrite ?Hnil; try done. by destruct Ht.
    + destruct (alloc_spec zeroJob s) as (Hc & Hm & Hl & Hg & _).
      assert (sched_ok (alloc zeroJob s).2) as [Ht1 Hcl1 _ _ _ _ _]
        by by eapply sched_ok_frame.
      split; simpl; rewrite ?Hnil; try done. by destruct Ht1.
  - rewrite (Stop_cases _ _ Hmu).
    destruct (isRunning s) eqn:Hrun; simpl; [|by intros [= <-]].
    destruct (_ && _); simpl; [done|]. intros [= <-].
    split; simpl; try done. by destruct Ht.
  - case_decide; [|done]. intros [= <-].
    split; simpl; try done. by destruct Ht.
  - unfold reloaderSelect. destruct (reloaders s !! k) as [tick|] eqn:Hk; [|done].
    destruct takeTick.
    + case_bool_decide; [|done].
      destruct (reloadJobs_returns parse lv answer s Hmu)
        as (r & s1 & -> & _ & Hm1 & Hr1 & Hx1 & Hre1 & _ & Hcr1 & Ht1 & Hc1).
      simpl. intros [= <-]. split; simpl; auto.
      * destruct (Ht1 Ht). by split.
      * congruence.
      * rewrite Hr1, Hre1. intros Hrun. specialize (Hst Hrun).
        by rewrite Hst in Hk.
      * rewrite Hr1, Hre1, length_insert. auto.
      * rewrite Hr1, Hx1, Hre1, length_insert. auto.
    + destruct (ctxCancelled s) eqn:Hctx; [|done]. simpl. intros [= <-].
      split; simpl; try done.
      * by destruct Ht.
      * intros Hrun. specialize (Hst Hrun). by rewrite Hst in Hk.
      * intros Hrun. specialize (Hre Hrun).
        assert (is_Some (reloaders s !! k)) as Hsome by eauto.
        pose proof (length_delete _ _ Hsome). lia.
      * intros _ ?. congruence.
  - unfold fire. destruct (cronRunning (cron s)) eqn:Hcron; [|done].
    destruct (filter _ _) as [|e l]; [done|]. simpl.
    destruct (entryFunc e) as [p]. destruct (heap s !! p); [|done]. simpl.
    intros [= <-]. split; simpl; try done; [by destruct Ht|congruence].
Qed.

Lemma scheduled_ok parse lv cfg s : scheduled parse lv cfg s → sched_ok s.
Proof.
  intros (t0 & s0 & ops & Hnew & Hops).
  apply sched_ok_new in Hnew. revert s0 Hnew Hops.
  induction ops as [|op ops IH]; intros s0 Hok; simpl.
  - by intros [= <-].
  - destruct (apply parse lv op s0) as [s1|] eqn:Hop; simpl; [|done].
    apply IH. by eapply sched_ok_apply.
Qed.

Lemma addJobLocked_other parse p s j id r s' :
  table_ok s → heap s !! p = Some j → id ≠ ID j →
  addJobLocked parse p s = Ret (r, s') →
  scheduledJobs s' !! id = scheduledJobs s !! id
  ∧ registrations id s' = registrations id s.
Proof.
  intros Hok Hp Hne. destruct (IsActive j) eqn:Hact.
  - destruct (parse (Schedule j)) as [err|] eqn:Hparse.
    + destruct (addJobLocked_parse_error parse p s j err Hok Hp Hact Hparse)
        as (s1 & -> & _ & _ & Hother & _).
      intros [= _ <-]. by apply Hother.
    + destruct (addJobLocked_parses parse p s j Hok Hp Hact Hparse)
        as (s1 & -> & _ & _ & Hother & _).
      intros [= _ <-]. by apply Hother.
  - rewrite (addJobLocked_unfold _ _ _ _ Hp), Hact. by intros [= _ <-].
Qed.

Lemma registrations_eq id s s' :
  cron s' = cron s → scheduledJobs s' = scheduledJobs s →
  registrations id s' = registrations id s.
Proof. unfold registrations. by intros -> ->. Qed.

(** The loop leaves alone the identifiers that are not in the list. *)
Lemma reloadLoop_other parse lv shared jobs s id :
  table_ok s → id ∉ ID <$> jobs →
  scheduledJobs (reloadLoop parse lv shared jobs s) !! id = scheduledJobs s !! id
  ∧ registrations id (reloadLoop parse lv shared jobs s) = registrations id s.
Proof.
  revert s. induction jobs as [|j rest IH]; intros s Hok Hnin; [done|].
  rewrite fmap_cons, not_elem_of_cons in Hnin. destruct Hnin as [Hne Hnin].
  destruct (loopVar_spec lv shared j s)
    as (p & s1 & Hlv & Hp & Hc & Hm & Hlife & Hgrow & _).
  destruct (reloadLoop_cons parse lv shared j rest s)
    as (p0 & s0 & r & s2 & Hlv0 & Hadd & ->).
  rewrite Hlv in Hlv0. injection Hlv0 as <- <-.
  assert (table_ok s1) as Hok1 by by eapply table_ok_eq.
  destruct (addJobLocked_other _ _ _ _ _ _ _ Hok1 Hp Hne Hadd) as [Hm2 Hr2].
  destruct (addJobLocked_returns parse p s1 j Hp)
    as (r' & s2' & Hadd' & _ & _ & _ & Htab & _).
  rewrite Hadd in Hadd'. injection Hadd' as <- <-.
  destruct (IH s2 (Htab Hok1) Hnin) as [-> ->].
  rewrite Hm2, Hr2, Hm. split; [done|]. by apply registrations_eq.
Qed.

(** The heap after the loop: with one variable per round the variables of
    earlier rounds keep their values; with one variable for the loop it
    holds the last job. *)
Lemma reloadLoop_heap_fresh parse shared jobs s p :
  (p < nextLoc s)%nat →
  heap (reloadLoop parse true shared jobs s) !! p = heap s !! p.
Proof.
  revert s. induction jobs as [|j rest IH]; intros s Hlt; [done|].
  destruct (reloadLoop_cons parse true shared j rest s)
    as (p0 & s1 & r & s2 & Hlv & Hadd & ->).
  destruct (loopVar_spec true shared j s) as (p1 & s1' & Hlv' & Hp & _).
  rewrite Hlv in Hlv'. injection Hlv' as <- <-.
  destruct (addJobLocked_returns parse p0 s1 j Hp)
    as (r' & s2' & Hadd' & Hh & Hn & _).
  rewrite Hadd in Hadd'. injection Hadd' as <- <-.
  unfold loopVar, alloc in Hlv. injection Hlv as <- <-.
  rewrite IH by (rewrite Hn; simpl; lia).
  rewrite Hh; simpl. rewrite lookup_insert_ne; [done|lia].
Qed.

Lemma reloadLoop_heap_shared parse shared jobs s :
  heap (reloadLoop parse false shared jobs s) !! shared
  = match last jobs with
    | Some j => Some j
    | None => heap s !! shared
    end.
Proof.
  revert s. induction jobs as [|j rest IH]; intros s; [done|].
  destruct (reloadLoop_cons parse false shared j rest s)
    as (p0 & s1 & r & s2 & Hlv & Hadd & ->).
  destruct (loopVar_spec false shared j s) as (p1 & s1' & Hlv' & Hp & _).
  rewrite Hlv in Hlv'. injection Hlv' as <- <-.
  destruct (addJobLocked_returns parse p0 s1 j Hp)
    as (r' & s2' & Hadd' & Hh & Hn & _).
  rewrite Hadd in Hadd'. injection Hadd' as <- <-.
  unfold loopVar, assign in Hlv. injection Hlv as <- <-.
  rewrite IH, Hh. destruct rest as [|j' rest'].
  - simpl. by rewrite lookup_insert_eq.
  - change (last (j :: j' :: rest')) with (last (j' :: rest')).
    destruct (last (j' :: rest')) eqn:Hlast; [done|].
    by apply last_None in Hlast.
Qed.

(** What the callbacks registered by the loop execute. *)
Lemma reloadLoop_runs parse lv shared jobs s :
  table_ok s → NoDup (ID <$> jobs) →
  (∀ j, j ∈ jobs → IsActive j = true ∧ parse (Schedule j) = None) →
  ∀ j, j ∈ jobs →
    ∃ e, registrations (ID j) (reloadLoop parse lv shared jobs s) = [e]
         ∧ entrySpec e = Schedule j
         ∧ heap (reloadLoop parse lv shared jobs s) !! captured e
           = Some (if lv then j else default j (last jobs)).
Proof.
  revert s. induction jobs as [|j0 rest IH]; intros s Hok Hnd Hall j Hj;
    [by apply elem_of_nil in Hj|].
  rewrite fmap_cons in Hnd. apply NoDup_cons in Hnd as [Hnin Hnd].
  destruct (loopVar_spec lv shared j0 s)
    as (p & s1 & Hlv & Hp & Hc & Hm & Hlife & Hgrow & Hpv).
  destruct (reloadLoop_cons parse lv shared j0 rest s)
    as (p0 & s0 & r & s2 & Hlv0 & Hadd & ->).
  rewrite Hlv in Hlv0. injection Hlv0 as <- <-.
  assert (table_ok s1) as Hok1 by by eapply table_ok_eq.
  destruct (Hall j0) as [Hact Hparse]; [by left|].
  destruct (addJobLocked_parses parse p s1 j0 Hok1 Hp Hact Hparse)
    as (s2' & Hadd' & _ & Hreg & _ & _ & Hok2).
  rewrite Hadd in Hadd'. injection Hadd' as -> <-.
  destruct (addJobLocked_returns parse p s1 j0 Hp)
    as (r' & s2' & Hadd' & Hh & Hn & _).
  rewrite Hadd in Hadd'. injection Hadd' as <- <-.
  apply elem_of_cons in Hj as [->|Hj].
  - destruct (reloadLoop_other parse lv shared rest s2 (ID j0) Hok2 Hnin)
      as [_ ->].
    eexists. split; [exact Hreg|]. split; [done|]. unfold captured; simpl.
    destruct lv.
    + rewrite reloadLoop_heap_fresh, Hh; [done|].
      unfold loopVar, alloc in Hlv. injection Hlv as <- <-.
      rewrite Hn. simpl. lia.
    + subst p. rewrite reloadLoop_heap_shared, Hh, Hp.
      destruct rest as [|j' rest']; [done|].
      change (last (j0 :: j' :: rest')) with (last (j' :: rest')).
      by destruct (last (j' :: rest')).
  - destruct (IH s2 Hok2 Hnd (λ j' Hj', Hall j' (list_elem_of_further _ _ _ Hj')) j Hj)
      as (e & He & Hspec & Hheap).
    exists e. split_and!; [done..|]. rewrite Hheap. destruct lv; [done|].
    destruct rest as [|j' rest']; [by apply elem_of_nil in Hj|].
    by change (last (j0 :: j' :: rest')) with (last (j' :: rest')).
Qed.

(** What is scheduled after the loop, for the jobs of the list. *)
Lemma reloadLoop_map parse lv shared jobs s :
  table_ok s → NoDup (ID <$> jobs) →
  ∀ j, j ∈ jobs →
    let m' := scheduledJobs (reloadLoop parse lv shared jobs s) in
    if IsActive j then
      match parse (Schedule j) with
      | None => is_Some (m' !! ID j)
      | Some _ => m' !! ID j = None
      end
    else m' !! ID j = scheduledJobs s !! ID j.
Proof.
  revert s. induction jobs as [|j0 rest IH]; intros s Hok Hnd j Hj;
    [by apply elem_of_nil in Hj|].
  rewrite fmap_cons in Hnd. apply NoDup_cons in Hnd as [Hnin Hnd].
  destruct (loopVar_spec lv shared j0 s)
    as (p & s1 & Hlv & Hp & Hc & Hm & Hlife & Hgrow & Hpv).
  destruct (reloadLoop_cons parse lv shared j0 rest s)
    as (p0 & s0 & r & s2 & Hlv0 & Hadd & ->).
  rewrite Hlv in Hlv0. injection Hlv0 as <- <-.
  assert (table_ok s1) as Hok1 by by eapply table_ok_eq.
  destruct (addJobLocked_returns parse p s1 j0 Hp)
    as (r' & s2' & Hadd' & _ & _ & _ & Htab & _).
  rewrite Hadd in Hadd'. injection Hadd' as <- <-.
  specialize (Htab Hok1). cbv zeta.
  apply elem_of_cons in Hj as [->|Hj].
  - destruct (reloadLoop_other parse lv shared rest s2 (ID j0) Htab Hnin)
      as [-> _].
    destruct (IsActive j0) eqn:Hact.
    + destruct (parse (Schedule j0)) as [err|] eqn:Hparse.
      * destruct (addJobLocked_parse_error parse p s1 j0 err Hok1 Hp Hact Hparse)
          as (s2' & Hadd' & Hnone & _).
        rewrite Hadd in Hadd'. by injection Hadd' as -> <-.
      * destruct (addJobLocked_parses parse p s1 j0 Hok1 Hp Hact Hparse)
          as (s2' & Hadd' & Hsome & _).
        rewrite Hadd in Hadd'. injection Hadd' as -> <-. by rewrite Hsome.
    + rewrite (addJobLocked_unfold _ _ _ _ Hp), Hact in Hadd.
      injection Hadd as <- <-. by rewrite Hm.
  - specialize (IH s2 Htab Hnd j Hj). cbv zeta in IH.
    assert (ID j ≠ ID j0) as Hne.
    { intros Heq. apply Hnin. rewrite <-Heq. by apply list_elem_of_fmap_2. }
    destruct (addJobLocked_other _ _ _ _ _ _ _ Hok1 Hp Hne Hadd) as [Hm2 _].
    destruct (IsActive j); [done|]. by rewrite IH, Hm2, Hm.
Qed.

(** [reloadJobs] on a fetched list: the stale identifiers are gone and the
    loop runs on what is left. *)
Lemma reloadJobs_unfold parse lv jobs s :
  sched_ok s →
  ∃ shared s2,
    reloadJobs parse lv (inl jobs) s
    = Ret (None, reloadLoop parse lv shared jobs s2)
    ∧ table_ok s2 ∧ closures_ok s2
    ∧ (∀ id, scheduledJobs s2 !! id
             = if decide (id ∈ ID <$> jobs) then scheduledJobs s !! id else None)
    ∧ reloadCount s2 = S (reloadCount s)
    ∧ cronRunning (cron s2) = isRunning s.
Proof.
  intros [Ht Hcl Hmu Hcr _ _ _]. unfold reloadJobs. cbv zeta.
  set (s0 := set_reloadCount (S (reloadCount s)) s).
  assert (muHeld s0 = false ∧ reloadCount s0 = S (reloadCount s)
          ∧ cronRunning (cron s0) = isRunning s
          ∧ scheduledJobs s0 = scheduledJobs s
          ∧ table_ok s0 ∧ closures_ok s0)
    as (Hm0 & Hrc & Hc0 & Hmap & Ht0 & Hcl0).
  { split_and!; try done. by destruct Ht. }
  clearbody s0. rewrite Hm0.
  destruct (removeStale_spec jobs s0) as (Hh & Hn & Hl1 & Hm1 & Ht1 & Hc1).
  set (s1 := removeStale jobs s0) in *. clearbody s1.
  unfold same_lifecycle in Hl1. destruct_and?.
  destruct lv.
  - exists (nextLoc s1), s1. split_and!; auto; try congruence.
    intros id. by rewrite Hm1, Hmap.
  - pose proof (alloc_spec zeroJob s1) as (Hc & Hm & Hl3 & Hg3 & _).
    destruct (alloc zeroJob s1) as [shared s2] eqn:Ha. cbn [fst snd] in *.
    unfold same_lifecycle in Hl3. destruct_and?.
    exists shared, s2. split_and!; try done.
    + eapply table_ok_eq; [done..|]. auto.
    + eapply closures_ok_grows; [done..|]. auto.
    + intros id. by rewrite Hm, Hm1, Hmap.
    + congruence.
    + rewrite Hc. congruence.
Qed.

(** Firing the entry scheduled for [id]. *)
Lemma fire_registered id eid e l s :
  cronRunning (cron s) = true → scheduledJobs s !! id = Some eid →
  registrations id s = e :: l →
  fire eid s
  = Some (match heap s !! captured e with
          | Some j => Ret (j, set_executor (invoke j (executor s)) s)
          | None => NilDeref
          end).
Proof.
  intros Hrun Hid Hreg. unfold fire. rewrite Hrun.
  assert (filter (λ e, entryID e = eid) (entries (cron s)) = registrations id s)
    as ->.
  { unfold registrations. apply list_filter_iff. intros e'. rewrite Hid.
    split; [by intros ->|by intros [= ->]]. }
  rewrite Hreg. unfold captured. by destruct (entryFunc e).
Qed.

Lemma registrations_scheduled id e l s :
  registrations id s = e :: l → scheduledJobs s !! id = Some (entryID e).
Proof.
  intros Hreg. assert (e ∈ registrations id s) as Hin by (rewrite Hreg; left).
  by apply list_elem_of_filter in Hin as [? _].
Qed.

Lemma applyAll_app parse lv ops1 ops2 s :
  applyAll parse lv (ops1 ++ ops2) s
  = applyAll parse lv ops1 s ≫= applyAll parse lv ops2.
Proof.
  revert s. induction ops1 as [|op ops1 IH]; intros s; simpl; [done|].
  destruct (apply parse lv op s); simpl; auto.
Qed.

Lemma scheduled_apply parse lv cfg op s s' :
  scheduled parse lv cfg s → apply parse lv op s = Some s' →
  scheduled parse lv cfg s'.
Proof.
  intros (t0 & s0 & ops & Hnew & Hops) Hop.
  exists t0, s0, (ops ++ [op]). split; [done|].
  rewrite applyAll_app, Hops. simpl. by rewrite Hop.
Qed.

Lemma stateAfterOps_scheduled lv ops :
  is_Some (applyAll fiveFields lv ops sampleScheduler) →
  scheduled fiveFields lv sampleConfig (stateAfterOps lv ops).
Proof.
  intros [s Hs]. exists 1000, sampleScheduler, ops. split; [done|].
  unfold stateAfterOps. by rewrite Hs.
Qed.

(** * The scheduler: add twice, the callbacks, and restart *)

(** C5, as the code has it. In every state the scheduler reaches, AddJob on
    an active job whose rule parses returns nil and leaves exactly one
    entry for the job's identifier, with the job's rule. On an active job
    whose rule does not parse it returns "failed to add job to scheduler:
    ..." after it has removed the identifier's existing entry: the entries
    of all other identifiers are as before, and the table is as before
    only when the identifier was not scheduled. *)
Theorem AddJob_registers_or_unschedules parse lv cfg s p j :
  scheduled parse lv cfg s → heap s !! p = Some j → IsActive j = true →
  (parse (Schedule j) = None →
   ∃ s' e, AddJob parse p s = Ret (None, s')
           ∧ registrations (ID j) s' = [e]
           ∧ entrySpec e = Schedule j
           ∧ scheduledJobs s' !! ID j = Some (entryID e)
           ∧ GetScheduledJobsCount s' = length (entries (cron s')))
  ∧ (∀ err, parse (Schedule j) = Some err →
       ∃ s', AddJob parse p s
             = Ret (Some ("failed to add job to scheduler: " +:+ err), s')
             ∧ scheduledJobs s' = delete (ID j) (scheduledJobs s)
             ∧ registrations (ID j) s' = []
             ∧ (∀ id, id ≠ ID j →
                      scheduledJobs s' !! id = scheduledJobs s !! id
                      ∧ registrations id s' = registrations id s)
             ∧ (scheduledJobs s !! ID j = None →
                scheduledJobs s' = scheduledJobs s
                ∧ entries (cron s') = entries (cron s))
             ∧ (is_Some (scheduledJobs s !! ID j) →
                (length (entries (cron s')) < length (entries (cron s)))%nat)).
Proof.
  intros [Ht _ Hmu _ _ _ _]%scheduled_ok Hp Hact. split.
  - intros Hparse.
    destruct (addJobLocked_parses parse p s j Ht Hp Hact Hparse)
      as (s' & Hadd & Hid & Hreg & _ & Hsize & _).
    exists s'. eexists. unfold AddJob. rewrite Hmu. by split_and!.
  - intros err Hparse.
    destruct (addJobLocked_parse_error parse p s j err Ht Hp Hact Hparse)
      as (s' & Hadd & _ & Hreg & Hother & _).
    exists s'. unfold AddJob. rewrite Hmu.
    rewrite (addJobLocked_unfold parse p s j Hp), Hact, Hparse in Hadd.
    injection Hadd as <-. split_and!; try done.
    + by rewrite (addJobLocked_unfold parse p s j Hp), Hact, Hparse.
    + apply removeExisting_map.
    + intros Hnone. unfold removeExisting. by rewrite Hnone.
    + intros [eid Heid]. rewrite removeExisting_entries.
      pose proof (ok_live s Ht _ _ Heid) as [e [-> He]]%list_elem_of_fmap.
      apply list_elem_of_split in He as (l1 & l2 & ->).
      rewrite filter_app, filter_cons_False by (intros Hne; by apply Hne).
      rewrite !length_app. simpl.
      pose proof (length_filter (λ e0, scheduledJobs s !! ID j ≠ Some (entryID e0)) l1).
      pose proof (length_filter (λ e0, scheduledJobs s !! ID j ≠ Some (entryID e0)) l2).
      lia.
Qed.

Lemma AddJob_registers_or_unschedules_witness :
  ∃ s', AddJob fiveFields 1%nat (stateAfterOps true rescheduleOps)
        = Ret (Some "failed to add job to scheduler: expected exactly 5 fields, found 2: [every day]", s')
        ∧ registrations (ID healthJob) s' = []
        ∧ (length (entries (cron s'))
           < length (entries (cron (stateAfterOps true rescheduleOps))))%nat.
Proof.
  destruct (AddJob_registers_or_unschedules fiveFields true sampleConfig
              (stateAfterOps true rescheduleOps) 1%nat brokenHealthJob)
    as (_ & H).
  - apply stateAfterOps_scheduled. vm_compute. eauto.
  - reflexivity.
  - reflexivity.
  - destruct (H "expected exactly 5 fields, found 2: [every day]" eq_refl)
      as (s' & Hadd & _ & Hreg & _ & _ & Hless).
    exists s'. split; [exact Hadd|]. split; [exact Hreg|].
    apply Hless. by eexists.
Defined.

(** C5 as stated fails for a job that is already scheduled: AddJob removes
    its entry before the new rule is parsed, so after the error the entry
    that was there is gone and the table is empty. *)
Lemma AddJob_parse_error_drops_existing_entry :
  is_Some (applyAll fiveFields true (rescheduleOps ++ [OpAddJob 1%nat])
             sampleScheduler)
  ∧ scheduledJobs (stateAfterOps true rescheduleOps) !! ID healthJob
    = Some 1%nat
  ∧ entrySpec <$> entries (cron (stateAfterOps true rescheduleOps))
    = ["0 9 * * *"]
  ∧ fst <$> returned (AddJob fiveFields 1%nat (stateAfterOps true rescheduleOps))
    = Some (Some "failed to add job to scheduler: expected exactly 5 fields, found 2: [every day]")
  ∧ scheduledJobs (stateAfterOps true (rescheduleOps ++ [OpAddJob 1%nat]))
      !! ID healthJob = None
  ∧ entries (cron (stateAfterOps true (rescheduleOps ++ [OpAddJob 1%nat])))
    = [].
Proof. split_and!; first [by vm_compute|vm_compute; by eauto]. Qed.




(** C4: the run on which the code departs from the claim. With one range
    variable for the whole loop (Go before 1.22), the scheduler is started
    with nothing to load and its first reload fetches healthJob and
    reportJob. Both are scheduled, healthJob under entry 1. The firing of
    entry 1 passes reportJob to ExecuteJob: the callback holds the address
    of the range variable and copies what is there when it fires. With one
    variable per iteration the same firing passes healthJob. *)
Lemma reloaded_callback_runs_last_fetched_job :
  is_Some (applyAll fiveFields false reloadedOps sampleScheduler)
  ∧ scheduledJobs (stateAfterOps false reloadedOps) !! ID healthJob
    = Some 1%nat
  ∧ scheduledJobs (stateAfterOps false reloadedOps) !! ID reportJob
    = Some 2%nat
  ∧ firedJob 1 (stateAfterOps false reloadedOps) = Some reportJob
  ∧ firedJob 2 (stateAfterOps false reloadedOps) = Some reportJob
  ∧ firedJob 1 (stateAfterOps true reloadedOps) = Some healthJob.
Proof. split_and!; first [by vm_compute|vm_compute; by eauto]. Qed.

(** C9: the run on which the code departs from the claim. The scheduler is
    started, stopped and started again. The second Start returns nil and
    the scheduler reports that it is running, but the context made by
    NewScheduler is still cancelled: the tick of the new reload goroutine
    is not due, the exit case of its select is, and when it has taken it
    the scheduler is running with no reload goroutine and no reload has
    happened. *)
Lemma restarted_scheduler_loses_its_reloader :
  is_Some (applyAll fiveFields true
             (restartedOps ++ [OpReloader 0 false (inl [])]) sampleScheduler)
  ∧ IsRunning (stateAfterOps true restartedOps) = true
  ∧ ctxCancelled (stateAfterOps true restartedOps) = true
  ∧ length (reloaders (stateAfterOps true restartedOps)) = 1%nat
  ∧ reloaderSelect fiveFields true 0 true (inl [])
      (stateAfterOps true restartedOps) = None
  ∧ IsRunning (stateAfterOps true
                 (restartedOps ++ [OpReloader 0 false (inl [])])) = true
  ∧ reloaders (stateAfterOps true
                 (restartedOps ++ [OpReloader 0 false (inl [])])) = []
  ∧ reloadCount (stateAfterOps true
                   (restartedOps ++ [OpReloader 0 false (inl [])])) = 0%nat.
Proof. split_and!; first [by vm_compute|vm_compute; by eauto]. Qed.

(** * The scheduler: what its methods do *)

(** X1: in every state the scheduler reaches, AddJob on an active job whose
    schedule parses returns nil; afterwards the job's identifier has exactly
    one cron entry, the new one, with the job's schedule and a callback on
    the pointer passed; the registrations of all other identifiers are as
    before, and the map has as many keys as the engine has entries. *)
Theorem AddJob_registers_exactly_once parse lv cfg s p j :
  scheduled parse lv cfg s → heap s !! p = Some j → IsActive j = true →
  parse (Schedule j) = None →
  ∃ s', AddJob parse p s = Ret (None, s')
        ∧ scheduledJobs s' !! ID j = Some (S (nextID (cron s)))
        ∧ registrations (ID j) s'
          = [mkEntry (S (nextID (cron s))) (Schedule j) (createJobFunction p)]
        ∧ (∀ id, id ≠ ID j →
                 scheduledJobs s' !! id = scheduledJobs s !! id
                 ∧ registrations id s' = registrations id s)
        ∧ GetScheduledJobsCount s' = length (entries (cron s')).
Proof.
  intros [Ht _ Hmu _ _ _ _]%scheduled_ok Hp Hact Hparse.
  destruct (addJobLocked_parses parse p s j Ht Hp Hact Hparse)
    as (s' & Hadd & ? & ? & ? & ? & _).
  exists s'. unfold AddJob. by rewrite Hmu.
Qed.

Lemma AddJob_registers_exactly_once_witness :
  ∃ s', AddJob fiveFields 0%nat (stateAfterOps true oneJobOps) = Ret (None, s')
        ∧ scheduledJobs s' !! ID healthJob = Some 1%nat
        ∧ registrations (ID healthJob) s'
          = [mkEntry 1%nat "0 9 * * *" (createJobFunction 0%nat)].
Proof.
  destruct (AddJob_registers_exactly_once fiveFields true sampleConfig
              (stateAfterOps true oneJobOps) 0%nat healthJob)
    as (s' & Hadd & Hid & Hreg & _).
  - apply stateAfterOps_scheduled. vm_compute. eauto.
  - reflexivity.
  - reflexivity.
  - reflexivity.
  - exists s'. split; [exact Hadd|]. split; [exact Hid|exact Hreg].
Defined.

(** X2: in every state the scheduler reaches, AddJob on an active job whose
    schedule does not parse returns "failed to add job to scheduler: ..."
    after it has removed the identifier's existing registration: the
    identifier is no longer scheduled, whether it was before or not. The
    registrations of all other identifiers are as before. *)
Theorem AddJob_parse_error_unschedules parse lv cfg s p j err :
  scheduled parse lv cfg s → heap s !! p = Some j → IsActive j = true →
  parse (Schedule j) = Some err →
  ∃ s', AddJob parse p s
        = Ret (Some ("failed to add job to scheduler: " +:+ err), s')
        ∧ scheduledJobs s' !! ID j = None
        ∧ registrations (ID j) s' = []
        ∧ (∀ id, id ≠ ID j →
                 scheduledJobs s' !! id = scheduledJobs s !! id
                 ∧ registrations id s' = registrations id s)
        ∧ GetScheduledJobsCount s' = length (entries (cron s')).
Proof.
  intros [Ht _ Hmu _ _ _ _]%scheduled_ok Hp Hact Hparse.
  destruct (addJobLocked_parse_error parse p s j err Ht Hp Hact Hparse)
    as (s' & Hadd & ? & ? & ? & ? & _).
  exists s'. unfold AddJob. by rewrite Hmu.
Qed.

Lemma AddJob_parse_error_unschedules_witness :
  scheduledJobs (stateAfterOps true rescheduleOps) !! ID healthJob = Some 1%nat
  ∧ ∃ s', AddJob fiveFields 1%nat (stateAfterOps true rescheduleOps)
          = Ret (Some "failed to add job to scheduler: expected exactly 5 fields, found 2: [every day]", s')
          ∧ scheduledJobs s' !! ID healthJob = None.
Proof.
  split; [reflexivity|].
  destruct (AddJob_parse_error_unschedules fiveFields true sampleConfig
              (stateAfterOps true rescheduleOps) 1%nat brokenHealthJob
              "expected exactly 5 fields, found 2: [every day]")
    as (s' & Hadd & Hid & _).
  - apply stateAfterOps_scheduled. vm_compute. eauto.
  - reflexivity.
  - reflexivity.
  - reflexivity.
  - exists s'. split; [exact Hadd|exact Hid].
Defined.

(** X3: in every state the scheduler reaches, the scheduled-jobs map and
    the cron engine agree: the map has as many keys as the engine has
    entries, entry ids are distinct, no identifier has two registrations,
    every key has exactly the entry it points to, every entry belongs to a
    key and its callback holds the address of a job variable; the lock is
    free and the engine runs exactly when the scheduler says it is running. *)
Theorem scheduler_table_consistent parse lv cfg s :
  scheduled parse lv cfg s →
  GetScheduledJobsCount s = length (entries (cron s))
  ∧ NoDup (entryIDs s)
  ∧ (∀ id, (length (registrations id s) ≤ 1)%nat)
  ∧ (∀ id eid, scheduledJobs s !! id = Some eid →
               ∃ e, registrations id s = [e] ∧ entryID e = eid)
  ∧ (∀ e, e ∈ entries (cron s) →
          (∃ id, scheduledJobs s !! id = Some (entryID e))
          ∧ is_Some (heap s !! captured e))
  ∧ muHeld s = false
  ∧ cronRunning (cron s) = isRunning s.
Proof.
  intros [Ht Hcl Hmu Hcr _ _ _]%scheduled_ok.
  split_and!; try done.
  - by apply table_size.
  - by destruct Ht.
  - intros id. by apply registrations_le_1.
  - intros id eid Hid.
    pose proof (registrations_le_1 id s Ht) as Hle.
    pose proof (ok_live s Ht _ _ Hid) as [e [-> He]]%list_elem_of_fmap.
    assert (e ∈ registrations id s) as Hin
      by by apply list_elem_of_filter.
    destruct (registrations id s) as [|e' [|e'' l]] eqn:Hreg; simpl in Hle;
      [by apply elem_of_nil in Hin| |lia].
    apply list_elem_of_singleton in Hin as ->. eauto.
  - intros e He. split; [|by apply Hcl].
    apply (ok_owned s Ht). by apply list_elem_of_fmap_2.
Qed.

Lemma scheduler_table_consistent_witness :
  GetScheduledJobsCount (stateAfterOps false runningOps) = 1%nat
  ∧ cronRunning (cron (stateAfterOps false runningOps)) = true.
Proof.
  destruct (scheduler_table_consistent fiveFields false sampleConfig
              (stateAfterOps false runningOps))
    as (Hcount & _ & _ & _ & _ & _ & Hrun).
  - apply stateAfterOps_scheduled. vm_compute. eauto.
  - split; [exact Hcount|exact Hrun].
Defined.

(** X4: in every state the scheduler reaches, RemoveJob returns; afterwards
    the identifier is not scheduled and has no cron entry, all other
    identifiers are as before, and the engine's counter of entry ids is
    unchanged, so the id of the removed entry is not given out again.
    Removing an identifier that is not scheduled changes nothing. *)
Theorem RemoveJob_unschedules parse lv cfg s id :
  scheduled parse lv cfg s →
  ∃ s', RemoveJob id s = Ret s'
        ∧ scheduledJobs s' = delete id (scheduledJobs s)
        ∧ registrations id s' = []
        ∧ (∀ id', id' ≠ id → registrations id' s' = registrations id' s)
        ∧ GetScheduledJobsCount s' = length (entries (cron s'))
        ∧ nextID (cron s') = nextID (cron s)
        ∧ (scheduledJobs s !! id = None → s' = s).
Proof.
  intros [Ht _ Hmu _ _ _ _]%scheduled_ok.
  exists (removeExisting id s). unfold RemoveJob. rewrite Hmu.
  destruct (registrations_removeExisting id s Ht) as [Hnil Hother].
  pose proof (removeExisting_frame id s) as (Hn & _).
  split_and!; try done.
  - apply removeExisting_map.
  - by apply table_size, removeExisting_table_ok.
  - intros Hnone. unfold removeExisting. by rewrite Hnone.
Qed.

Lemma RemoveJob_unschedules_witness :
  GetScheduledJobsCount (stateAfterOps true addedOps) = 1%nat
  ∧ ∃ s', RemoveJob (ID healthJob) (stateAfterOps true addedOps) = Ret s'
          ∧ registrations (ID healthJob) s' = []
          ∧ nextID (cron s') = 1%nat.
Proof.
  split; [reflexivity|].
  destruct (RemoveJob_unschedules fiveFields true sampleConfig
              (stateAfterOps true addedOps) (ID healthJob))
    as (s' & Hrem & _ & Hreg & _ & _ & Hn & _).
  - apply stateAfterOps_scheduled. vm_compute. eauto.
  - exists s'. split; [exact Hrem|]. split; [exact Hreg|exact Hn].
Defined.

Lemma apply_ctxCancelled parse lv op s s' :
  sched_ok s → apply parse lv op s = Some s' → ctxCancelled s = true →
  ctxCancelled s' = true.
Proof.
  intros [Ht Hcl Hmu Hcr Hst Hre Hal] Hop Hctx.
  destruct op as [j|p j|p|id|answer|tickFirst|d|k takeTick answer|id];
    simpl in Hop.
  - by injection Hop as <-.
  - destruct (heap s !! p); [|done]. by injection Hop as <-.
  - unfold AddJob in Hop. rewrite Hmu in Hop.
    destruct (heap s !! p) as [j|] eqn:Hp;
      [|unfold addJobLocked in Hop; rewrite Hp in Hop; done].
    destruct (addJobLocked_returns parse p s j Hp)
      as (r & s1 & Hadd & _ & _ & (_ & _ & Hx & _) & _).
    rewrite Hadd in Hop. injection Hop as <-. congruence.
  - unfold RemoveJob in Hop. rewrite Hmu in Hop. injection Hop as <-.
    pose proof (removeExisting_frame id s) as (_ & _ & _ & _ & _ & Hx & _).
    congruence.
  - rewrite (Start_cases _ _ _ _ Hmu) in Hop.
    destruct (isRunning s); [by injection Hop as <-|].
    destruct answer as [[|j jobs]|err]; simpl in Hop;
      [|done|by injection Hop as <-].
    injection Hop as <-. by destruct lv.
  - rewrite (Stop_cases _ _ Hmu) in Hop.
    destruct (isRunning s); [|by injection Hop as <-].
    destruct (_ && _); [done|]. by injection Hop as <-.
  - case_decide; [|done]. by injection Hop as <-.
  - unfold reloaderSelect in Hop.
    destruct (reloaders s !! k) as [tick|]; [|done]. destruct takeTick.
    + case_bool_decide; [|done].
      destruct (reloadJobs_returns parse lv answer s Hmu)
        as (r & s1 & Hre1 & _ & _ & _ & Hx & _).
      rewrite Hre1 in Hop. injection Hop as <-. simpl. congruence.
    + rewrite Hctx in Hop. by injection Hop as <-.
  - unfold fire in Hop. destruct (cronRunning (cron s)); [|done].
    destruct (filter _ _) as [|e l]; [done|]. simpl in Hop.
    destruct (entryFunc e) as [p]. destruct (heap s !! p); [|done].
    by injection Hop as <-.
Qed.

(** X5: Start holds the scheduler's lock while loadActiveJobs calls AddJob,
    which takes the same lock. When the store answers with at least one
    job, Start does not return. *)
Theorem Start_blocks_when_jobs_exist parse lv cfg s j jobs :
  scheduled parse lv cfg s → isRunning s = false →
  Start parse lv (inl (j :: jobs)) s = Deadlock.
Proof.
  intros [_ _ Hmu _ _ _ _]%scheduled_ok Hrun.
  by rewrite (Start_cases _ _ _ _ Hmu), Hrun.
Qed.

Lemma Start_blocks_when_jobs_exist_witness :
  Start fiveFields true (inl [healthJob]) sampleScheduler = Deadlock.
Proof.
  apply (Start_blocks_when_jobs_exist fiveFields true sampleConfig).
  - apply (stateAfterOps_scheduled true []). vm_compute. eauto.
  - reflexivity.
Defined.

(** X6: what Start returns otherwise. While the scheduler is running it
    answers "scheduler is already running" and changes nothing. When the
    store fails it answers "failed to load active jobs: failed to get
    active jobs: ..." and the scheduler is not running. When the store has
    no active job it returns nil: the scheduler and the cron engine run, the
    table is as before, and one reload goroutine waits for a tick five
    minutes from now. *)
Theorem Start_outcomes parse lv cfg s :
  scheduled parse lv cfg s →
  (isRunning s = true →
   ∀ answer, Start parse lv answer s
             = Ret (Some "scheduler is already running", s))
  ∧ (isRunning s = false →
     ∀ err, Start parse lv (inr err) s
            = Ret (Some ("failed to load active jobs: "
                         +:+ ("failed to get active jobs: " +:+ err)), s))
  ∧ (isRunning s = false →
     ∃ s', Start parse lv (inl []) s = Ret (None, s')
           ∧ isRunning s' = true ∧ cronRunning (cron s') = true
           ∧ reloaders s' = [clock s + reloadPeriod]
           ∧ scheduledJobs s' = scheduledJobs s
           ∧ entries (cron s') = entries (cron s)
           ∧ ctxCancelled s' = ctxCancelled s).
Proof.
  intros [_ _ Hmu _ Hst _ _]%scheduled_ok. split_and!.
  - intros Hrun answer. by rewrite (Start_cases _ _ _ _ Hmu), Hrun.
  - intros Hrun err. by rewrite (Start_cases _ _ _ _ Hmu), Hrun.
  - intros Hrun. rewrite (Start_cases _ _ _ _ Hmu), Hrun.
    eexists. split; [done|]. simpl. rewrite (Hst Hrun).
    by destruct lv.
Qed.

Lemma Start_outcomes_witness :
  ∃ s', Start fiveFields false (inl []) sampleScheduler = Ret (None, s')
        ∧ isRunning s' = true
        ∧ reloaders s' = [clock sampleScheduler + reloadPeriod].
Proof.
  destruct (Start_outcomes fiveFields false sampleConfig sampleScheduler)
    as (_ & _ & H).
  - apply (stateAfterOps_scheduled false []). vm_compute. eauto.
  - destruct H as (s' & Hs & Hrun & _ & Hre & _); [reflexivity|].
    exists s'. split; [exact Hs|]. split; [exact Hrun|exact Hre].
Defined.

(** X7: what Stop returns. When the scheduler is not running it returns nil
    and changes nothing. When it is running and no reload holds it up, it
    returns nil: the scheduler and the cron engine are stopped, the context
    is cancelled, no reload goroutine is left; the table keeps its entries,
    and no callback fires while the scheduler is stopped. *)
Theorem Stop_outcomes parse lv cfg s :
  scheduled parse lv cfg s →
  (isRunning s = false → ∀ tickFirst, Stop tickFirst s = Ret (None, s))
  ∧ (isRunning s = true →
     ∃ s', Stop false s = Ret (None, s')
           ∧ isRunning s' = false ∧ cronRunning (cron s') = false
           ∧ ctxCancelled s' = true ∧ reloaders s' = []
           ∧ scheduledJobs s' = scheduledJobs s
           ∧ entries (cron s') = entries (cron s)
           ∧ ∀ id, fire id s' = None).
Proof.
  intros [_ _ Hmu _ _ _ _]%scheduled_ok. split.
  - intros Hrun b. by rewrite (Stop_cases _ _ Hmu), Hrun.
  - intros Hrun. rewrite (Stop_cases _ _ Hmu), Hrun. simpl.
    eexists. split; [done|]. by split_and!.
Qed.

Lemma Stop_outcomes_witness :
  ∃ s', Stop false (stateAfterOps true runningOps) = Ret (None, s')
        ∧ isRunning s' = false
        ∧ scheduledJobs s' = scheduledJobs (stateAfterOps true runningOps)
        ∧ fire 1%nat s' = None.
Proof.
  destruct (Stop_outcomes fiveFields true sampleConfig
              (stateAfterOps true runningOps)) as (_ & H).
  - apply stateAfterOps_scheduled. vm_compute. eauto.
  - destruct H as (s' & Hs & Hrun & _ & _ & _ & Hm & _ & Hfire); [reflexivity|].
    exists s'. split; [exact Hs|]. split; [exact Hrun|].
    split; [exact Hm|apply Hfire].
Defined.

Lemma applyAll_ctxCancelled parse lv ops s s' :
  sched_ok s → applyAll parse lv ops s = Some s' → ctxCancelled s = true →
  ctxCancelled s' = true.
Proof.
  revert s. induction ops as [|op ops IH]; intros s Hok; simpl.
  - by intros [= <-].
  - destruct (apply parse lv op s) as [s1|] eqn:Hop; simpl; [|done].
    intros Hops Hctx. apply (IH s1); [by eapply sched_ok_apply|done|].
    by eapply apply_ctxCancelled.
Qed.

(** X8: the scheduler's context is made once, by NewScheduler, and Stop
    cancels it: once cancelled it stays cancelled whatever is called
    afterwards. A Start after a Stop therefore returns nil and reports the
    scheduler as running, but its reload goroutine finds the context done
    at its first select and exits: its tick is not due for five minutes,
    no reload has happened, and no reload goroutine is left. *)
Theorem cancelled_context_is_never_renewed parse lv cfg s :
  scheduled parse lv cfg s → ctxCancelled s = true →
  (∀ ops s', applyAll parse lv ops s = Some s' → ctxCancelled s' = true)
  ∧ (isRunning s = false →
     ∃ s1, Start parse lv (inl []) s = Ret (None, s1)
           ∧ isRunning s1 = true
           ∧ reloaders s1 = [clock s + reloadPeriod]
           ∧ (∀ answer, reloaderSelect parse lv 0 true answer s1 = None)
           ∧ ∃ s2, (∀ answer,
                      reloaderSelect parse lv 0 false answer s1 = Some (Ret s2))
                   ∧ isRunning s2 = true ∧ reloaders s2 = []
                   ∧ reloadCount s2 = reloadCount s).
Proof.
  intros Hs Hctx. pose proof (scheduled_ok _ _ _ _ Hs) as Hok.
  pose proof Hok as [_ _ Hmu _ Hst _ _]. split.
  - intros ops s' Hops. by eapply applyAll_ctxCancelled.
  - intros Hrun. rewrite (Start_cases _ _ _ _ Hmu), Hrun.
    destruct lv.
    all: eexists; split; [done|]; simpl; rewrite (Hst Hrun); simpl.
    all: split_and!; try done.
    all: try (intros answer; unfold reloaderSelect; simpl;
              rewrite bool_decide_eq_false_2; [done|unfold reloadPeriod; lia]).
    all: eexists; split_and!;
      [intros answer; unfold reloaderSelect; simpl; rewrite Hctx; done
      |done..].
Qed.

Lemma cancelled_context_is_never_renewed_witness :
  isRunning (stateAfterOps true stoppedOps) = false
  ∧ ∃ s1, Start fiveFields true (inl []) (stateAfterOps true stoppedOps)
          = Ret (None, s1)
          ∧ isRunning s1 = true
          ∧ ∃ s2, reloaderSelect fiveFields true 0 false (inl []) s1
                  = Some (Ret s2)
                  ∧ isRunning s2 = true ∧ reloaders s2 = []
                  ∧ reloadCount s2 = 0%nat.
Proof.
  split; [reflexivity|].
  destruct (cancelled_context_is_never_renewed fiveFields true sampleConfig
              (stateAfterOps true stoppedOps)) as (_ & H).
  - apply stateAfterOps_scheduled. vm_compute. eauto.
  - reflexivity.
  - destruct H as (s1 & Hs & Hrun & _ & _ & s2 & Hexit & Hrun2 & Hre & Hcount);
      [reflexivity|].
    exists s1. split; [exact Hs|]. split; [exact Hrun|].
    exists s2. split; [apply Hexit|]. split; [exact Hrun2|].
    split; [exact Hre|exact Hcount].
Defined.

(** X9: while the scheduler is running and Stop has never been called,
    exactly one reload goroutine is alive. It cannot take the exit case of
    its select. It reloads only when its tick is due; a reload returns,
    counts as one reload, and moves the tick five minutes on. *)
Theorem reloader_alive_until_first_Stop parse lv cfg s :
  scheduled parse lv cfg s → isRunning s = true → ctxCancelled s = false →
  ∃ tick,
    reloaders s = [tick]
    ∧ (∀ k answer, reloaderSelect parse lv k false answer s = None)
    ∧ (clock s < tick →
       ∀ answer, reloaderSelect parse lv 0 true answer s = None)
    ∧ (tick ≤ clock s →
       ∀ answer, ∃ s',
         reloaderSelect parse lv 0 true answer s = Some (Ret s')
         ∧ reloadCount s' = S (reloadCount s)
         ∧ reloaders s' = [tick + reloadPeriod]
         ∧ isRunning s' = true ∧ ctxCancelled s' = false).
Proof.
  intros [_ _ Hmu _ _ _ Hal]%scheduled_ok Hrun Hctx.
  specialize (Hal Hrun Hctx).
  destruct (reloaders s) as [|tick [|? ?]] eqn:Hre; simpl in Hal; try lia.
  exists tick. split_and!; [done| | |].
  - intros k answer. unfold reloaderSelect. rewrite Hre, Hctx.
    by destruct ([tick] !! k).
  - intros Hlt answer. unfold reloaderSelect. rewrite Hre. simpl.
    rewrite bool_decide_eq_false_2; [done|lia].
  - intros Hdue answer. unfold reloaderSelect. rewrite Hre. simpl.
    rewrite bool_decide_eq_true_2 by done.
    destruct (reloadJobs_returns parse lv answer s Hmu)
      as (r & s1 & -> & Hcount & _ & Hrun1 & Hctx1 & Hre1 & _).
    simpl. eexists. split; [done|]. simpl.
    rewrite Hre1, Hre. split_and!; try done; congruence.
Qed.

Lemma reloader_alive_until_first_Stop_witness :
  ∃ tick s',
    reloaders (stateAfterOps true tickDueOps) = [tick]
    ∧ reloaderSelect fiveFields true 0 true (inl [])
        (stateAfterOps true tickDueOps) = Some (Ret s')
    ∧ reloadCount s' = 1%nat
    ∧ reloaders s' = [tick + reloadPeriod].
Proof.
  destruct (reloader_alive_until_first_Stop fiveFields true sampleConfig
              (stateAfterOps true tickDueOps))
    as (tick & Hre & _ & _ & H).
  - apply stateAfterOps_scheduled. vm_compute. eauto.
  - reflexivity.
  - reflexivity.
  - destruct (H ltac:(injection Hre as <-; vm_compute; discriminate) (inl []))
      as (s' & Hsel & Hcount & Hre' & _).
    exists tick, s'. split; [exact Hre|]. split; [exact Hsel|].
    split; [exact Hcount|exact Hre'].
Defined.

(** X10: the callback made by createJobFunction keeps the pointer it was
    given and copies the job when it fires. After AddJob(p) has returned
    nil, a firing of the new entry passes to ExecuteJob whatever value p
    points to at that moment: when the caller has written j' through p after
    the registration, j' is executed. *)
Theorem callback_runs_value_at_fire_time parse lv cfg s p j :
  scheduled parse lv cfg s → isRunning s = true →
  heap s !! p = Some j → IsActive j = true → parse (Schedule j) = None →
  ∃ s1 eid,
    AddJob parse p s = Ret (None, s1)
    ∧ scheduledJobs s1 !! ID j = Some eid
    ∧ ∀ j', fire eid (assign p j' s1)
            = Some (Ret (j', set_executor (invoke j' (executor s1))
                               (assign p j' s1))).
Proof.
  intros [Ht _ Hmu Hcr _ _ _]%scheduled_ok Hrun Hp Hact Hparse.
  destruct (addJobLocked_parses parse p s j Ht Hp Hact Hparse)
    as (s1 & Hadd & Hid & Hreg & _).
  destruct (addJobLocked_returns parse p s j Hp)
    as (r' & s1' & Hadd' & _ & _ & (_ & _ & _ & _ & _ & _ & Hcr1) & _).
  rewrite Hadd in Hadd'. injection Hadd' as <- <-.
  exists s1, (S (nextID (cron s))). unfold AddJob. rewrite Hmu.
  split_and!; [done..|]. intros j'.
  rewrite (fire_registered (ID j) _
             (mkEntry (S (nextID (cron s))) (Schedule j) (createJobFunction p)) []).
  - unfold captured, assign; simpl. by rewrite lookup_insert_eq.
  - simpl. congruence.
  - done.
  - by rewrite <-Hreg.
Qed.

Lemma callback_runs_value_at_fire_time_witness :
  ∃ s1 eid,
    AddJob fiveFields 0%nat (stateAfterOps true startedOps) = Ret (None, s1)
    ∧ scheduledJobs s1 !! ID healthJob = Some eid
    ∧ fire eid (assign 0%nat reportJob s1)
      = Some (Ret (reportJob, set_executor (invoke reportJob (executor s1))
                                (assign 0%nat reportJob s1))).
Proof.
  destruct (callback_runs_value_at_fire_time fiveFields true sampleConfig
              (stateAfterOps true startedOps) 0%nat healthJob)
    as (s1 & eid & Hadd & Hid & Hfire).
  - apply stateAfterOps_scheduled. vm_compute. eauto.
  - reflexivity.
  - reflexivity.
  - reflexivity.
  - reflexivity.
  - exists s1, eid. split; [exact Hadd|]. split; [exact Hid|apply Hfire].
Defined.

(** X11: what the callbacks registered by reloadJobs execute. The loop
    captures the address of its range variable. When the fetched jobs are
    active, have distinct identifiers and schedules that parse, every one of
    them is scheduled after the reload; with one variable per iteration the
    callback of each job executes that job, and with one variable for the
    whole loop (Go before 1.22) the callback of every job executes the last
    job of the list. *)
Theorem reload_callbacks_share_loop_variable parse lv cfg s jobs :
  scheduled parse lv cfg s → isRunning s = true → NoDup (ID <$> jobs) →
  (∀ j, j ∈ jobs → IsActive j = true ∧ parse (Schedule j) = None) →
  ∃ s', reloadJobs parse lv (inl jobs) s = Ret (None, s')
        ∧ ∀ j, j ∈ jobs →
               ∃ eid s'', scheduledJobs s' !! ID j = Some eid
                          ∧ fire eid s'
                            = Some (Ret (if lv then j else default j (last jobs),
                                         s'')).
Proof.
  intros Hok%scheduled_ok Hrun Hnd Hall.
  destruct (reloadJobs_unfold parse lv jobs s Hok)
    as (shared & s2 & -> & Ht2 & _ & _ & _ & Hcr2).
  eexists. split; [done|]. intros j Hj.
  destruct (reloadLoop_runs parse lv shared jobs s2 Ht2 Hnd Hall j Hj)
    as (e & Hreg & _ & Hheap).
  destruct (reloadLoop_ok parse lv shared jobs s2)
    as ((_ & _ & _ & _ & _ & _ & Hcr) & _).
  pose proof (registrations_scheduled _ _ _ _ Hreg) as Hid.
  exists (entryID e). eexists. split; [done|].
  rewrite (fire_registered (ID j) _ e []); [|congruence|done|done].
  by rewrite Hheap.
Qed.

Lemma reload_callbacks_share_loop_variable_witness :
  ∃ s' eid s'',
    reloadJobs fiveFields false (inl [healthJob; reportJob])
      (stateAfterOps false emptyRunningOps) = Ret (None, s')
    ∧ scheduledJobs s' !! ID healthJob = Some eid
    ∧ fire eid s' = Some (Ret (reportJob, s'')).
Proof.
  destruct (reload_callbacks_share_loop_variable fiveFields false sampleConfig
              (stateAfterOps false emptyRunningOps) [healthJob; reportJob])
    as (s' & Hre & Hfire).
  - apply stateAfterOps_scheduled. vm_compute. eauto.
  - reflexivity.
  - apply (bool_decide_unpack _). by vm_compute.
  - apply Forall_forall, (bool_decide_unpack _). by vm_compute.
  - destruct (Hfire healthJob) as (eid & s'' & Hid & Hf); [by left|].
    exists s', eid, s''. split; [exact Hre|]. split; [exact Hid|exact Hf].
Defined.

(** X12: what is scheduled after reloadJobs. When the store answers with
    jobs of distinct identifiers, reloadJobs returns nil and counts as one
    reload; afterwards no identifier outside the answer is scheduled; an
    active job of the answer is scheduled when its schedule parses and not
    scheduled when it does not; an inactive job of the answer is left as it
    was. When the store fails, reloadJobs returns "failed to get active
    jobs: ..." and the table is as before. *)
Theorem reload_schedules_fetched_jobs parse lv cfg s jobs :
  scheduled parse lv cfg s → NoDup (ID <$> jobs) →
  (∃ s', reloadJobs parse lv (inl jobs) s = Ret (None, s')
         ∧ reloadCount s' = S (reloadCount s)
         ∧ (∀ id, id ∉ ID <$> jobs → scheduledJobs s' !! id = None)
         ∧ (∀ j, j ∈ jobs →
                 if IsActive j then
                   match parse (Schedule j) with
                   | None => is_Some (scheduledJobs s' !! ID j)
                   | Some _ => scheduledJobs s' !! ID j = None
                   end
                 else scheduledJobs s' !! ID j = scheduledJobs s !! ID j)
         ∧ GetScheduledJobsCount s' = length (entries (cron s')))
  ∧ (∀ err, ∃ s',
       reloadJobs parse lv (inr err) s
       = Ret (Some ("failed to get active jobs: " +:+ err), s')
       ∧ scheduledJobs s' = scheduledJobs s ∧ cron s' = cron s).
Proof.
  intros Hok%scheduled_ok Hnd. split; [|by eauto].
  destruct (reloadJobs_unfold parse lv jobs s Hok)
    as (shared & s2 & -> & Ht2 & _ & Hm2 & Hcount & _).
  eexists. split; [done|].
  destruct (reloadLoop_ok parse lv shared jobs s2)
    as ((_ & _ & _ & _ & Hrc & _) & _ & Htab & _).
  split_and!.
  - congruence.
  - intros id Hnin.
    destruct (reloadLoop_other parse lv shared jobs s2 id Ht2 Hnin) as [-> _].
    rewrite Hm2. by rewrite decide_False.
  - intros j Hj.
    pose proof (reloadLoop_map parse lv shared jobs s2 Ht2 Hnd j Hj) as Hmap.
    cbv zeta in Hmap. destruct (IsActive j); [done|].
    rewrite Hmap, Hm2. rewrite decide_True; [done|].
    by apply list_elem_of_fmap_2.
  - by apply table_size, Htab.
Qed.

Lemma reload_schedules_fetched_jobs_witness :
  scheduledJobs (stateAfterOps true runningOps) !! ID healthJob = Some 1%nat
  ∧ ∃ s', reloadJobs fiveFields true (inl [brokenHealthJob; reportJob])
            (stateAfterOps true runningOps) = Ret (None, s')
          ∧ scheduledJobs s' !! ID brokenHealthJob = None
          ∧ is_Some (scheduledJobs s' !! ID reportJob).
Proof.
  split; [reflexivity|].
  destruct (reload_schedules_fetched_jobs fiveFields true sampleConfig
              (stateAfterOps true runningOps) [brokenHealthJob; reportJob])
    as ((s' & Hre & _ & _ & Hjobs & _) & _).
  - apply stateAfterOps_scheduled. vm_compute. eauto.
  - apply (bool_decide_unpack _). by vm_compute.
  - exists s'. split; [exact Hre|]. split.
    + apply (Hjobs brokenHealthJob). by left.
    + apply (Hjobs reportJob). right. by left.
Defined.

(** X26: adding a job and removing it again. In every state the scheduler
    reaches, for an active job whose schedule parses and whose identifier
    is not scheduled, AddJob followed by RemoveJob of its identifier leaves
    the scheduled-jobs map and the entries of the cron engine as they were
    before; only the engine's counter of entry ids has moved on. *)
Theorem AddJob_then_RemoveJob_restores_the_table parse lv cfg s p j :
  scheduled parse lv cfg s → heap s !! p = Some j → IsActive j = true →
  parse (Schedule j) = None → scheduledJobs s !! ID j = None →
  ∃ s1 s2, AddJob parse p s = Ret (None, s1)
           ∧ RemoveJob (ID j) s1 = Ret s2
           ∧ scheduledJobs s2 = scheduledJobs s
           ∧ entries (cron s2) = entries (cron s)
           ∧ nextID (cron s2) = S (nextID (cron s)).
Proof.
  intros [Ht _ Hmu _ _ _ _]%scheduled_ok Hp Hact Hparse Hnone.
  assert (removeExisting (ID j) s = s) as Hsame
    by (unfold removeExisting; by rewrite Hnone).
  unfold AddJob, RemoveJob. rewrite Hmu.
  rewrite (addJobLocked_unfold _ _ _ _ Hp), Hact, Hparse, Hsame.
  eexists _, _. split; [done|].
  assert (muHeld (registered (ID j) (Schedule j) p s) = false) as -> by done.
  split; [done|].
  assert (∀ e, e ∈ entries (cron s) → entryID e ≠ S (nextID (cron s))) as Hold.
  { intros e He Heq.
    assert (entryID e ∈ entryIDs s) as Hin by by apply list_elem_of_fmap_2.
    apply (ok_fresh s Ht) in Hin. lia. }
  unfold removeExisting, registered; simpl. rewrite lookup_insert_eq. simpl.
  split_and!; [|
    |done].
  - rewrite delete_insert_eq. by apply delete_id.
  - unfold cronRemove; simpl. rewrite filter_app.
    rewrite (filter_none _ [_]), app_nil_r.
    + clear Hnone Hsame. induction (entries (cron s)) as [|e l IH]; [done|].
      rewrite filter_cons_True by (apply Hold; by left).
      f_equal. apply IH. intros e' He'. apply Hold. by right.
    + intros e ->%list_elem_of_singleton. simpl. by intros ?.
Qed.

Lemma AddJob_then_RemoveJob_restores_the_table_witness :
  ∃ s1 s2,
    AddJob fiveFields 0%nat (stateAfterOps true oneJobOps) = Ret (None, s1)
    ∧ RemoveJob (ID healthJob) s1 = Ret s2
    ∧ scheduledJobs s2 = scheduledJobs (stateAfterOps true oneJobOps)
    ∧ nextID (cron s2) = 1%nat.
Proof.
  destruct (AddJob_then_RemoveJob_restores_the_table fiveFields true
              sampleConfig (stateAfterOps true oneJobOps) 0%nat healthJob)
    as (s1 & s2 & Hadd & Hrem & Hmap & _ & Hn).
  - apply stateAfterOps_scheduled. vm_compute. eauto.
  - reflexivity.
  - reflexivity.
  - reflexivity.
  - reflexivity.
  - exists s1, s2. split; [exact Hadd|]. split; [exact Hrem|].
    split; [exact Hmap|exact Hn].
Defined.

(** * The executor: permits, outcomes and job kinds *)

Lemma countIf_none P (l : list Call) :
  Forall (λ c, P c = false) l → countIf P l = 0%nat.
Proof. induction 1 as [|c l Hc _ IH]; simpl; [done|]. by rewrite Hc, IH. Qed.

(** X13: no permit and no Run Tracker entry is lost. In every state the
    executor reaches, once every call of ExecuteJob has returned, by
    whichever path, the semaphore is empty and the Run Tracker has no
    entry. *)
Theorem permits_and_tracker_are_given_back cfg s :
  reachable cfg s → Forall (λ c, hasReturned c = true) (calls s) →
  held s = 0%nat ∧ runningJobs s = ∅ ∧ GetRunningJobsCount s = 0%nat.
Proof.
  intros [Hcalls Hheld _ Htr]%reachable_sys_ok Hall.
  assert (∀ i c, calls s !! i = Some c → defers c = []) as Hdef.
  { intros i c Hc. destruct (Hcalls i c Hc) as [HM _ _ _].
    rewrite Forall_lookup in Hall. specialize (Hall i c Hc).
    unfold hasReturned in Hall. unfold main_ok in HM.
    destruct (mpc c); try done. by destruct HM. }
  assert (runningJobs s = ∅) as Hempty.
  { apply map_empty. intros id. apply eq_None_not_Some. intros [p Hp].
    destruct (Htr id p Hp) as (c & Hc & Ht & _).
    unfold tracked in Ht. rewrite (Hdef _ _ Hc) in Ht.
    apply bool_decide_eq_true in Ht. by apply elem_of_nil in Ht. }
  split_and!; [|done|].
  - rewrite Hheld. apply countIf_none, Forall_lookup. intros i c Hc.
    unfold holding. rewrite (Hdef _ _ Hc).
    apply bool_decide_eq_false. by intros ?%elem_of_nil.
  - unfold GetRunningJobsCount. by rewrite Hempty, map_size_empty.
Qed.

Lemma permits_and_tracker_are_given_back_witness :
  held (stateAfter sampleConfig 1000 lateSuccessEvents') = 0%nat
  ∧ runningJobs (stateAfter sampleConfig 1000 lateSuccessEvents') = ∅.
Proof.
  destruct (permits_and_tracker_are_given_back sampleConfig
              (stateAfter sampleConfig 1000 lateSuccessEvents'))
    as (Hheld & Hempty & _).
  - apply stateAfter_reachable; [lia|vm_compute; eauto].
  - apply (bool_decide_unpack _). by vm_compute.
  - split; [exact Hheld|exact Hempty].
Defined.

(** X14: what a nil return of ExecuteJob tells. In every state the
    executor reaches, a call that returned nil created its record and
    called the capability exactly once; the capability returned nil, or it
    panicked and recover() returned nil for the panic (the one panic the
    deferred function does not turn into an error); the final update was
    accepted, the timeout branch was not taken, and the record in memory
    is completed. *)
Theorem nil_return_means_completed_and_saved cfg s i c :
  reachable cfg s → calls s !! i = Some c → mpc c = MReturned None →
  creates c = [None]
  ∧ (execs c = [Returned None] ∨ execs c = [Panicked None])
  ∧ finalUpdates c = [None]
  ∧ timeoutMarks c = [] ∧ currentStatus c = ExecutionStatusCompleted
  ∧ finished c.
Proof.
  intros Hs Hc Hr. pose proof (reachable_call_ok _ _ _ _ Hs Hc) as Hok.
  pose proof (returned_exit _ _ Hok Hr) as Hex.
  destruct Hex as [(_ & _ & [? ?] & _)|[(e & ? & _)|[Hrec|(_ & _ & ? & _)]]];
    try done.
  destruct Hrec as (Hcr & Ht & Hw & _ & [je Hje]).
  destruct Hok as [HM HW HC HS]. unfold worker_ok in HW. rewrite Hw in HW.
  destruct HW as [(err & _ & _ & _ & ?)|(e & res & Hf & Hg & Hu & Hres)];
    [done|].
  destruct res as [u|]; [done|]. simpl in Hres. subst e.
  unfold guarded in Hg.
  destruct (execs c) as [|x [|? ?]] eqn:Hx; try done; try (by destruct Hg).
  assert (x = Returned None ∨ x = Panicked None) as Hcases.
  { destruct x as [[?|]|[?|]]; simpl in Hg; simplify_eq; auto. }
  destruct Hf as (m1 & m0 & Hwm & _).
  specialize (HS _ Hje).
  rewrite lastMark_marks, (marks_without_timeout _ Ht), Hwm in HS.
  simpl in HS. split_and!; try done.
  - destruct Hcases as [->| ->]; auto.
  - unfold currentStatus. rewrite Hje. by simplify_eq.
  - split; [by eexists|right; by eexists].
Qed.

Lemma nil_return_means_completed_and_saved_witness :
  finalUpdates (callAfter sampleConfig 1000 successEvents 0) = [None]
  ∧ currentStatus (callAfter sampleConfig 1000 successEvents 0)
    = ExecutionStatusCompleted
  ∧ finalUpdates (callAfter sampleConfig 1000 nilPanicEvents 0) = [None]
  ∧ currentStatus (callAfter sampleConfig 1000 nilPanicEvents 0)
    = ExecutionStatusCompleted.
Proof.
  destruct (nil_return_means_completed_and_saved sampleConfig
              (stateAfter sampleConfig 1000 successEvents) 0
              (callAfter sampleConfig 1000 successEvents 0))
    as (_ & _ & Hu & _ & Hst & _).
  - apply stateAfter_reachable; [lia|vm_compute; eauto].
  - apply callAfter_lookup. vm_compute; eauto.
  - reflexivity.
  - destruct (nil_return_means_completed_and_saved sampleConfig
                (stateAfter sampleConfig 1000 nilPanicEvents) 0
                (callAfter sampleConfig 1000 nilPanicEvents 0))
      as (_ & _ & Hu' & _ & Hst' & _).
    + apply stateAfter_reachable; [lia|vm_compute; eauto].
    + apply callAfter_lookup. vm_compute; eauto.
    + reflexivity.
    + split; [exact Hu|]. split; [exact Hst|]. split; [exact Hu'|exact Hst'].
Defined.

Lemma lookup_ok_new jb : lookup_ok (newCall jb).
Proof.
  split; simpl.
  - intros [(? & [?|?])|[(? & [?|?])|(? & ? & H)]]; try done.
    by apply elem_of_nil in H.
  - done.
  - by intros ? ? ?%elem_of_nil.
Qed.

Lemma lookup_ok_main i a s c s1 c' :
  lookup_ok c → main_step i a s c = Some (s1, c') → lookup_ok c'.
Proof.
  unfold main_step, runDeferred.
  intros [H1 H2 H3] Hstep. destruct c as [jb mp wp ex df dl ca ch tr].
  unfold pastLookup in *; simpl in *. unfold_setters; simpl in *.
  repeat (case_match; simplify_eq/=); split; unfold pastLookup; simpl.
  all: try (intros ? Hx; by apply H2).
  all: try (intros [Hx|[Hx|(st & m & Hx)]];
            [first [by apply H1; left|by destruct Hx as [? [?|?]]]
            |first [by apply H1; right; left|by destruct Hx as [? [?|?]]]
            |apply H1; right; right; exists st, m;
             rewrite ?elem_of_cons in Hx; naive_solver]).
  all: try (intros st m Hx; apply (H3 st); clear H1 H2 H3;
            rewrite ?elem_of_cons in Hx; naive_solver).
Qed.

Lemma lookup_ok_worker cfg a s c c' :
  executors s = registry cfg →
  lookup_ok c → worker_step a s c = Some c' → lookup_ok c'.
Proof.
  unfold worker_step.
  intros HG [H1 H2 H3] Hstep. destruct c as [jb mp wp ex df dl ca ch tr].
  unfold pastLookup in *; simpl in *. unfold_setters; simpl in *.
  destruct wp; try done.
  3:{ destruct a; try done. rewrite HG in Hstep.
      destruct (registry cfg !! JobType_ jb) as [e|] eqn:E.
      - simplify_eq/=. split; unfold pastLookup; simpl.
        + intros _. apply (registry_lookup cfg). eauto.
        + done.
        + done.
      - unfold mark in Hstep; simpl in Hstep. unfold_setters.
        destruct ex; simplify_eq/=; split; unfold pastLookup; simpl.
        all: try (intros err [= <-]; done).
        all: try (intros [Hx|[Hx|(st & m & Hx)]];
                  [by destruct Hx as [? [?|?]]|by destruct Hx as [? [?|?]]|];
                  apply H1; right; right; exists st, m;
                  rewrite ?elem_of_cons in Hx; naive_solver).
        all: try (intros st m Hx; rewrite ?elem_of_cons in Hx;
                  destruct Hx as [Hx|Hx]; [by simplify_eq/=|by eapply H3]).
        all: try (intros st m Hx; by eapply H3). }
  all: repeat (case_match; simplify_eq/=); split; unfold pastLookup; simpl.
  all: try (intros ? Hx; first [by apply H2|done]).
  all: try (intros _; apply H1; first [by left; eauto|by right; left; eauto]).
  all: try (intros [Hx|[Hx|(st & m & Hx)]];
            [first [by apply H1; left|by destruct Hx as [? [?|?]]]
            |first [by apply H1; right; left|by destruct Hx as [? [?|?]]]
            |apply H1; right; right; exists st, m;
             rewrite ?elem_of_cons in Hx; naive_solver]).
  all: try (intros st m Hx; apply (H3 st); clear H1 H2 H3;
            rewrite ?elem_of_cons in Hx; naive_solver).
Qed.

Lemma reachable_lookup_ok cfg s i c :
  reachable cfg s → calls s !! i = Some c → lookup_ok c.
Proof.
  intros Hs. revert i c. change (all_calls lookup_ok s).
  cut (executors s = registry cfg ∧ all_calls lookup_ok s); [by intros []|].
  revert s Hs.
  apply (reachable_invariant cfg
           (λ s, executors s = registry cfg ∧ all_calls lookup_ok s)).
  - intros t0 s0 _. unfold NewJobExecutor. case_decide; [done|].
    intros [= <-]; split; [done|]. intros i c; simpl. by rewrite lookup_nil.
  - intros e s s' [HG HI] Hstep. split.
    + apply step_static in Hstep as [= -> _ _]. done.
    + eapply (all_calls_step (λ s, executors s = registry cfg)); eauto.
      * apply lookup_ok_new.
      * intros. eapply lookup_ok_main; eauto.
      * intros. eapply lookup_ok_worker; eauto.
Qed.

Lemma pick_elem_inv {A} (f : Obs → option A) tr a :
  a ∈ pick f tr → ∃ o, o ∈ tr ∧ f o = Some a.
Proof.
  induction tr as [|x tr IH]; simpl; [by intros ?%elem_of_nil|].
  destruct (f x) as [b|] eqn:Hf.
  - intros [->|Hin]%elem_of_cons.
    + exists x. split; [by left|done].
    + destruct (IH Hin) as (o & ? & ?). exists o. split; [by right|done].
  - intros Hin. destruct (IH Hin) as (o & ? & ?). exists o. split; [by right|done].
Qed.

Lemma workerMarks_trace c site st m :
  (site, st, m) ∈ workerMarks c → OMark site st m ∈ trace c.
Proof.
  intros (o & Hin & Ho)%pick_elem_inv.
  destruct o as [| |site' st' m'| | |]; try done.
  destruct site'; by simplify_eq.
Qed.

(** X15: a job whose kind is outside the four declared kinds is never run.
    In every state the executor reaches, the capability has not been called
    for it; when ExecuteJob has returned for it, with its record created
    and the deadline not passed, the return value is "no executor found for
    job type: <kind>" and the record in memory is failed with that
    message, whatever the store answered to the updates. *)
Theorem undeclared_kind_fails_without_running cfg s i c :
  reachable cfg s → calls s !! i = Some c →
  IsValidJobType (JobType_ (job c)) = false →
  execs c = []
  ∧ ∀ r, mpc c = MReturned r → creates c = [None] → timeoutMarks c = [] →
         r = Some (noExecutorFound (job c))
         ∧ ∃ je, execution c = Some je
                 ∧ Status je = ExecutionStatusFailed
                 ∧ ErrorMessage je = Some (noExecutorFound (job c)).
Proof.
  intros Hs Hc Hkind.
  pose proof (reachable_call_ok _ _ _ _ Hs Hc) as Hok.
  pose proof (reachable_lookup_ok _ _ _ _ Hs Hc) as [Hk _ Hm].
  assert (¬ pastLookup c) as Hnot by (intros ?%Hk; congruence).
  assert (∀ r, sent c r →
               unknownMarked c (noExecutorFound (job c)) ∧ execs c = []
               ∧ r = Some (noExecutorFound (job c))) as Hsent.
  { intros r [(err & Hu & Hx & _ & ->)|(e & res & (m1 & m0 & Hf & _) & _)].
    - destruct Hu as [m0 Hu]. assert (err = noExecutorFound (job c)) as ->.
      { assert (Some err = Some (noExecutorFound (job c))) as [= ->]; [|done].
        apply (Hm ExecutionStatusFailed), workerMarks_trace.
        rewrite Hu. by left. }
      split_and!; [by exists m0|done..].
    - destruct Hnot. right; right. exists (finalStatus e), m1.
      apply workerMarks_trace. rewrite Hf. by left. }
  split.
  - destruct Hok as [_ HW _ _]. unfold worker_ok in HW.
    destruct (wpc c) eqn:Hw; try (by destruct_and?); try done.
    + destruct Hnot. right; left. eauto.
    + destruct Hnot. right; left. eauto.
    + by apply Hsent in HW as (_ & ? & _).
    + by apply Hsent in HW as (_ & ? & _).
  - intros r Hr Hcr Ht. pose proof (returned_exit _ _ Hok Hr) as Hex.
    destruct Hok as [HM HW HC HS].
    destruct Hex as [(_ & _ & _ & _ & Htr)|[(e & _ & Htr & _)|[Hrec|(_ & Ht' & _)]]].
    + unfold creates in Hcr. by rewrite Htr in Hcr.
    + unfold creates in Hcr. by rewrite Htr in Hcr.
    + destruct Hrec as (_ & _ & Hw & _ & [je Hje]).
      unfold worker_ok in HW. rewrite Hw in HW.
      apply Hsent in HW as ([m0 Hu] & _ & ->). split; [done|].
      exists je. specialize (HS _ Hje).
      rewrite lastMark_marks, (marks_without_timeout _ Ht), Hu in HS.
      simpl in HS. by simplify_eq.
    + by rewrite Ht in Ht'.
Qed.

Lemma undeclared_kind_fails_without_running_witness :
  execs (callAfter sampleConfig 1000 unknownKindRunEvents 0) = []
  ∧ mpc (callAfter sampleConfig 1000 unknownKindRunEvents 0)
    = MReturned (Some "no executor found for job type: csv_export").
Proof.
  destruct (undeclared_kind_fails_without_running sampleConfig
              (stateAfter sampleConfig 1000 unknownKindRunEvents) 0
              (callAfter sampleConfig 1000 unknownKindRunEvents 0))
    as (Hx & Hr).
  - apply stateAfter_reachable; [lia|vm_compute; eauto].
  - apply callAfter_lookup. vm_compute; eauto.
  - reflexivity.
  - split; [exact Hx|]. reflexivity.
Defined.

Lemma zero_capacity_invariant cfg s :
  MaxConcurrentJobs cfg = 0 → reachable cfg s →
  capacity s = 0%nat ∧ held s = 0%nat ∧ maxConcurrentJobs s = 0
  ∧ all_calls neverAdmitted s.
Proof.
  intros Hcfg. revert s. apply reachable_invariant.
  - intros t0 s0 _. unfold NewJobExecutor. rewrite Hcfg. simpl.
    intros [= <-]. split_and!; try done;
      intros i c; simpl; by rewrite lookup_nil.
  - intros e s s' (Hcap & Hheld & Hmax & Hall) Hstep.
    destruct e as [jb|d|i a|i a|w]; simpl in Hstep.
    + injection Hstep as <-. split_and!; try done. intros i c; simpl.
      intros [Hc|[_ Hc]]%lookup_app_Some; [by eapply Hall|].
      apply list_lookup_singleton_Some in Hc as [_ <-]. by left.
    + case_decide; [|done]. injection Hstep as <-. by split_and!.
    + destruct (calls s !! i) as [c|] eqn:Hc; simpl in Hstep; [|done].
      destruct (main_step i a s c) as [[s1 c1]|] eqn:Hm; simpl in Hstep; [|done].
      injection Hstep as <-.
      assert (s1 = s ∧ neverAdmitted c1) as [-> Hc1].
      { destruct (Hall i c Hc) as [Hnew|(Hr & _)].
        - rewrite Hnew in Hm. unfold main_step in Hm; simpl in Hm.
          destruct a; try done. rewrite Hheld, Hcap in Hm. simpl in Hm.
          injection Hm as <- <-. split; [done|]. right.
          unfold returning, observe, limitReached; simpl. rewrite Hmax.
          by split_and!.
        - unfold main_step in Hm. rewrite Hr in Hm. by destruct a. }
      split_and!; try done. intros j c'. simpl.
      destruct (decide (j = i)) as [->|Hne].
      * rewrite list_lookup_insert_eq by by eapply lookup_lt_Some.
        by intros [= <-].
      * rewrite list_lookup_insert_ne by done. apply Hall.
    + destruct (calls s !! i) as [c|] eqn:Hc; simpl in Hstep; [|done].
      destruct (worker_step a s c) as [c1|] eqn:Hw; simpl in Hstep; [|done].
      assert (wpc c = WIdle) as Hidle.
      { destruct (Hall i c Hc) as [->|(_ & _ & ? & _)]; done. }
      unfold worker_step in Hw. by rewrite Hidle in Hw.
    + injection Hstep as <-. by split_and!.
Qed.

(** X16: with MaxConcurrentJobs = 0 the semaphore has no permit to give.
    In every state the executor reaches, every call of ExecuteJob either
    has not started or has returned "maximum concurrent jobs (0) reached";
    no call has a record, a store write or a call of its capability, and
    the Run Tracker is empty. *)
Theorem zero_capacity_rejects_every_job cfg s i c :
  MaxConcurrentJobs cfg = 0 → reachable cfg s → calls s !! i = Some c →
  (mpc c = MSelectSemaphore
   ∨ mpc c = MReturned (Some "maximum concurrent jobs (0) reached"))
  ∧ execution c = None ∧ creates c = [] ∧ execs c = [] ∧ marks c = []
  ∧ held s = 0%nat ∧ GetRunningJobsCount s = 0%nat.
Proof.
  intros Hcfg Hs Hc.
  destruct (zero_capacity_invariant cfg s Hcfg Hs) as (_ & Hheld & _ & Hall).
  pose proof (running_jobs_bound := reachable_sys_ok cfg s Hs).
  destruct running_jobs_bound as [_ Hh _ Htr].
  assert (GetRunningJobsCount s = 0%nat) as Hcount.
  { unfold GetRunningJobsCount. apply map_size_empty_iff, map_empty.
    intros id. apply eq_None_not_Some. intros [p Hp].
    destruct (Htr id p Hp) as (c0 & Hc0 & Ht & _). unfold tracked in Ht.
    apply bool_decide_eq_true in Ht.
    destruct (Hall p c0 Hc0) as [Hnew|(_ & _ & _ & Hd & _)].
    - rewrite Hnew in Ht. by apply elem_of_nil in Ht.
    - rewrite Hd in Ht. by apply elem_of_nil in Ht. }
  destruct (Hall i c Hc) as [Hnew|(Hr & Hex & _ & _ & Htr')].
  - rewrite Hnew. split_and!; try done. by left.
  - unfold creates, execs, marks. rewrite Htr'. split_and!; try done.
    by right.
Qed.

Lemma zero_capacity_rejects_every_job_witness :
  mpc (callAfter zeroCapacity 1000 zeroCapacityEvents 0)
  = MReturned (Some "maximum concurrent jobs (0) reached")
  ∧ execution (callAfter zeroCapacity 1000 zeroCapacityEvents 0) = None.
Proof.
  destruct (zero_capacity_rejects_every_job zeroCapacity
              (stateAfter zeroCapacity 1000 zeroCapacityEvents) 0
              (callAfter zeroCapacity 1000 zeroCapacityEvents 0))
    as (_ & Hex & _).
  - reflexivity.
  - apply stateAfter_reachable; [lia|vm_compute; eauto].
  - apply callAfter_lookup. vm_compute; eauto.
  - split; [reflexivity|exact Hex].
Defined.

Lemma cancel_ok_main i a s c s1 c' :
  cancel_ok c → main_step i a s c = Some (s1, c') → cancel_ok c'.
Proof.
  unfold cancel_ok, main_step, runDeferred, returning.
  intros HI Hstep. destruct c as [jb mp wp ex df dl ca ch tr]; simpl in *.
  unfold_setters; simpl in *. unfold mark, repoUpdate in *; simpl in *.
  unfold_setters; simpl in *.
  repeat (case_match; simplify_eq/=); naive_solver.
Qed.

Lemma worker_step_deadline a s c c' :
  worker_step a s c = Some c' →
  deadline c' = deadline c ∧ timeoutMarks c' = timeoutMarks c
  ∧ mpc c' = mpc c ∧ cancelledAt c' = cancelledAt c.
Proof.
  unfold worker_step, timeoutMarks.
  intros Hstep. destruct c as [jb mp wp ex df dl ca ch tr]; simpl in *.
  unfold_setters; simpl in *. unfold mark, repoUpdate, logIfFailed in *;
    simpl in *. unfold_setters; simpl in *.
  repeat (case_match; simplify_eq/=); done.
Qed.

Lemma cancel_ok_worker a s c c' :
  cancel_ok c → worker_step a s c = Some c' → cancel_ok c'.
Proof.
  intros HI (_ & _ & Hm & Hc)%worker_step_deadline. unfold cancel_ok.
  by rewrite Hm, Hc.
Qed.

Lemma reachable_cancel_ok cfg s i c :
  reachable cfg s → calls s !! i = Some c → cancel_ok c.
Proof.
  intros Hs. revert i c. change (all_calls cancel_ok s). revert s Hs.
  apply reachable_invariant.
  - intros t0 s0 _. unfold NewJobExecutor. case_decide; [done|].
    intros [= <-] i c; simpl. by rewrite lookup_nil.
  - intros e s s' HI Hstep.
    eapply (all_calls_step (λ _, True)); eauto.
    + intros jb. by left.
    + intros. eapply cancel_ok_main; eauto.
    + intros. eapply cancel_ok_worker; eauto.
Qed.

Lemma main_step_deadline i a s c s1 c' :
  main_step i a s c = Some (s1, c') →
  (mpc c = MSpawn ∧ deadline c' = Some (now s + jobTimeout)
   ∧ timeoutMarks c' = timeoutMarks c)
  ∨ (mpc c = MWait ∧ ctxDone (now s) c = true ∧ deadline c' = deadline c)
  ∨ (mpc c ≠ MSpawn ∧ deadline c' = deadline c
     ∧ timeoutMarks c' = timeoutMarks c).
Proof.
  unfold main_step, runDeferred, returning, timeoutMarks.
  intros Hstep. destruct c as [jb mp wp ex df dl ca ch tr]; simpl in *.
  unfold_setters; simpl in *. unfold mark, repoUpdate, logIfFailed in *;
    simpl in *. unfold_setters; simpl in *.
  repeat (case_match; simplify_eq/=); naive_solver.
Qed.

Lemma step_now e s s' : step e s = Some s' → now s ≤ now s'.
Proof.
  destruct e as [jb|d|i a|i a|w]; simpl.
  - by intros [= <-].
  - case_decide; [|done]. intros [= <-]; simpl. lia.
  - destruct (calls s !! i) as [c|]; simpl; [|done].
    destruct (main_step i a s c) as [[s1 c1]|] eqn:Hm; simpl; [|done].
    intros [= <-]; simpl. apply main_step_static in Hm as (_ & _ & ->). lia.
  - destruct (calls s !! i) as [c|]; simpl; [|done].
    destruct (worker_step a s c); simpl; [|done]. by intros [= <-].
  - by intros [= <-].
Qed.

Lemma deadline_ok_step cfg e s1 s2 i c1 c2 t0 :
  reachable cfg s1 → step e s1 = Some s2 →
  calls s1 !! i = Some c1 → calls s2 !! i = Some c2 →
  deadline_ok t0 (now s1) c1 → deadline_ok t0 (now s2) c2.
Proof.
  intros Hs Hstep Hc1 Hc2 [Ht0 HP].
  pose proof (step_now _ _ _ Hstep) as Hnow.
  pose proof (reachable_call_ok _ _ _ _ Hs Hc1) as [HM _ _ _].
  pose proof (reachable_cancel_ok _ _ _ _ Hs Hc1) as Hcancel.
  split; [lia|].
  destruct (step_calls _ _ _ _ _ Hstep Hc2)
    as [Hsame|[(jb & _ & _ & ->)|[(a & c & s' & -> & Hc & Hm)|(a & c & -> & Hc & Hw)]]].
  - rewrite Hc1 in Hsame. injection Hsame as <-.
    destruct HP as [?|(d & ? & ? & Hd)]; [by left|].
    right. exists d. split_and!; [done..|]. intros ?%Hd. lia.
  - apply lookup_lt_Some in Hc1. lia.
  - rewrite Hc1 in Hc. injection Hc as <-.
    assert (now s2 = now s1) as Hn.
    { simpl in Hstep. rewrite Hc1 in Hstep. simpl in Hstep.
      rewrite Hm in Hstep. simpl in Hstep. injection Hstep as <-. simpl.
      by apply main_step_static in Hm as (_ & _ & ->). }
    rewrite Hn.
    destruct (main_step_deadline _ _ _ _ _ _ Hm)
      as [(Hmp & Hd & Ht)|[(Hmp & Hdone & Hd)|(Hmp & Hd & Ht)]].
    + right. exists (now s1 + jobTimeout). split; [done|]. split; [lia|].
      rewrite Ht. unfold main_ok in HM. rewrite Hmp in HM.
      destruct HM as (_ & _ & Htr & _). unfold timeoutMarks. by rewrite Htr.
    + destruct HP as [?|(d & Hd' & ? & _)]; [congruence|].
      right. exists d. rewrite Hd. split_and!; [done..|]. intros _.
      unfold ctxDone in Hdone. rewrite Hd' in Hdone.
      destruct Hcancel as [Hca|(r & [?|?])]; [|congruence..].
      rewrite Hca in Hdone. rewrite orb_false_r in Hdone.
      by apply bool_decide_eq_true in Hdone.
    + destruct HP as [?|(d & Hd' & ? & Hdd)]; [done|].
      right. exists d. rewrite Hd, Ht. by split_and!.
  - rewrite Hc1 in Hc. injection Hc as <-.
    assert (now s2 = now s1) as Hn.
    { simpl in Hstep. rewrite Hc1 in Hstep. simpl in Hstep.
      rewrite Hw in Hstep. simpl in Hstep. by injection Hstep as <-. }
    rewrite Hn. apply worker_step_deadline in Hw as (Hd & Ht & Hmp & _).
    by rewrite Hd, Ht, Hmp.
Qed.

Lemma deadline_ok_run cfg evs s1 s2 i c1 c2 t0 :
  reachable cfg s1 → run evs s1 = Some s2 →
  calls s1 !! i = Some c1 → calls s2 !! i = Some c2 →
  deadline_ok t0 (now s1) c1 → deadline_ok t0 (now s2) c2.
Proof.
  revert s1 c1. induction evs as [|e evs IH]; intros s1 c1 Hs; simpl.
  - intros [= <-] Hc1 Hc2. rewrite Hc1 in Hc2. by injection Hc2 as <-.
  - destruct (step e s1) as [s|] eqn:Hstep; [|done].
    intros Hrun Hc1 Hc2 HP.
    assert (is_Some (calls s !! i)) as [c Hc].
    { apply lookup_lt_is_Some. apply lookup_lt_Some in Hc1.
      apply step_length in Hstep. lia. }
    apply (IH s c); [|done..|].
    + eapply (reachable_run _ _ [e]); [done|]. simpl. by rewrite Hstep.
    + by eapply deadline_ok_step.
Qed.

(** X17: the deadline of a job is ten minutes. When a call of ExecuteJob
    stands before the start of its worker at time t, and in a later state
    its record carries the write of the timeout branch, then at least
    jobTimeout = 600000 milliseconds have passed since t. *)
Theorem timeout_needs_ten_minutes cfg s i c evs s' c' :
  reachable cfg s → calls s !! i = Some c → mpc c = MSpawn →
  run evs s = Some s' → calls s' !! i = Some c' → timeoutMarks c' ≠ [] →
  now s + 600000 ≤ now s'.
Proof.
  intros Hs Hc Hm Hrun Hc' Ht.
  destruct (deadline_ok_run cfg evs s s' i c c' (now s) Hs Hrun Hc Hc')
    as [_ [Hm'|(d & _ & Hd & Hle)]].
  - split; [lia|by left].
  - assert (reachable cfg s') as Hs' by by eapply reachable_run.
    pose proof (reachable_call_ok _ _ _ _ Hs' Hc') as [HM _ _ _].
    unfold main_ok in HM. rewrite Hm' in HM.
    destruct HM as (_ & _ & Htr & _). unfold timeoutMarks in Ht.
    by rewrite Htr in Ht.
  - specialize (Hle Ht). unfold jobTimeout in Hd. lia.
Qed.

Lemma timeout_needs_ten_minutes_witness :
  timeoutMarks (callAfter sampleConfig 1000 deadlinePassesEvents 0)
  = [timeoutMark]
  ∧ now (stateAfter sampleConfig 1000 beforeSpawnEvents) + 600000
    ≤ now (stateAfter sampleConfig 1000 deadlinePassesEvents).
Proof.
  split; [reflexivity|].
  apply (timeout_needs_ten_minutes sampleConfig
           (stateAfter sampleConfig 1000 beforeSpawnEvents) 0
           (callAfter sampleConfig 1000 beforeSpawnEvents 0)
           afterSpawnEvents
           (stateAfter sampleConfig 1000 deadlinePassesEvents)
           (callAfter sampleConfig 1000 deadlinePassesEvents 0)).
  - apply stateAfter_reachable; [lia|vm_compute; eauto].
  - apply callAfter_lookup. vm_compute; eauto.
  - reflexivity.
  - by vm_compute.
  - apply callAfter_lookup. vm_compute; eauto.
  - by vm_compute.
Defined.

(** X18: what the Run Tracker holds. In every state the executor reaches,
    an entry of the Run Tracker belongs to a call of ExecuteJob that has
    not returned, whose record was accepted by the store's create and has
    the entry's key as its id; a call that was rejected at the semaphore or
    whose create failed never has an entry. *)
Theorem run_tracker_holds_live_created_records cfg s id p :
  reachable cfg s → runningJobs s !! id = Some p →
  ∃ c je, calls s !! p = Some c ∧ execution c = Some je ∧ ExecID je = id
          ∧ creates c = [None] ∧ hasReturned c = false
          ∧ DRelease ∈ defers c.
Proof.
  intros Hs Hp. pose proof (reachable_sys_ok _ _ Hs) as [Hcalls _ _ Htr].
  destruct (Htr id p Hp) as (c & Hc & Ht & Hid).
  destruct (Hcalls p c Hc) as [HM _ _ _].
  unfold tracked in Ht. apply bool_decide_eq_true in Ht.
  assert (is_Some (execution c) ∧ creates c = [None] ∧ hasReturned c = false
          ∧ DRelease ∈ defers c) as ([je Hje] & Hcr & Hret & Hrel).
  { unfold main_ok, hasReturned, defers_ok, exited, rejected, createFailed,
      received, timedOut, fullDefers in *.
    destruct (mpc c) eqn:Hm; destruct_and?; destruct_or?; destruct_and?;
      repeat match goal with H : ∃ _, _ |- _ => destruct H end;
      destruct_and?; destruct_or?;
      repeat match goal with
             | H : defers c = _ |- _ => rewrite H in Ht |- *; clear H
             end;
      try (by apply elem_of_nil in Ht);
      try (by apply list_elem_of_singleton in Ht);
      try match goal with
          | H : trace c = _ |- _ => unfold creates; rewrite H; simpl
          end.
    all: split_and!; try done; set_solver. }
  exists c, je. unfold executionID in Hid. rewrite Hje in Hid.
  by split_and!.
Qed.

Lemma run_tracker_holds_live_created_records_witness :
  ∃ c je, calls (stateAfter sampleConfig 1000 deadlinePassesEvents) !! 0%nat
          = Some c
          ∧ execution c = Some je ∧ ExecID je = "e-0001"
          ∧ creates c = [None] ∧ hasReturned c = false.
Proof.
  destruct (run_tracker_holds_live_created_records sampleConfig
              (stateAfter sampleConfig 1000 deadlinePassesEvents) "e-0001" 0%nat)
    as (c & je & Hc & Hje & Hid & Hcr & Hret & _).
  - apply stateAfter_reachable; [lia|vm_compute; eauto].
  - by vm_compute.
  - exists c, je. split; [exact Hc|]. split; [exact Hje|].
    split; [exact Hid|]. split; [exact Hcr|exact Hret].
Defined.

Lemma worker_step_record a s c c' :
  worker_step a s c = Some c' →
  timeoutMarks c' = timeoutMarks c
  ∧ ((execution c' = execution c ∧ workerMarks c' = workerMarks c)
     ∨ (∃ je x, execution c = Some je ∧ wpc c = WMarkRunning
                ∧ execution c' = Some (MarkAsRunning (wall s) je)
                ∧ workerMarks c' = x :: workerMarks c)
     ∨ (∃ je je' x, execution c = Some je ∧ wpc c ≠ WMarkRunning
                    ∧ execution c' = Some je'
                    ∧ StartedAt je' = StartedAt je
                    ∧ CompletedAt je' = Some (wall s)
                    ∧ ExecutionDuration je' = durationSince (wall s) je
                    ∧ workerMarks c' = x :: workerMarks c)).
Proof.
  unfold worker_step, timeoutMarks, workerMarks.
  intros Hstep. destruct c as [jb mp wp ex df dl ca ch tr]; simpl in *.
  unfold_setters; simpl in *. unfold mark, repoUpdate, logIfFailed in *;
    simpl in *. unfold_setters; simpl in *.
  repeat (case_match; simplify_eq/=); (split; [done|]).
  all: first [by left
             |right; left; do 2 eexists; by split_and!
             |right; right; do 3 eexists; by split_and!].
Qed.

Lemma main_step_record i a s c s1 c' :
  main_step i a s c = Some (s1, c') →
  workerMarks c' = workerMarks c
  ∧ ((execution c' = execution c ∧ timeoutMarks c' = timeoutMarks c)
     ∨ (mpc c = MNewExecution ∧ timeoutMarks c' = timeoutMarks c
        ∧ ∃ je, execution c' = Some je ∧ StartedAt je = 0
                ∧ CompletedAt je = None ∧ ExecutionDuration je = None)
     ∨ timeoutMarks c' ≠ []).
Proof.
  unfold main_step, runDeferred, returning, timeoutMarks, workerMarks.
  intros Hstep. destruct c as [jb mp wp ex df dl ca ch tr]; simpl in *.
  unfold_setters; simpl in *. unfold mark, repoUpdate, logIfFailed in *;
    simpl in *. unfold_setters; simpl in *.
  repeat (case_match; simplify_eq/=); (split; [done|]).
  all: first [by left
             |right; left; split_and!; [done..|]; eexists; by split_and!
             |by right; right].
Qed.

(** A worker that writes a terminal status has written running before. *)
Lemma terminal_write_follows_running a s c c' :
  worker_ok c → worker_step a s c = Some c' → wpc c ≠ WMarkRunning →
  workerMarks c' ≠ workerMarks c → workerMarks c ≠ [].
Proof.
  intros HW Hw Hwp Hch Hnil. unfold worker_step in Hw. unfold worker_ok in HW.
  destruct (wpc c) eqn:Hwpc; try done.
  all: unfold sent in HW;
    unfold runningOnly, unknownMarked, finalMarked in HW;
    destruct_and?; destruct_or?;
    repeat match goal with H : ∃ _, _ |- _ => destruct H end;
    destruct_and?;
    repeat match goal with H : ∃ _, _ |- _ => destruct H end;
    destruct_and?; try congruence.
  all: apply Hch; clear Hch; unfold workerMarks in *;
    destruct c as [jb mp wp ex df dl ca ch tr]; simpl in *.
  all: unfold_setters; simpl in *; unfold mark, repoUpdate, logIfFailed in *;
    simpl in *; unfold_setters; simpl in *.
  all: repeat (case_match; simplify_eq/=); done.
Qed.

Lemma times_ok_step e s1 s2 i c2 :
  all_calls call_ok s1 → all_calls times_ok s1 →
  step e s1 = Some s2 → calls s2 !! i = Some c2 → times_ok c2.
Proof.
  intros Hok Hall Hstep Hc2.
  destruct (step_calls _ _ _ _ _ Hstep Hc2)
    as [Hsame|[(jb & _ & -> & _)|[(a & c & s' & -> & Hc & Hm)|(a & c & -> & Hc & Hw)]]].
  - by eapply Hall.
  - by intros _ je.
  - pose proof (Hall i c Hc) as Hc_ok. destruct (Hok i c Hc) as [HM _ _ _].
    destruct (main_step_record _ _ _ _ _ _ Hm)
      as [Hwm [[Hex Htm]|[(Hmp & Htm & je & Hje & ? & ? & ?)|Htm]]].
    + unfold times_ok. by rewrite Hwm, Hex, Htm.
    + intros _ je' Hje'. rewrite Hje in Hje'. injection Hje' as <-.
      rewrite Hwm. unfold main_ok in HM. rewrite Hmp in HM.
      destruct HM as (_ & _ & Htr & _). unfold workerMarks. by rewrite Htr.
    + by intros ?.
  - pose proof (Hall i c Hc) as Hc_ok. destruct (Hok i c Hc) as [_ HW _ _].
    destruct (worker_step_record _ _ _ _ Hw)
      as [Htm [[Hex Hwm]|[(je & x & Hje & Hwp & Hje' & Hwm)
                         |(je & je' & x & Hje & Hwp & Hje' & Hst & Hct & Hdur & Hwm)]]].
    + unfold times_ok. by rewrite Hwm, Hex, Htm.
    + intros Ht je0 Hje0. rewrite Hje' in Hje0. injection Hje0 as <-.
      rewrite Htm in Ht. specialize (Hc_ok Ht je Hje).
      unfold worker_ok in HW. rewrite Hwp in HW. destruct HW as (Hnil & _).
      rewrite Hwm, Hnil. rewrite Hnil in Hc_ok. simpl. by destruct_and?.
    + intros Ht je0 Hje0. rewrite Hje' in Hje0. injection Hje0 as <-.
      rewrite Htm in Ht. specialize (Hc_ok Ht je Hje). rewrite Hwm.
      assert (workerMarks c ≠ []) as Hne.
      { eapply terminal_write_follows_running; [done..|].
        rewrite Hwm. intros Heq. apply (f_equal length) in Heq.
        simpl in Heq. lia. }
      assert (IsZero (StartedAt je) = true → ExecutionDuration je = None)
        as Hzero.
      { intros Hz. destruct (workerMarks c) as [|y [|z l]];
          [done|by destruct_and?|].
        destruct Hc_ok as (tc & _ & Hd). by rewrite Hz in Hd. }
      destruct (workerMarks c) as [|y l]; [done|].
      exists (wall s1). rewrite Hst, Hct, Hdur. split; [done|].
      unfold durationSince. destruct (IsZero (StartedAt je)); auto.
Qed.

Lemma reachable_times_ok cfg s i c :
  reachable cfg s → calls s !! i = Some c → times_ok c.
Proof.
  intros Hs Hc.
  cut (all_calls call_ok s ∧ all_calls times_ok s).
  { intros (_ & Hall). by eapply Hall. }
  clear i c Hc. revert s Hs. apply reachable_invariant.
  - intros t0 s0 Ht. unfold NewJobExecutor. case_decide; [done|].
    intros [= <-]; simpl. split; intros i c; simpl; by rewrite lookup_nil.
  - intros e s s' (Hok & Hall) Hstep. split.
    + eapply (all_calls_step (λ _, True));
        eauto using call_ok_new, call_ok_main, call_ok_worker.
    + intros i c Hc. by eapply times_ok_step.
Qed.

(** The wall clock of a run that does not set it. *)
Lemma step_wall e s s' :
  steady [e] = true → step e s = Some s' → wall s ≤ wall s'.
Proof.
  destruct e as [jb|d|i a|i a|w]; simpl; intros Hsteady.
  - by intros [= <-].
  - case_decide; [|done]. intros [= <-]; simpl. lia.
  - destruct (calls s !! i) as [c|]; simpl; [|done].
    destruct (main_step i a s c) as [[s1 c1]|] eqn:Hm; simpl; [|done].
    intros [= <-]; simpl. unfold main_step, runDeferred in Hm.
    repeat (case_match; simplify_eq/=); done.
  - destruct (calls s !! i) as [c|]; simpl; [|done].
    destruct (worker_step a s c); simpl; [|done]. by intros [= <-].
  - done.
Qed.

Lemma order_ok_mono t t' c : t ≤ t' → order_ok t c → order_ok t' c.
Proof.
  intros Hle H Ht je Hje. specialize (H Ht je Hje).
  destruct (workerMarks c) as [|x [|y l]]; [done|lia|].
  destruct H as (tc & H). destruct_and?. exists tc.
  split_and!; try done; lia.
Qed.

Lemma order_ok_step e s1 s2 i c2 :
  all_calls call_ok s1 → 0 < wall s1 → all_calls (order_ok (wall s1)) s1 →
  steady [e] = true →
  step e s1 = Some s2 → calls s2 !! i = Some c2 → order_ok (wall s2) c2.
Proof.
  intros Hok Hpos Hall Hsteady Hstep Hc2.
  pose proof (step_wall _ _ _ Hsteady Hstep) as Hwall.
  destruct (step_calls _ _ _ _ _ Hstep Hc2)
    as [Hsame|[(jb & _ & -> & _)|[(a & c & s' & -> & Hc & Hm)|(a & c & -> & Hc & Hw)]]].
  - eapply order_ok_mono; [done|]. by eapply Hall.
  - by intros _ je.
  - eapply order_ok_mono; [done|].
    pose proof (Hall i c Hc) as Hc_ok. destruct (Hok i c Hc) as [HM _ _ _].
    destruct (main_step_record _ _ _ _ _ _ Hm)
      as [Hwm [[Hex Htm]|[(Hmp & Htm & je & Hje & ? & ? & ?)|Htm]]].
    + unfold order_ok. by rewrite Hwm, Hex, Htm.
    + intros _ je' Hje'. rewrite Hwm. unfold main_ok in HM. rewrite Hmp in HM.
      destruct HM as (_ & _ & Htr & _). unfold workerMarks. by rewrite Htr.
    + by intros ?.
  - eapply order_ok_mono; [done|].
    pose proof (Hall i c Hc) as Hc_ok. destruct (Hok i c Hc) as [_ HW _ _].
    destruct (worker_step_record _ _ _ _ Hw)
      as [Htm [[Hex Hwm]|[(je & x & Hje & Hwp & Hje' & Hwm)
                         |(je & je' & x & Hje & Hwp & Hje' & Hst & Hct & Hdur & Hwm)]]].
    + unfold order_ok. by rewrite Hwm, Hex, Htm.
    + intros Ht je0 Hje0. rewrite Hje' in Hje0. injection Hje0 as <-.
      unfold worker_ok in HW. rewrite Hwp in HW. destruct HW as (Hnil & _).
      rewrite Hwm, Hnil. simpl. lia.
    + intros Ht je0 Hje0. rewrite Hje' in Hje0. injection Hje0 as <-.
      rewrite Htm in Ht. specialize (Hc_ok Ht je Hje). rewrite Hwm.
      assert (workerMarks c ≠ []) as Hne.
      { eapply terminal_write_follows_running; [done..|].
        rewrite Hwm. intros Heq. apply (f_equal length) in Heq.
        simpl in Heq. lia. }
      assert (0 < StartedAt je ≤ wall s1) as Hst0.
      { destruct (workerMarks c) as [|y [|z l]]; [done|done|].
        destruct Hc_ok as (tc & ? & ? & ?). lia. }
      destruct (workerMarks c) as [|y l]; [done|].
      exists (wall s1). rewrite Hst, Hct. split_and!; try done; lia.
Qed.

Lemma order_ok_run evs s s' :
  all_calls call_ok s → 0 < wall s → all_calls (order_ok (wall s)) s →
  steady evs = true → run evs s = Some s' →
  0 < wall s' ∧ all_calls (order_ok (wall s')) s'.
Proof.
  revert s. induction evs as [|e evs IH]; intros s Hok Hpos Hall; simpl.
  - by intros _ [= <-].
  - intros [He Hevs]%andb_prop.
    destruct (step e s) as [s1|] eqn:Hstep; [|done]. intros Hrun.
    assert (steady [e] = true) as He1 by (simpl; by rewrite He).
    apply (IH s1); [| | |done..].
    + eapply (all_calls_step (λ _, True));
        eauto using call_ok_new, call_ok_main, call_ok_worker.
    + apply step_wall in Hstep; [lia|done].
    + intros i c Hc. by eapply order_ok_step.
Qed.

(** X19: the duration stored in an Execution Record. In every state the
    executor reaches, when ExecuteJob has returned for a record that the
    store accepted and the timeout branch was not taken, the record is in
    a terminal state, it has a completion time, and its duration is the
    completion time minus the start time (there is no duration when the
    start time is the zero time). The times are readings of the wall
    clock: when no event of the run set the wall clock, the start time is
    after the zero time and not after the completion time, and the
    completion time is not after the present. *)
Theorem duration_is_completion_minus_start cfg t0 s0 evs s i c r :
  0 < t0 → NewJobExecutor cfg t0 = Some s0 → run evs s0 = Some s →
  calls s !! i = Some c → mpc c = MReturned r →
  creates c = [None] → timeoutMarks c = [] →
  ∃ je tc, execution c = Some je
           ∧ IsCompleted je = true
           ∧ CompletedAt je = Some tc
           ∧ ExecutionDuration je
             = (if IsZero (StartedAt je) then None
                else Some (tc - StartedAt je))
           ∧ (steady evs = true →
              0 < StartedAt je ≤ tc ∧ tc ≤ wall s
              ∧ ExecutionDuration je = Some (tc - StartedAt je)).
Proof.
  intros Ht0 Hnew Hrun Hc Hr Hcr Ht.
  assert (reachable cfg s) as Hs by (by exists t0, s0, evs).
  pose proof (reachable_call_ok _ _ _ _ Hs Hc) as Hok.
  pose proof (reachable_times_ok _ _ _ _ Hs Hc) as Htimes.
  pose proof (returned_exit _ _ Hok Hr) as Hex.
  destruct Hok as [HM HW HC HS].
  destruct Hex as [(_ & _ & _ & _ & Htr)|[(e & _ & Htr & _)|[Hrec|(_ & Ht' & _)]]].
  - unfold creates in Hcr. by rewrite Htr in Hcr.
  - unfold creates in Hcr. by rewrite Htr in Hcr.
  - destruct Hrec as (_ & _ & Hw & _ & [je Hje]).
    unfold worker_ok in HW. rewrite Hw in HW.
    destruct (sent_marks _ _ HW) as (site & st & m & m0 & Hm & Hterm).
    specialize (Htimes Ht je Hje). rewrite Hm in Htimes.
    destruct Htimes as (tc & Hct & Hdur).
    exists je, tc. split_and!; try done.
    + specialize (HS _ Hje).
      rewrite lastMark_marks, (marks_without_timeout _ Ht), Hm in HS.
      simpl in HS. assert (Status je = st) as Hst by by simplify_eq.
      unfold IsCompleted. rewrite Hst. by destruct st.
    + intros Hsteady.
      destruct (order_ok_run evs s0 s) as [_ Hall]; try done.
      * unfold NewJobExecutor in Hnew. case_decide; [done|].
        injection Hnew as <-. intros j cj; simpl. by rewrite lookup_nil.
      * unfold NewJobExecutor in Hnew. case_decide; [done|].
        by injection Hnew as <-.
      * unfold NewJobExecutor in Hnew. case_decide; [done|].
        injection Hnew as <-. intros j cj; simpl. by rewrite lookup_nil.
      * specialize (Hall i c Hc Ht je Hje). rewrite Hm in Hall.
        destruct Hall as (tc' & Hct' & Hord & Hle).
        rewrite Hct in Hct'. injection Hct' as <-.
        split_and!; try done; try lia. rewrite Hdur. unfold IsZero.
        destruct (Z.eqb_spec (StartedAt je) 0); [lia|done].
  - by rewrite Ht in Ht'.
Qed.

Lemma duration_is_completion_minus_start_witness :
  (∃ je tc, execution (callAfter sampleConfig 1000 successEvents 0) = Some je
            ∧ CompletedAt je = Some tc
            ∧ 0 < StartedAt je ≤ tc
            ∧ ExecutionDuration je = Some (tc - StartedAt je))
  ∧ (∃ je, execution (callAfter sampleConfig 1000 clockSetBackEvents 0)
           = Some je
           ∧ ExecutionDuration je = Some (400 - 1000)).
Proof.
  split.
  - destruct (duration_is_completion_minus_start sampleConfig 1000
                (mkSys 1 1 0 ∅ (registry sampleConfig) 1000 1000 [])
                successEvents
                (stateAfter sampleConfig 1000 successEvents) 0
                (callAfter sampleConfig 1000 successEvents 0) None)
      as (je & tc & Hje & _ & Hct & _ & Hsteady).
    + lia.
    + reflexivity.
    + by vm_compute.
    + apply callAfter_lookup. vm_compute; eauto.
    + reflexivity.
    + reflexivity.
    + reflexivity.
    + destruct (Hsteady eq_refl) as (Hord & _ & Hdur).
      exists je, tc. split; [exact Hje|]. split; [exact Hct|].
      split; [exact Hord|exact Hdur].
  - destruct (duration_is_completion_minus_start sampleConfig 1000
                (mkSys 1 1 0 ∅ (registry sampleConfig) 1000 1000 [])
                clockSetBackEvents
                (stateAfter sampleConfig 1000 clockSetBackEvents) 0
                (callAfter sampleConfig 1000 clockSetBackEvents 0) None)
      as (je & tc & Hje & _ & Hct & Hdur & _).
    + lia.
    + reflexivity.
    + by vm_compute.
    + apply callAfter_lookup. vm_compute; eauto.
    + reflexivity.
    + reflexivity.
    + reflexivity.
    + exists je. split; [exact Hje|].
      assert (je = default freshExecution
                     (execution (callAfter sampleConfig 1000
                                   clockSetBackEvents 0))) as ->.
      { by rewrite Hje. }
      reflexivity.
Defined.

(** * The Execution Record *)

(** X27: how the Mark methods compose. After MarkAsRunning at a time other
    than the zero time, each of MarkAsCompleted, MarkAsFailed and
    MarkAsCancelled leaves a record that IsCompleted, with the completion
    time and, as duration, the time since the start. No method looks at
    the state it overwrites or clears what it does not set: MarkAsCompleted
    after MarkAsFailed gives a completed record that still carries the
    error message, MarkAsRunning after a terminal mark gives a running
    record that still carries the completion time and the duration, and a
    terminal mark on a record without a start time leaves the duration as
    it was. *)
Theorem marks_overwrite_without_clearing
    (je : JobExecution) (t1 t2 t3 : Time) (msg : string) :
  t1 ≠ 0 →
  (∀ r, r ∈ [MarkAsCompleted t2 (MarkAsRunning t1 je);
             MarkAsFailed t2 msg (MarkAsRunning t1 je);
             MarkAsCancelled t2 (MarkAsRunning t1 je)] →
        IsCompleted r = true ∧ StartedAt r = t1 ∧ CompletedAt r = Some t2
        ∧ ExecutionDuration r = Some (t2 - t1))
  ∧ ErrorMessage (MarkAsCompleted t2 (MarkAsRunning t1 je)) = ErrorMessage je
  ∧ ErrorMessage (MarkAsFailed t2 msg (MarkAsRunning t1 je)) = Some msg
  ∧ (Status (MarkAsCompleted t3 (MarkAsFailed t2 msg je))
     = ExecutionStatusCompleted
     ∧ ErrorMessage (MarkAsCompleted t3 (MarkAsFailed t2 msg je)) = Some msg)
  ∧ (IsCompleted (MarkAsRunning t3 (MarkAsFailed t2 msg (MarkAsRunning t1 je)))
     = false
     ∧ CompletedAt (MarkAsRunning t3 (MarkAsFailed t2 msg (MarkAsRunning t1 je)))
       = Some t2
     ∧ ExecutionDuration
         (MarkAsRunning t3 (MarkAsFailed t2 msg (MarkAsRunning t1 je)))
       = Some (t2 - t1))
  ∧ (StartedAt je = 0 →
     ExecutionDuration (MarkAsFailed t2 msg je) = ExecutionDuration je
     ∧ ExecutionDuration (MarkAsCompleted t2 je) = ExecutionDuration je).
Proof.
  intros Ht1.
  assert (∀ x, durationSince t2 (MarkAsRunning t1 x) = Some (t2 - t1)) as Hdur.
  { intros x. unfold durationSince, IsZero; simpl.
    by destruct (Z.eqb_spec t1 0). }
  split_and!; simpl; rewrite ?Hdur; try done.
  - intros r Hr. set_unfold.
    destruct Hr as [->|[->|[->|[]]]]; simpl; by rewrite Hdur.
  - intros Hz. unfold durationSince, IsZero; simpl. by rewrite Hz.
Qed.

Lemma marks_overwrite_without_clearing_witness :
  ExecutionDuration (MarkAsCompleted 1200 (MarkAsRunning 1000 freshExecution))
  = Some (1200 - 1000)
  ∧ ErrorMessage (MarkAsCompleted 1500 (MarkAsFailed 1200 timeoutMessage
                                         freshExecution))
    = Some timeoutMessage.
Proof.
  destruct (marks_overwrite_without_clearing freshExecution 1000 1200 1500
              timeoutMessage) as (Hall & _ & _ & (_ & Hmsg) & _).
  - lia.
  - split; [|exact Hmsg].
    destruct (Hall (MarkAsCompleted 1200 (MarkAsRunning 1000 freshExecution)))
      as (_ & _ & _ & Hd); [by left|exact Hd].
Defined.
Import Services.

(** * The job service *)

(** X20: CreateJob saves only requests that pass both checks, and saves
    every one that does. When the kind is not one of the four declared
    kinds it returns "invalid job type: ..." and the repository is not
    touched; the kind is checked first. When the kind is declared and the
    schedule does not parse it returns "invalid cron schedule: ..." and the
    repository is not touched. Otherwise it passes one job to the
    repository: the job has the fresh id and the request's name,
    description, schedule and kind, is active unless the request says
    otherwise, and has the kind's default configuration when the request
    has none; CreateJob returns that job when the repository accepts it and
    "failed to create job: ..." when it does not. So it returns a job
    exactly when the kind is declared, the schedule parses and the
    repository accepted the row. *)
Theorem CreateJob_saves_only_valid_requests {R : Type}
    (repoCreate : Job → R → GoError * R) (parse : string → GoError)
    (req : CreateJobRequest) (id : UUID) (st : R) :
  (IsValidJobType (crJobType req) = false →
   CreateJob repoCreate parse req id st
   = (None, Some ("invalid job type: " +:+ crJobType req), st))
  ∧ (IsValidJobType (crJobType req) = true →
     ∀ e, parse (crSchedule req) = Some e →
          CreateJob repoCreate parse req id st
          = (None,
             Some ("invalid cron schedule: "
                   +:+ ("invalid cron expression '" +:+ crSchedule req
                        +:+ "': " +:+ e)), st))
  ∧ (IsValidJobType (crJobType req) = true →
     parse (crSchedule req) = None →
     ∃ j, ID j = id ∧ Name j = crName req
          ∧ Description j = crDescription req
          ∧ Schedule j = crSchedule req ∧ JobType_ j = crJobType req
          ∧ IsActive j = default true (crIsActive req)
          ∧ Models.Config j
            = default (GetDefaultConfig (crJobType req)) (crConfig req)
          ∧ CreateJob repoCreate parse req id st
            = match repoCreate j st with
              | (None, st') => (Some j, None, st')
              | (Some e, st') =>
                  (None, Some ("failed to create job: " +:+ e), st')
              end)
  ∧ (∀ job err st',
       CreateJob repoCreate parse req id st = (job, err, st') →
       (is_Some job ↔ err = None)
       ∧ (is_Some job ↔
          IsValidJobType (crJobType req) = true
          ∧ parse (crSchedule req) = None
          ∧ ∃ j, job = Some j ∧ repoCreate j st = (None, st'))).
Proof.
  unfold CreateJob, ValidateCronSchedule. split_and!.
  - by intros ->.
  - intros -> e ->. done.
  - intros -> ->. simpl. eexists (mkJob _ _ _ _ _ _ _). simpl.
    split_and!; try done;
      first [by destruct (crIsActive req)|by destruct (crConfig req)].
  - intros job err st'.
    destruct (IsValidJobType (crJobType req)) eqn:Hty; simpl.
    + destruct (parse (crSchedule req)) as [e|] eqn:Hparse.
      * intros [= <- <- <-].
        split; (split; [by intros [? ?]|]); [done|by intros (_ & ? & _)].
      * destruct (repoCreate _ st) as [[e|] st1] eqn:Hcreate.
        -- intros [= <- <- <-].
           split; (split; [by intros [? ?]|]); [done|].
           by intros (_ & _ & j & ? & _).
        -- intros [= <- <- <-]. split; [split; [done|by eexists]|].
           split; [|by eexists]. intros _. split_and!; [done..|by eexists].
    + intros [= <- <- <-].
      split; (split; [by intros [? ?]|]); [done|by intros (? & _)].
Qed.

(** X21: UpdateJob writes the fields the request gives and no other. When
    it returns a job, that job is the one the repository gave with each
    field replaced by the request's value where there is one, its id is
    unchanged, the new schedule (if any) parses, the new kind (if any) is
    declared, and it is the value passed to the repository's Update. When
    the new schedule does not parse or the new kind is not declared,
    UpdateJob returns an error and the repository's Update is not called. *)
Theorem UpdateJob_writes_only_given_fields {R : Type}
    (repoGetByID : UUID → R → (Job + string) * R)
    (repoUpdate : Job → R → GoError * R) (parse : string → GoError)
    (id : UUID) (req : UpdateJobRequest) (st st1 : R) (job : Job) :
  repoGetByID id st = (inl job, st1) →
  (∀ job' st2,
     UpdateJob repoGetByID repoUpdate parse id req st = (Some job', None, st2) →
     ID job' = ID job
     ∧ Name job' = default (Name job) (upName req)
     ∧ Description job' = default (Description job) (upDescription req)
     ∧ Schedule job' = default (Schedule job) (upSchedule req)
     ∧ JobType_ job' = default (JobType_ job) (upJobType req)
     ∧ Models.Config job' = default (Models.Config job) (upConfig req)
     ∧ IsActive job' = default (IsActive job) (upIsActive req)
     ∧ (∀ sch, upSchedule req = Some sch → parse sch = None)
     ∧ (∀ jt, upJobType req = Some jt → IsValidJobType jt = true)
     ∧ repoUpdate job' st1 = (None, st2))
  ∧ ((∃ sch, upSchedule req = Some sch ∧ is_Some (parse sch))
     ∨ (∃ jt, upJobType req = Some jt ∧ IsValidJobType jt = false) →
     ∃ err, UpdateJob repoGetByID repoUpdate parse id req st
            = (None, Some err, st1)).
Proof.
  intros Hget. unfold UpdateJob, ValidateCronSchedule. rewrite Hget.
  destruct req as [n d sch jt cfg act]; simpl. split.
  - intros job' st2 H.
    destruct sch as [sch|]; [destruct (parse sch) as [e|] eqn:Hparse; [done|]|];
      (destruct jt as [jt|];
         [destruct (IsValidJobType jt) eqn:Hty; simpl in H; [|done]|]);
      match type of H with
      | context [repoUpdate ?j st1] =>
          destruct (repoUpdate j st1) as [[e|] st'] eqn:Hup; [done|];
          injection H as <- <-
      end;
      destruct n, d, cfg, act; simpl; split_and!; try done;
      by intros ? [= <-].
  - intros [(s & -> & [e He])|(t & -> & Hty)].
    + rewrite He. by eexists.
    + destruct sch as [sch|]; [destruct (parse sch); [by eexists|]|];
        rewrite Hty; simpl; by eexists.
Qed.

Lemma UpdateJob_writes_only_given_fields_witness :
  ∃ job' st2,
    UpdateJob listGetByID listUpdate fiveFields (ID healthJob) renameRequest
      [healthJob] = (Some job', None, st2)
    ∧ Name job' = "health-at-nine" ∧ IsActive job' = false
    ∧ Schedule job' = Schedule healthJob.
Proof.
  destruct (UpdateJob_writes_only_given_fields listGetByID listUpdate
              fiveFields (ID healthJob) renameRequest [healthJob] [healthJob]
              healthJob) as [H _]; [reflexivity|].
  eexists _, _. split; [reflexivity|].
  destruct (H _ _ eq_refl) as (_ & Hn & _ & Hs & _ & _ & Ha & _).
  split; [exact Hn|]. split; [exact Ha|exact Hs].
Defined.

(** X22: a job that CreateJob has accepted can be scheduled. When every
    schedule the service's parser accepts is accepted by the parser of the
    cron engine, an active job returned by CreateJob is registered by
    AddJob in every state the scheduler reaches: AddJob returns nil and the
    job's identifier has exactly one entry, with the schedule of the
    request. *)
Theorem created_jobs_are_schedulable {R : Type}
    (repoCreate : Job → R → GoError * R)
    (parseService parseCron : string → GoError) lv cfg
    (req : CreateJobRequest) (id : UUID) (st st' : R) (job : Job) s p :
  (∀ spec, parseService spec = None → parseCron spec = None) →
  CreateJob repoCreate parseService req id st = (Some job, None, st') →
  crIsActive req ≠ Some false →
  scheduled parseCron lv cfg s → heap s !! p = Some job →
  ∃ s' e, AddJob parseCron p s = Ret (None, s')
          ∧ registrations id s' = [e]
          ∧ entrySpec e = crSchedule req
          ∧ scheduledJobs s' !! id = Some (entryID e).
Proof.
  intros Hincl Hcreate Hact [Ht _ Hmu _ _ _ _]%scheduled_ok Hp.
  unfold CreateJob, ValidateCronSchedule in Hcreate.
  destruct (IsValidJobType (crJobType req)); simpl in Hcreate; [|done].
  destruct (parseService (crSchedule req)) eqn:Hparse; [done|].
  destruct (repoCreate _ st) as [[e|] st1]; [done|].
  injection Hcreate as <- <-.
  edestruct (addJobLocked_parses parseCron p s _ Ht Hp)
    as (s' & Hadd & Hid & Hreg & _).
  { simpl. destruct (crIsActive req) as [[]|]; done. }
  { simpl. by apply Hincl. }
  simpl in *. exists s'. eexists. unfold AddJob. rewrite Hmu.
  split_and!; [done|exact Hreg|done|done].
Qed.

Lemma created_jobs_are_schedulable_witness :
  ∃ s' e, AddJob fiveFields 0%nat (stateAfterOps true createdOps)
          = Ret (None, s')
          ∧ registrations (ID healthJob) s' = [e]
          ∧ entrySpec e = "0 9 * * *".
Proof.
  destruct (created_jobs_are_schedulable listCreate fiveFields fiveFields
              true sampleConfig sampleRequest (ID healthJob) [] [createdJob]
              createdJob (stateAfterOps true createdOps) 0%nat)
    as (s' & e & Hadd & Hreg & Hspec & _).
  - intros spec H. exact H.
  - reflexivity.
  - discriminate.
  - apply stateAfterOps_scheduled. vm_compute. eauto.
  - reflexivity.
  - exists s', e. split; [exact Hadd|]. split; [exact Hreg|exact Hspec].
Defined.

Lemma wrapInt_small bits z :
  bits = 32 ∨ bits = 64 → inInt bits z → wrapInt bits z = z.
Proof.
  unfold inInt, wrapInt. intros [-> | ->]; simpl; intros Hz.
  all: rewrite Z.mod_small by lia; lia.
Qed.

Lemma wrapInt_over bits z :
  bits = 32 ∨ bits = 64 → 2 ^ (bits - 1) ≤ z < 2 ^ bits →
  wrapInt bits z = z - 2 ^ bits.
Proof.
  unfold wrapInt. intros [-> | ->]; intros Hz.
  - replace (z + 2 ^ (32 - 1)) with (z - 2 ^ (32 - 1) + 1 * 2 ^ 32) by lia.
    rewrite Z_mod_plus_full, Z.mod_small by lia. lia.
  - replace (z + 2 ^ (64 - 1)) with (z - 2 ^ (64 - 1) + 1 * 2 ^ 64) by lia.
    rewrite Z_mod_plus_full, Z.mod_small by lia. lia.
Qed.

(** X23: the paging GetAllJobs asks the repository for. Whatever page and
    limit it is given, a list it returns reports a page of at least 1 and a
    limit between 1 and 100, and these are the values the repository was
    asked with; a page of at least 1 and a limit between 1 and 100 are
    passed on as given. The page has no upper bound, and the repository
    computes its offset (page - 1) * limit in Go's int: the offset is that
    product, and not negative, as long as the product is below 2^(bits-1);
    from there up to 2^bits it has wrapped around and is negative. The
    page and the limit JobHandler.GetJobs reads from the query are always
    in the ranges above, whatever the query holds. *)
Theorem GetAllJobs_paging_is_in_range {R : Type}
    (repoGetAll : Z → Z → R → (list Job * Z + string) * R)
    (ceilRatio : Z → Z → Z) (atoi : string → option Z)
    (bits page limit : Z) (st : R) :
  bits = 32 ∨ bits = 64 → inInt bits page → inInt bits limit →
  (∀ resp st',
     GetAllJobs repoGetAll ceilRatio page limit st = (Some resp, None, st') →
     1 ≤ Page resp ∧ 1 ≤ Limit resp ≤ 100
     ∧ inInt bits (Page resp) ∧ inInt bits (Limit resp)
     ∧ (1 ≤ page → Page resp = page)
     ∧ (page < 1 → Page resp = 1)
     ∧ (1 ≤ limit ≤ 100 → Limit resp = limit)
     ∧ (limit < 1 ∨ 100 < limit → Limit resp = 10)
     ∧ repoGetAll (Page resp) (Limit resp) st
       = (inl (Jobs resp, TotalCount resp), st')
     ∧ ((Page resp - 1) * Limit resp < 2 ^ (bits - 1) →
        repoOffset bits (Page resp) (Limit resp)
        = (Page resp - 1) * Limit resp
        ∧ 0 ≤ repoOffset bits (Page resp) (Limit resp))
     ∧ (2 ^ (bits - 1) ≤ (Page resp - 1) * Limit resp < 2 ^ bits →
        repoOffset bits (Page resp) (Limit resp)
        = (Page resp - 1) * Limit resp - 2 ^ bits
        ∧ repoOffset bits (Page resp) (Limit resp) < 0))
  ∧ (∀ pageStr limitStr,
       1 ≤ queryPage atoi pageStr ∧ 1 ≤ queryLimit atoi limitStr ≤ 100
       ∧ GetAllJobs repoGetAll ceilRatio
           (queryPage atoi pageStr) (queryLimit atoi limitStr) st
         = match repoGetAll (queryPage atoi pageStr)
                   (queryLimit atoi limitStr) st with
           | (inr err, st') => (None, Some ("failed to get jobs: " +:+ err), st')
           | (inl (jobs, totalCount), st') =>
               (Some (mkJobListResponse jobs totalCount
                        (queryPage atoi pageStr) (queryLimit atoi limitStr)
                        (ceilRatio totalCount (queryLimit atoi limitStr))),
                None, st')
           end).
Proof.
  intros Hbits Hpage Hlimit. split.
  - intros resp st'. unfold GetAllJobs.
    destruct (repoGetAll _ _ st) as [[[jobs total]|err] st1] eqn:Hget; [|done].
    intros [= <- <-]. simpl.
    set (p := if decide (page < 1) then 1 else page) in *.
    set (l := if decide (limit < 1 ∨ limit > 100) then 10 else limit) in *.
    assert (1 ≤ p) as Hp by (unfold p; case_decide; lia).
    assert (1 ≤ l ≤ 100) as Hl by (unfold l; case_decide; lia).
    assert (inInt bits p) as Hpi.
    { unfold p, inInt in *. destruct Hbits as [-> | ->]; simpl in *;
        case_decide; lia. }
    assert (inInt bits l) as Hli.
    { unfold inInt in *. destruct Hbits as [-> | ->]; simpl in *; lia. }
    assert (wrapInt bits (p - 1) = p - 1) as Hinner.
    { apply wrapInt_small; [done|]. unfold inInt in *.
      destruct Hbits as [-> | ->]; simpl in *; lia. }
    split_and!; try done; try lia.
    + intros ?. unfold p. by rewrite decide_False by lia.
    + intros ?. unfold p. by rewrite decide_True by lia.
    + intros ?. unfold l. by rewrite decide_False by lia.
    + intros ?. unfold l. by rewrite decide_True by lia.
    + intros Hlt. unfold repoOffset. rewrite Hinner.
      rewrite wrapInt_small; [split; [done|nia]|done|].
      unfold inInt. destruct Hbits as [-> | ->]; simpl in *; nia.
    + intros Hover. unfold repoOffset. rewrite Hinner.
      rewrite wrapInt_over by done. split; [done|lia].
  - intros pageStr limitStr.
    assert (1 ≤ queryPage atoi pageStr) as Hp.
    { unfold queryPage. repeat case_match; lia. }
    assert (1 ≤ queryLimit atoi limitStr ≤ 100) as Hl.
    { unfold queryLimit. repeat case_match; lia. }
    split_and!; try lia. unfold GetAllJobs.
    rewrite decide_False by lia. by rewrite decide_False by lia.
Qed.

(** X24: what the health endpoint reports. In every state the scheduler
    reaches, HealthCheck answers 200 "healthy" exactly when the database
    check returned no error and the cron engine is running, and 503
    "unhealthy" otherwise; the number of scheduled jobs it reports is the
    number of entries of the cron engine. *)
Theorem HealthCheck_reports_the_cron_engine parse lv cfg s dbErr :
  scheduled parse lv cfg s →
  (HealthCheck dbErr s = (200, "healthy")
   ↔ dbErr = None ∧ cronRunning (cron s) = true)
  ∧ (HealthCheck dbErr s = (503, "unhealthy")
     ↔ is_Some dbErr ∨ cronRunning (cron s) = false)
  ∧ (checkSchedulerHealth s).2 = length (entries (cron s)).
Proof.
  intros [Ht _ _ Hcr _ _ _]%scheduled_ok.
  unfold HealthCheck, checkSchedulerHealth, checkDatabaseHealth, IsRunning.
  rewrite Hcr. simpl. split_and!; [| |by apply table_size].
  - destruct dbErr as [e|], (isRunning s); simpl;
      try case_bool_decide; split; naive_solver.
  - destruct dbErr as [e|], (isRunning s); simpl;
      try case_bool_decide; split; naive_solver.
Qed.

Lemma HealthCheck_reports_the_cron_engine_witness :
  HealthCheck None (stateAfterOps true runningOps) = (200, "healthy")
  ∧ HealthCheck None (stateAfterOps true stoppedOps) = (503, "unhealthy").
Proof.
  split.
  - apply (HealthCheck_reports_the_cron_engine fiveFields true sampleConfig).
    + apply stateAfterOps_scheduled. vm_compute. eauto.
    + split; reflexivity.
  - reflexivity.
Defined.

Lemma CreateJob_saves_only_valid_requests_witness :
  CreateJob listCreate fiveFields sampleRequest (ID healthJob) []
  = (Some createdJob, None, [createdJob])
  ∧ ∃ j, IsActive j = true
         ∧ Models.Config j = GetDefaultConfig JobTypeHealthCheck
         ∧ CreateJob listCreate fiveFields sampleRequest (ID healthJob) []
           = (Some j, None, [j]).
Proof.
  split; [reflexivity|].
  destruct (CreateJob_saves_only_valid_requests listCreate fiveFields
              sampleRequest (ID healthJob) []) as (_ & _ & H & _).
  destruct (H eq_refl eq_refl) as (j & _ & _ & _ & _ & _ & Hact & Hcfg & Hc).
  exists j. split; [exact Hact|]. split; [exact Hcfg|exact Hc].
Defined.

Lemma GetAllJobs_paging_is_in_range_witness :
  ∃ resp, GetAllJobs listGetAll ceilDiv farPage 2 [healthJob; reportJob]
          = (Some resp, None, [healthJob; reportJob])
          ∧ Page resp = farPage ∧ Limit resp = 2
          ∧ repoOffset 64 (Page resp) (Limit resp) < 0.
Proof.
  destruct (GetAllJobs_paging_is_in_range listGetAll ceilDiv (digitsValue 0)
              64 farPage 2 [healthJob; reportJob]) as [H _].
  - by right.
  - unfold inInt, farPage. simpl. lia.
  - unfold inInt. simpl. lia.
  - eexists. split; [reflexivity|].
    destruct (H _ _ eq_refl)
      as (_ & _ & _ & _ & Hp & _ & Hl & _ & _ & _ & Hover).
    split; [apply Hp; unfold farPage; simpl; lia|].
    split; [apply Hl; lia|].
    apply Hover. simpl. unfold farPage. simpl. lia.
Defined.
Import AppConfig.

(** * The configuration *)

(** X25: what Load makes of the environment. Load fails only when the
    health check timeout does not parse. In a configuration it returns, no
    text field is empty: a variable that is not set or is empty gives the
    default. A number that is not set, empty or not a numeral gives the
    default; a numeral is taken as it is, also when it is zero or
    negative, and with a negative MAX_CONCURRENT_JOBS the constructor of
    the executor panics on making the semaphore. *)
Theorem Load_falls_back_to_defaults
    (getenv : string → string) (atoi : string → option Z)
    (parseBool : string → option bool) (parseDuration : string → Z + string) :
  (∀ err, Load getenv atoi parseBool parseDuration = inr err →
          ∃ e, parseDuration (getEnv getenv "HEALTH_CHECK_TIMEOUT" "30s") = inr e
               ∧ err = "invalid HEALTH_CHECK_TIMEOUT: " +:+ e)
  ∧ (∀ cfg, Load getenv atoi parseBool parseDuration = inl cfg →
       (DBHost (Database cfg) ≠ "" ∧ DBUser (Database cfg) ≠ ""
        ∧ DBPassword (Database cfg) ≠ "" ∧ DBName (Database cfg) ≠ ""
        ∧ DBSSLMode (Database cfg) ≠ "" ∧ ServerHost (Server cfg) ≠ ""
        ∧ Environment (App cfg) ≠ "" ∧ LogLevel (App cfg) ≠ ""
        ∧ URL (HealthCheck cfg) ≠ "" ∧ Directory (Reports cfg) ≠ "")
       ∧ (getenv "DB_HOST" = "" → DBHost (Database cfg) = "localhost")
       ∧ (getenv "MAX_CONCURRENT_JOBS" = ""
          ∨ atoi (getenv "MAX_CONCURRENT_JOBS") = None →
          MaxConcurrentJobs (Scheduler cfg) = 10)
       ∧ (∀ n, getenv "MAX_CONCURRENT_JOBS" ≠ "" →
               atoi (getenv "MAX_CONCURRENT_JOBS") = Some n →
               MaxConcurrentJobs (Scheduler cfg) = n)
       ∧ (∀ t0, Executor.NewJobExecutor (executorConfig cfg) t0 = None
                ↔ ∃ n, getenv "MAX_CONCURRENT_JOBS" ≠ ""
                       ∧ atoi (getenv "MAX_CONCURRENT_JOBS") = Some n
                       ∧ n < 0)).
Proof.
  unfold Load. split.
  - intros err. destruct (parseDuration _) as [d|e]; [done|].
    intros [= <-]. by exists e.
  - intros cfg. destruct (parseDuration _) as [d|e]; [|done].
    intros [= <-]. simpl.
    assert (∀ key d, d ≠ "" → getEnv getenv key d ≠ "") as Hne.
    { intros key d0 Hd. unfold getEnv. by case_decide. }
    split_and!; try (by apply Hne).
    + intros H. unfold getEnv. by rewrite decide_False by (by intros ?).
    + intros [H|H]; unfold getEnvAsInt.
      * by rewrite decide_False by (by intros ?).
      * case_decide; [by rewrite H|done].
    + intros n Hset Hn. unfold getEnvAsInt.
      by rewrite decide_True, Hn by done.
    + intros t0. unfold Executor.NewJobExecutor, executorConfig; simpl.
      unfold getEnvAsInt. split.
      * case_decide as Hneg; [|done]. intros _.
        case_decide as Hset; [|lia].
        destruct (atoi (getenv "MAX_CONCURRENT_JOBS")) as [n|]; [|lia].
        by exists n.
      * intros (n & Hset & Hn & Hlt).
        rewrite decide_True by (by rewrite decide_True, Hn by done).
        done.
Qed.

Lemma Load_falls_back_to_defaults_witness :
  ∃ cfg, Load sampleEnv sampleAtoi sampleParseBool sampleParseDuration = inl cfg
         ∧ DBHost (Database cfg) = "localhost"
         ∧ MaxConcurrentJobs (Scheduler cfg) = -2
         ∧ Executor.NewJobExecutor (executorConfig cfg) 1000 = None.
Proof.
  destruct (Load_falls_back_to_defaults sampleEnv sampleAtoi sampleParseBool
              sampleParseDuration) as [_ H].
  eexists. split; [reflexivity|].
  destruct (H _ eq_refl) as (_ & Hhost & _ & Hn & Hpanic).
  split; [by apply Hhost|]. split; [by apply Hn|].
  apply Hpanic. by exists (-2).
Defined.
